(** * DAC Directive Viewer: provenance resolver, filter engine, search engine

    A shallow embedding of [src/app/app.js].  JavaScript strings are modelled
    as [string] (code units as [ascii] characters), arrays as lists, the
    [Set] of active filters as a [gset string], numbers that index arrays as
    [Z] where the source lets them become negative and as [nat] otherwise.
    The DOM is a tree of text nodes and elements; the browser (layout,
    scrolling, case folding of the regular-expression engine) is a parameter
    of the operations that consult it. *)

From Stdlib Require Import QArith Lqa.
From Stdlib Require Import ZArith String Ascii List Permutation Lia Bool.
From stdpp Require Import base decidable option list gmap strings pretty.

Local Open Scope string_scope.
Local Open Scope list_scope.
Local Open Scope Z_scope.

#[local] Arguments String.append !_ _ / : simpl nomatch.

(* ===================================================================== *)
(** ** Constants of the module *)
(* ===================================================================== *)

Definition ALL_DACS : list string :=
  ["DAC1"; "DAC2"; "DAC3"; "DAC4"; "DAC5"; "DAC6"; "DAC7"; "COVID"].

Definition NORWAY_RELEVANT : list string := ["DAC1"; "DAC2"; "DAC3"; "DAC6"].

(** DAC priority order: COVID sits after DAC6 and before DAC7. *)
Definition DAC_ORDER : list string :=
  ["DAC1"; "DAC2"; "DAC3"; "DAC4"; "DAC5"; "DAC6"; "COVID"; "DAC7"].

(* ===================================================================== *)
(** ** JavaScript values and built-ins used by the resolver *)
(* ===================================================================== *)

(** How a call ends: with a value, with a thrown exception, or not at all. *)
Inductive completion (A : Type) : Type :=
  | Returns (v : A)
  | Throws (err : string)
  | Diverges.
Arguments Returns {A} v.
Arguments Throws {A} err.
Arguments Diverges {A}.

(** The values [lowestDac] can produce: a string, or [undefined] (what
    indexing an empty array gives). *)
Inductive jsval : Type :=
  | JUndefined
  | JString (s : string).

(** [Array.prototype.indexOf]: first position of [x], or [-1]. *)
Fixpoint indexOf (l : list string) (x : string) : Z :=
  match l with
  | [] => -1
  | y :: l' =>
      if decide (y = x) then 0
      else let i := indexOf l' x in if i =? -1 then -1 else i + 1
  end.

(** The comparator handed to [sort] in [lowestDac]. *)
Definition dacRank (a : string) : Z :=
  let ai := indexOf DAC_ORDER a in if ai =? -1 then 999 else ai.

Definition compareDac (a b : string) : Z := dacRank a - dacRank b.

(** [Array.prototype.sort] with a comparator.  The language requires the sort
    to be stable; for a consistent comparator (as [compareDac] is) the result
    is then the unique stable ordering, computed here by insertion: [x], which
    stood before every element of [sorted], stays in front of [y] unless the
    comparator puts it strictly after. *)
Fixpoint sortInsert {A : Type} (cmp : A -> A -> Z) (x : A) (sorted : list A) : list A :=
  match sorted with
  | [] => [x]
  | y :: rest => if 0 <? cmp x y then y :: sortInsert cmp x rest else x :: y :: rest
  end.

Fixpoint arraySort {A : Type} (cmp : A -> A -> Z) (l : list A) : list A :=
  match l with
  | [] => []
  | x :: l' => sortInsert cmp x (arraySort cmp l')
  end.

(** [arr[0]] on an array of strings. *)
Definition firstElement (l : list string) : jsval :=
  match l with
  | [] => JUndefined
  | x :: _ => JString x
  end.

(** [lowestDac(sources)].  [None] stands for a missing ([null] or
    [undefined]) argument, which [!sources] catches.  The body contains no
    [throw]; every path ends in [return]. *)
Definition lowestDac (sources : option (list string)) : completion jsval :=
  match sources with
  | None => Returns (JString "DAC1")
  | Some [] => Returns (JString "DAC1")
  | Some l => Returns (firstElement (arraySort compareDac l))
  end.

(* ===================================================================== *)
(** ** Strings *)
(* ===================================================================== *)

(** [s.length], and [s.slice(a, b)] / [s.slice(a)] for [0 <= a], [0 <= b]. *)
Definition strLength (s : string) : nat := String.length s.

Fixpoint strDrop (n : nat) (s : string) : string :=
  match n, s with
  | O, _ => s
  | S n', String _ s' => strDrop n' s'
  | S _, EmptyString => EmptyString
  end.

Fixpoint strTake (n : nat) (s : string) : string :=
  match n, s with
  | O, _ => EmptyString
  | S n', String c s' => String c (strTake n' s')
  | S _, EmptyString => EmptyString
  end.

Definition slice (s : string) (a b : nat) : string := strTake (b - a) (strDrop a s).
Definition sliceFrom (s : string) (a : nat) : string := strDrop a s.

Definition strIsEmpty (s : string) : bool :=
  match s with EmptyString => true | String _ _ => false end.

Definition strConcat (l : list string) : string := foldr String.append EmptyString l.

(* ===================================================================== *)
(** ** The DOM *)
(* ===================================================================== *)

(** A node is a text node or an element.  Of an element the model keeps what
    the program reads or writes: its class list, its [data-dac] attribute and
    its children. *)
#[warnings="-register-all"]
Inductive node : Type :=
  | Text (data : string)
  | Elem (classList : list string) (dataDac : option string) (childNodes : list node).

(** [classList.contains / add / remove / toggle(name, force)]. *)
Definition contains (c : list string) (name : string) : bool := bool_decide (name ∈ c).
Definition classAdd (name : string) (c : list string) : list string :=
  if contains c name then c else c ++ [name].
Definition classRemove (name : string) (c : list string) : list string :=
  filter (λ x, x ≠ name) c.
Definition classToggleForce (name : string) (force : bool) (c : list string) : list string :=
  if force then classAdd name c else classRemove name c.

(** [node.textContent]. *)
Fixpoint textContent (n : node) : string :=
  match n with
  | Text s => s
  | Elem _ _ kids => strConcat (map textContent kids)
  end.

(** What assigning [el.textContent = s] leaves as children of [el]. *)
Definition setTextContent (s : string) : list node :=
  if strIsEmpty s then [] else [Text s].

Definition HIGHLIGHT : string := "search-highlight".
Definition CURRENT : string := "current".

Definition isHighlight (n : node) : bool :=
  match n with
  | Text _ => false
  | Elem c _ _ => contains c HIGHLIGHT
  end.

(** One level of [Node.normalize]: empty text nodes go away and each run of
    adjacent text nodes becomes one text node holding the concatenated data. *)
Fixpoint mergeText (l : list node) : list node :=
  match l with
  | [] => []
  | Text s :: rest =>
      match mergeText rest with
      | Text s' :: rest' => Text (s +:+ s') :: rest'
      | rest' => if strIsEmpty s then rest' else Text s :: rest'
      end
  | e :: rest => e :: mergeText rest
  end.

(** [Node.normalize] on the subtree of [n]. *)
Fixpoint normalize (n : node) : node :=
  match n with
  | Text s => Text s
  | Elem c d kids => Elem c d (mergeText (map normalize kids))
  end.

(** The elements matching [.search-highlight] below a node, in document
    order (pre-order), each given by its class list. *)
Fixpoint highlightsOf (n : node) : list (list string) :=
  match n with
  | Text _ => []
  | Elem c _ kids =>
      (if contains c HIGHLIGHT then [c] else []) ++ concat (map highlightsOf kids)
  end.

Definition highlightsOfList (l : list node) : list (list string) :=
  concat (map highlightsOf l).

(** Update the class list of the [k]-th [.search-highlight] element below a
    node (document order); nothing changes when there are fewer. *)
Fixpoint alterHighlight (f : list string -> list string) (k : nat) (n : node) : node :=
  match n with
  | Text s => Text s
  | Elem c d kids =>
      let go :=
        fix go (ks : list node) (k : nat) : list node :=
          match ks with
          | [] => []
          | x :: ks' =>
              let m := length (highlightsOf x) in
              if (k <? m)%nat then alterHighlight f k x :: ks'
              else x :: go ks' (k - m)%nat
          end in
      if contains c HIGHLIGHT then
        match k with
        | O => Elem (f c) d kids
        | S k' => Elem c d (go kids k')
        end
      else Elem c d (go kids k)
  end.

Fixpoint alterHighlightList (f : list string -> list string) (k : nat) (l : list node) : list node :=
  match l with
  | [] => []
  | x :: l' =>
      let m := length (highlightsOf x) in
      if (k <? m)%nat then alterHighlight f k x :: l'
      else x :: alterHighlightList f (k - m)%nat l'
  end.

(* ===================================================================== *)
(** ** The page and the application state *)
(* ===================================================================== *)

Inductive unitKind : Type := Article | Annex.

(** A content unit's box ([.article-block] or [.annex-block]): its
    [data-sources] (the JSON array, parsed), its class list, its inline
    [style.display], and the children of its body element, which came from
    [contentHtml]. *)
Record block : Type := Block {
  blockKind : unitKind;
  blockId : string;
  blockSources : list string;
  blockClasses : list string;
  blockDisplay : string;
  blockBody : list node
}.

(** The content column in document order.  Chapter headings and the headers
    of article blocks are what the scroll anchor is chosen among. *)
Inductive item : Type :=
  | ChapterHeading (title : string)
  | Unit (b : block).

(** A [.dac-filter-btn]; [btnActive] is the presence of class [active]. *)
Record button : Type := Button { btnDac : string; btnActive : bool }.

(** A [.toc-article] or [.toc-annex] link. *)
Record tocEntry : Type := TocEntry { tocSources : list string; tocClasses : list string }.

Record page : Type := Page {
  filterBtns : list button;
  norwayBtnActive : bool;
  tocEntries : list tocEntry;
  content : list item;
  resultsCount : string
}.

Inductive scrollCmd : Type :=
  | ScrollTo (y : Z) (behavior : string)
  | ScrollIntoView (matchOrdinal : nat) (behavior : string) (blockAlign : string).

(** Module state, the document, and the two pieces of window state the
    program touches.  An entry of [searchMatches] names a highlight element
    by its ordinal among the [.search-highlight] elements of the document,
    which is how [querySelectorAll] lists them. *)
Record App : Type := MkApp {
  dom : page;
  activeFilters : gset string;
  searchTerm : string;
  searchMatches : list nat;
  currentSearchIndex : Z;
  norwayFilterActive : bool;
  rootScrollBehavior : string;
  pageYOffset : Z;
  scrollLog : list scrollCmd
}.

(** The browser.  [canonicalize] is the case folding the regular-expression
    engine applies under the [i] flag; [boxTop p i] is the page-absolute top
    edge of the box of the [i]-th item's header under the layout of [p], or
    [None] when that element generates no box; [scrollLimit p] is the largest
    vertical scroll offset; [reflowScroll p y] is the scroll offset the window
    reports once [p] has been laid out, having been [y] before.  Positions
    and offsets are whole numbers of layout units, the sub-pixel unit in
    which the layout engine keeps lengths.  The window cannot rest on every
    such offset: [snapScroll y] is the offset it takes when an instant scroll
    asks for [y] inside the scroll range, the request rounded to a position
    the window can scroll to. *)
Record Host : Type := MkHost {
  canonicalize : ascii -> ascii;
  boxTop : page -> nat -> option Z;
  scrollLimit : page -> Z;
  reflowScroll : page -> Z -> Z;
  snapScroll : Z -> Z
}.

Definition withContent (c : list item) (p : page) : page :=
  Page (filterBtns p) (norwayBtnActive p) (tocEntries p) c (resultsCount p).
Definition withResultsCount (t : string) (p : page) : page :=
  Page (filterBtns p) (norwayBtnActive p) (tocEntries p) (content p) t.
Definition withTocEntries (t : list tocEntry) (p : page) : page :=
  Page (filterBtns p) (norwayBtnActive p) t (content p) (resultsCount p).
Definition withFilterBtns (b : list button) (p : page) : page :=
  Page b (norwayBtnActive p) (tocEntries p) (content p) (resultsCount p).
Definition withNorwayBtn (a : bool) (p : page) : page :=
  Page (filterBtns p) a (tocEntries p) (content p) (resultsCount p).

Definition withDom (p : page) (st : App) : App :=
  MkApp p (activeFilters st) (searchTerm st) (searchMatches st) (currentSearchIndex st)
        (norwayFilterActive st) (rootScrollBehavior st) (pageYOffset st) (scrollLog st).
Definition withActiveFilters (f : gset string) (st : App) : App :=
  MkApp (dom st) f (searchTerm st) (searchMatches st) (currentSearchIndex st)
        (norwayFilterActive st) (rootScrollBehavior st) (pageYOffset st) (scrollLog st).
Definition withSearchTerm (t : string) (st : App) : App :=
  MkApp (dom st) (activeFilters st) t (searchMatches st) (currentSearchIndex st)
        (norwayFilterActive st) (rootScrollBehavior st) (pageYOffset st) (scrollLog st).
Definition withSearchMatches (m : list nat) (st : App) : App :=
  MkApp (dom st) (activeFilters st) (searchTerm st) m (currentSearchIndex st)
        (norwayFilterActive st) (rootScrollBehavior st) (pageYOffset st) (scrollLog st).
Definition withCurrentSearchIndex (i : Z) (st : App) : App :=
  MkApp (dom st) (activeFilters st) (searchTerm st) (searchMatches st) i
        (norwayFilterActive st) (rootScrollBehavior st) (pageYOffset st) (scrollLog st).
Definition withNorwayFilterActive (a : bool) (st : App) : App :=
  MkApp (dom st) (activeFilters st) (searchTerm st) (searchMatches st) (currentSearchIndex st)
        a (rootScrollBehavior st) (pageYOffset st) (scrollLog st).
Definition withRootScrollBehavior (b : string) (st : App) : App :=
  MkApp (dom st) (activeFilters st) (searchTerm st) (searchMatches st) (currentSearchIndex st)
        (norwayFilterActive st) b (pageYOffset st) (scrollLog st).
Definition withPageYOffset (y : Z) (st : App) : App :=
  MkApp (dom st) (activeFilters st) (searchTerm st) (searchMatches st) (currentSearchIndex st)
        (norwayFilterActive st) (rootScrollBehavior st) y (scrollLog st).
Definition logScroll (c : scrollCmd) (st : App) : App :=
  MkApp (dom st) (activeFilters st) (searchTerm st) (searchMatches st) (currentSearchIndex st)
        (norwayFilterActive st) (rootScrollBehavior st) (pageYOffset st) (scrollLog st ++ [c]).

Definition withBody (kids : list node) (b : block) : block :=
  Block (blockKind b) (blockId b) (blockSources b) (blockClasses b) (blockDisplay b) kids.
Definition withClasses (c : list string) (b : block) : block :=
  Block (blockKind b) (blockId b) (blockSources b) c (blockDisplay b) (blockBody b).
Definition withDisplay (d : string) (b : block) : block :=
  Block (blockKind b) (blockId b) (blockSources b) (blockClasses b) d (blockBody b).

(** The bodies of the content units ([.article-body, .annex-body]) in
    document order. *)
Definition bodiesOf (c : list item) : list (list node) :=
  omap (λ it, match it with ChapterHeading _ => None | Unit b => Some (blockBody b) end) c.

(** [document.querySelectorAll('.search-highlight')], as class lists. *)
Definition pageHighlights (c : list item) : list (list string) :=
  concat (map highlightsOfList (bodiesOf c)).

(* ===================================================================== *)
(** ** The regular expression of [performSearch] *)
(* ===================================================================== *)

Definition bindC {A B : Type} (m : completion A) (k : A -> completion B) : completion B :=
  match m with
  | Returns v => k v
  | Throws e => Throws e
  | Diverges => Diverges
  end.

Notation "'let*' x := m 'in' k" := (bindC m (fun x => k))
  (at level 10, x name, m at level 100, k at level 200).

(** [new RegExp(escapeRegex(term), 'gi')]: [escapeRegex] puts a backslash in
    front of every metacharacter, so the pattern denotes the literal string
    [term]; the object carries the mutable [lastIndex] of a global regex. *)
Record RegExp : Type := MkRegExp { literal : string; lastIndex : nat }.

Definition newRegExp (term : string) : RegExp := MkRegExp term 0.

(** Does the literal match at the start of [s], ignoring case? *)
Fixpoint matchHere (canon : ascii -> ascii) (pat s : string) : bool :=
  match pat, s with
  | EmptyString, _ => true
  | String _ _, EmptyString => false
  | String p pat', String c s' =>
      bool_decide (canon p = canon c) && matchHere canon pat' s'
  end.

(** First position at or after [i] where the literal matches; [s] is the
    text from position [i] on. *)
Fixpoint searchFrom (canon : ascii -> ascii) (pat s : string) (i : nat) : option nat :=
  if matchHere canon pat s then Some i
  else match s with
       | EmptyString => None
       | String _ s' => searchFrom canon pat s' (S i)
       end.

(** [regex.exec(text)] on a global regex: the search starts at [lastIndex];
    a match moves [lastIndex] to its end, a failure resets it to 0.  The
    result is [match.index] and [match[0]]. *)
Definition regexExec (canon : ascii -> ascii) (r : RegExp) (text : string)
  : option (nat * string) * RegExp :=
  if (strLength text <? lastIndex r)%nat then (None, MkRegExp (literal r) 0)
  else
    match searchFrom canon (literal r) (strDrop (lastIndex r) text) (lastIndex r) with
    | None => (None, MkRegExp (literal r) 0)
    | Some idx =>
        let e := (idx + strLength (literal r))%nat in
        (Some (idx, slice text idx e), MkRegExp (literal r) e)
    end.

(** [regex.test(text)]: [exec], reporting only whether it matched. *)
Definition regexTest (canon : ascii -> ascii) (r : RegExp) (text : string) : bool * RegExp :=
  match regexExec canon r text with
  | (Some _, r') => (true, r')
  | (None, r') => (false, r')
  end.

(* ===================================================================== *)
(** ** highlightTextNodes *)
(* ===================================================================== *)

Definition EXCLUDED : list string :=
  ["dac-provenance-marker"; "dac-label"; "dac-operation";
   "title-article-norm"; "stitle-article-norm"].

(** [el.matches('.dac-provenance-marker, .dac-label, ...')]. *)
Definition matchesExcluded (c : list string) : bool := existsb (contains c) EXCLUDED.

(** The tree walker.  It visits the text nodes below the root in document
    order and calls [acceptNode] on each; the result lists, for every text
    node in that order, whether it was pushed on [textNodes].  [inExcluded]
    says whether [node.parentElement.closest(...)] finds an element; in that
    case [regex.test] is not reached and the regex is left as it is. *)
Fixpoint walkTextNodes (canon : ascii -> ascii) (inExcluded : bool) (n : node) (r : RegExp)
  : list bool * RegExp :=
  match n with
  | Text s =>
      if inExcluded then ([false], r)
      else let '(ok, r') := regexTest canon r s in ([ok], r')
  | Elem c _ kids =>
      let ex := inExcluded || matchesExcluded c in
      (fix go (ks : list node) (r : RegExp) : list bool * RegExp :=
         match ks with
         | [] => ([], r)
         | k :: ks' =>
             let '(f1, r1) := walkTextNodes canon ex k r in
             let '(f2, r2) := go ks' r1 in
             (f1 ++ f2, r2)
         end) kids r
  end.

Fixpoint walkTextNodesList (canon : ascii -> ascii) (inExcluded : bool) (ks : list node)
  (r : RegExp) : list bool * RegExp :=
  match ks with
  | [] => ([], r)
  | k :: ks' =>
      let '(f1, r1) := walkTextNodes canon inExcluded k r in
      let '(f2, r2) := walkTextNodesList canon inExcluded ks' r1 in
      (f1 ++ f2, r2)
  end.

(** [<span class="search-highlight">] with [textContent = m]. *)
Definition highlightSpan (m : string) : node := Elem [HIGHLIGHT] None (setTextContent m).

(** The [while ((match = regex.exec(text)) !== null)] loop.  [fuel] bounds the
    number of [exec] calls; running out of it stands for a loop that does not
    end, which is what the source does on a pattern that matches the empty
    string. *)
Fixpoint execLoop (canon : ascii -> ascii) (fuel : nat) (r : RegExp) (text : string)
  (lastIdx : nat) (fragments : list node) : completion (list node * nat * RegExp) :=
  match fuel with
  | O => Diverges
  | S fuel' =>
      match regexExec canon r text with
      | (None, r') => Returns (fragments, lastIdx, r')
      | (Some (idx, m), r') =>
          let fragments1 :=
            if (lastIdx <? idx)%nat then fragments ++ [Text (slice text lastIdx idx)]
            else fragments in
          let fragments2 := fragments1 ++ [highlightSpan m] in
          execLoop canon fuel' r' text (lastIndex r') fragments2
      end
  end.

(** The body of [textNodes.forEach]: what the text node holding [text] is
    replaced with (itself when no fragment was produced). *)
Definition splitTextNode (canon : ascii -> ascii) (r : RegExp) (text : string)
  : completion (list node * RegExp) :=
  let r0 := MkRegExp (literal r) 0 in
  let* res := execLoop canon (S (strLength text)) r0 text 0 [] in
  match res with
  | (fragments, lastIdx, r') =>
      if (0 <? length fragments)%nat then
        Returns (if (lastIdx <? strLength text)%nat
                 then fragments ++ [Text (sliceFrom text lastIdx)]
                 else fragments, r')
      else Returns ([Text text], r')
  end.

(** [textNodes.forEach] over the tree: every text node takes the next flag of
    the walk and, when it was accepted, is replaced by its fragments. *)
Fixpoint replaceTextNodes (canon : ascii -> ascii) (n : node) (flags : list bool) (r : RegExp)
  : completion (list node * list bool * RegExp) :=
  match n with
  | Text s =>
      match flags with
      | true :: fl => let* res := splitTextNode canon r s in Returns (fst res, fl, snd res)
      | false :: fl => Returns ([Text s], fl, r)
      | [] => Returns ([Text s], [], r)
      end
  | Elem c d kids =>
      let* res := (fix go (ks : list node) (flags : list bool) (r : RegExp)
                 : completion (list node * list bool * RegExp) :=
                 match ks with
                 | [] => Returns ([], flags, r)
                 | k :: ks' =>
                     let* r1 := replaceTextNodes canon k flags r in
                     let* r2 := go ks' (snd (fst r1)) (snd r1) in
                     Returns (fst (fst r1) ++ fst (fst r2), snd (fst r2), snd r2)
                 end) kids flags r in
      Returns ([Elem c d (fst (fst res))], snd (fst res), snd res)
  end.

Fixpoint replaceTextNodesList (canon : ascii -> ascii) (ks : list node) (flags : list bool)
  (r : RegExp) : completion (list node * list bool * RegExp) :=
  match ks with
  | [] => Returns ([], flags, r)
  | k :: ks' =>
      let* r1 := replaceTextNodes canon k flags r in
      let* r2 := replaceTextNodesList canon ks' (snd (fst r1)) (snd r1) in
      Returns (fst (fst r1) ++ fst (fst r2), snd (fst r2), snd r2)
  end.

(** [highlightTextNodes(root, regex)], on the children of the body element
    [root].  Neither a body element nor the boxes around it carry one of the
    excluded classes, so the walk starts outside every excluded region. *)
Definition highlightTextNodes (canon : ascii -> ascii) (kids : list node) (r : RegExp)
  : completion (list node * RegExp) :=
  let '(flags, r1) := walkTextNodesList canon false kids r in
  let* res := replaceTextNodesList canon kids flags r1 in
  Returns (fst (fst res), snd res).

(* ===================================================================== *)
(** ** clearSearch, performSearch, navigateSearch *)
(* ===================================================================== *)

(** What [clearSearch] leaves of a node.  A [.search-highlight] element is
    replaced by a text node carrying its [textContent]; an element that had
    such a child has [normalize()] called on it, which normalises its whole
    subtree.  The source does this one highlight at a time over the static
    list of [querySelectorAll]; a replacement only creates adjacent text
    nodes among the children of the parent that is normalised right after,
    so the passes commute and the outcome is the one computed here. *)
Definition clearFinish (dirty : bool) (kids : list node) : list node :=
  if dirty then mergeText (map normalize kids) else kids.

Fixpoint clearNode (n : node) : node :=
  match n with
  | Text s => Text s
  | Elem c d kids =>
      if contains c HIGHLIGHT then Text (textContent n)
      else Elem c d (clearFinish (existsb isHighlight kids) (map clearNode kids))
  end.

(** The children of a body element after [clearSearch]. *)
Definition clearBody (kids : list node) : list node :=
  clearFinish (existsb isHighlight kids) (map clearNode kids).

Definition mapBodies (f : list node -> list node) (c : list item) : list item :=
  map (λ it, match it with
             | ChapterHeading t => ChapterHeading t
             | Unit b => Unit (withBody (f (blockBody b)) b)
             end) c.

Definition clearSearch (st : App) : App :=
  let p := withContent (mapBodies clearBody (content (dom st))) (dom st) in
  withCurrentSearchIndex (-1) (withSearchMatches [] (withDom p st)).

(** [querySelectorAll('.article-body, .annex-body').forEach(body =>
    highlightTextNodes(body, regex))]: the bodies in document order, all with
    the same regex object. *)
Fixpoint highlightBodies (canon : ascii -> ascii) (c : list item) (r : RegExp)
  : completion (list item * RegExp) :=
  match c with
  | [] => Returns ([], r)
  | ChapterHeading t :: c' =>
      let* res := highlightBodies canon c' r in
      Returns (ChapterHeading t :: fst res, snd res)
  | Unit b :: c' =>
      let* r1 := highlightTextNodes canon (blockBody b) r in
      let* r2 := highlightBodies canon c' (snd r1) in
      Returns (Unit (withBody (fst r1) b) :: fst r2, snd r2)
  end.

(** Apply [f] to the class list of the highlight element with ordinal [k]
    and [g] to the block around it ([match.closest('.article-block,
    .annex-block')]). *)
Fixpoint updateMatch (f : list string -> list string) (g : block -> block) (k : nat)
  (c : list item) : list item :=
  match c with
  | [] => []
  | ChapterHeading t :: c' => ChapterHeading t :: updateMatch f g k c'
  | Unit b :: c' =>
      let m := length (highlightsOfList (blockBody b)) in
      if (k <? m)%nat then Unit (g (withBody (alterHighlightList f k (blockBody b)) b)) :: c'
      else Unit b :: updateMatch f g (k - m)%nat c'
  end.

Definition expandBlock (b : block) : block :=
  withClasses (classRemove "collapsed" (blockClasses b)) b.

(** [arr[i]] for a number [i]: [undefined] outside the array. *)
Definition arrayGet {A : Type} (l : list A) (i : Z) : option A :=
  if i <? 0 then None else l !! Z.to_nat i.

(** Mark a match as current, expand its block and scroll to it. *)
Definition showMatch (m : nat) (st : App) : App :=
  let c := updateMatch (classAdd CURRENT) expandBlock m (content (dom st)) in
  logScroll (ScrollIntoView m "smooth" "center") (withDom (withContent c (dom st)) st).

Definition foundText (count : nat) : string :=
  if (0 <? count)%nat
  then pretty count +:+ " match" +:+ (if bool_decide (count ≠ 1%nat) then "es" else "")
       +:+ " found (Enter to navigate)"
  else "No matches".

Definition performSearch (host : Host) (term : string) (st : App) : completion App :=
  let st1 := withSearchTerm term (clearSearch st) in
  if strIsEmpty term || (strLength term <? 2)%nat then
    Returns (withDom (withResultsCount "" (dom st1)) st1)
  else
    let regex := newRegExp term in
    let st2 := withSearchMatches [] st1 in
    let* res := highlightBodies (canonicalize host) (content (dom st2)) regex in
    let c := fst res in
    let matches := seq 0 (length (pageHighlights c)) in
    let count := length matches in
    let st3 := withSearchMatches matches
                 (withDom (withResultsCount (foundText count) (withContent c (dom st2))) st2) in
    if (0 <? count)%nat then
      match arrayGet matches 0 with
      | None => Throws "TypeError"
      | Some m0 => Returns (showMatch m0 (withCurrentSearchIndex 0 st3))
      end
    else Returns st3.

Definition positionText (i n : Z) : string :=
  pretty (i + 1) +:+ " / " +:+ pretty n +:+ " matches".

Definition navigateSearch (direction : Z) (st : App) : completion App :=
  let n := Z.of_nat (length (searchMatches st)) in
  if n =? 0 then Returns st
  else
    let idx := currentSearchIndex st in
    let* st1 :=
      (if (0 <=? idx) && (idx <? n) then
         match arrayGet (searchMatches st) idx with
         | None => Throws "TypeError"
         | Some m =>
             Returns (withDom (withContent
               (updateMatch (classRemove CURRENT) id m (content (dom st))) (dom st)) st)
         end
       else Returns st) in
    let i1 := idx + direction in
    let i2 := if n <=? i1 then 0 else i1 in
    let i3 := if i2 <? 0 then n - 1 else i2 in
    let st2 := withCurrentSearchIndex i3 st1 in
    match arrayGet (searchMatches st2) i3 with
    | None => Throws "TypeError"
    | Some m =>
        let st3 := showMatch m st2 in
        Returns (withDom (withResultsCount (positionText i3 n) (dom st3)) st3)
    end.

(** [k] calls of [navigateSearch(direction)] in a row. *)
Fixpoint navigateTimes (k : nat) (direction : Z) (st : App) : completion App :=
  match k with
  | O => Returns st
  | S k' => let* st' := navigateSearch direction st in navigateTimes k' direction st'
  end.

(* ===================================================================== *)
(** ** The filter engine *)
(* ===================================================================== *)

(** [renderFilters]: one button per entry of [ALL_DACS], all active. *)
Definition renderFilters : list button := map (λ d, Button d true) ALL_DACS.

(** [allActive || sources.some(s => activeFilters.has(s))]. *)
Definition unitVisible (allActive : bool) (af : gset string) (sources : list string) : bool :=
  allActive || existsb (λ s, bool_decide (s ∈ af)) sources.

(** The [.dac-zone] loop, over one subtree. *)
Fixpoint filterZones (allActive : bool) (af : gset string) (n : node) : node :=
  match n with
  | Text s => Text s
  | Elem c d kids =>
      let c' :=
        if contains c "dac-zone" then
          let visible :=
            allActive || match d with Some dac => bool_decide (dac ∈ af) | None => false end in
          classToggleForce "dac-zone-hidden" (negb visible) c
        else c in
      Elem c' d (map (filterZones allActive af) kids)
  end.

(** The [.article-block] and [.annex-block] loops, with the zones inside. *)
Definition filterItem (allActive : bool) (af : gset string) (it : item) : item :=
  match it with
  | ChapterHeading t => ChapterHeading t
  | Unit b =>
      let b1 := withBody (map (filterZones allActive af) (blockBody b)) b in
      let visible := unitVisible allActive af (blockSources b) in
      match blockKind b with
      | Article =>
          Unit (withClasses (classToggleForce "dac-filtered-out" (negb visible) (blockClasses b1)) b1)
      | Annex => Unit (withDisplay (if visible then "" else "none") b1)
      end
  end.

(** The [.toc-article, .toc-annex] loop. *)
Definition filterToc (allActive : bool) (af : gset string) (e : tocEntry) : tocEntry :=
  let visible := unitVisible allActive af (tocSources e) in
  TocEntry (tocSources e) (classToggleForce "toc-hidden" (negb visible) (tocClasses e)).

(** Whether the filter shows a unit: an article block without class
    [dac-filtered-out], an annex block whose [style.display] is not [none]. *)
Definition blockShown (b : block) : bool :=
  match blockKind b with
  | Article => negb (contains (blockClasses b) "dac-filtered-out")
  | Annex => negb (bool_decide (blockDisplay b = "none"))
  end.

Definition tocShown (e : tocEntry) : bool := negb (contains (tocClasses e) "toc-hidden").

(** The scroll anchor recorded before the mutation. *)
Record Anchor : Type := MkAnchor { anchorEl : nat; anchorPageY : Z; anchorViewportY : Z }.

(** [querySelectorAll('.chapter-heading, .article-block > .article-header')],
    as positions in the content column. *)
Definition isCandidate (it : item) : bool :=
  match it with
  | ChapterHeading _ => true
  | Unit b => match blockKind b with Article => true | Annex => false end
  end.

Fixpoint candidatesFrom (i : nat) (c : list item) : list nat :=
  match c with
  | [] => []
  | it :: c' => (if isCandidate it then [i] else []) ++ candidatesFrom (S i) c'
  end.

Definition candidates (c : list item) : list nat := candidatesFrom 0 c.

(** [el.getBoundingClientRect().top]: relative to the viewport, and 0 for an
    element without a box. *)
Definition rectTop (host : Host) (p : page) (scrollY : Z) (el : nat) : Z :=
  match boxTop host p el with
  | Some t => t - scrollY
  | None => 0
  end.

(** The [for (const el of candidates)] loop; [bestDist = None] is [Infinity]. *)
Fixpoint pickAnchor (host : Host) (p : page) (scrollY : Z) (cands : list nat)
  (bestDist : option Z) (anchor : option Anchor) : option Anchor :=
  match cands with
  | [] => anchor
  | el :: rest =>
      let top := rectTop host p scrollY el in
      let dist := Z.abs top in
      if match bestDist with None => true | Some b => dist <? b end
      then pickAnchor host p scrollY rest (Some dist) (Some (MkAnchor el (top + scrollY) top))
      else pickAnchor host p scrollY rest bestDist anchor
  end.

(** [window.scrollTo(0, y)]: the scroll behaviour is the one in force on the
    root element; an instant scroll lands on [y] clamped to the scroll range
    and rounded by the browser to an offset the window can take
    ([clampScroll]), a smooth one has not moved the window when the call
    returns. *)
Definition clampScroll (host : Host) (p : page) (y : Z) : Z :=
  snapScroll host (Z.max 0 (Z.min (scrollLimit host p) y)).

Definition scrollTo (host : Host) (y : Z) (st : App) : App :=
  let st' := logScroll (ScrollTo y (rootScrollBehavior st)) st in
  if bool_decide (rootScrollBehavior st = "smooth") then st'
  else withPageYOffset (clampScroll host (dom st) y) st'.

(** The scroll target of the restore step: the anchor element itself is
    measured again, [newRect.top + window.pageYOffset - anchorViewportY]. *)
Definition restoreTarget (host : Host) (p : page) (scrollY : Z) (a : Anchor) : Z :=
  let newTop := rectTop host p scrollY (anchorEl a) in
  let newPageY := newTop + scrollY in
  newPageY - anchorViewportY a.

Definition readActiveFilters (p : page) : gset string :=
  list_to_set (map btnDac (List.filter btnActive (filterBtns p))).

Definition updateFilters (host : Host) (st : App) : App :=
  let p := dom st in
  let af := readActiveFilters p in
  let allActive := bool_decide (size af = length ALL_DACS) in
  let anchor := pickAnchor host p (pageYOffset st) (candidates (content p)) None None in
  let p' := withTocEntries (map (filterToc allActive af) (tocEntries p))
              (withContent (map (filterItem allActive af) (content p)) p) in
  let st1 := withDom p' (withActiveFilters af st) in
  match anchor with
  | None => st1
  | Some a =>
      let saved := rootScrollBehavior st1 in
      let st2 := withRootScrollBehavior "auto" st1 in
      let y1 := reflowScroll host p' (pageYOffset st2) in
      let st3 := scrollTo host (restoreTarget host p' y1 a) (withPageYOffset y1 st2) in
      withRootScrollBehavior saved st3
  end.

(** The click handlers of the filter bar. *)
Definition toggleBtn (b : button) : button := Button (btnDac b) (negb (btnActive b)).

Definition filterClick (host : Host) (i : nat) (st : App) : App :=
  updateFilters host
    (withDom (withFilterBtns (alter toggleBtn i (filterBtns (dom st))) (dom st)) st).

Definition resetToShowAll (st : App) : App :=
  let p := dom st in
  withDom (withFilterBtns (map (λ b, Button (btnDac b) true) (filterBtns p))
             (withNorwayBtn false p))
          (withNorwayFilterActive false st).

Definition showAllClick (host : Host) (st : App) : App :=
  updateFilters host (resetToShowAll st).

Definition norwayClick (host : Host) (st : App) : App :=
  if norwayFilterActive st then updateFilters host (resetToShowAll st)
  else
    let p := dom st in
    updateFilters host
      (withDom (withFilterBtns
                  (map (λ b, Button (btnDac b) (bool_decide (btnDac b ∈ NORWAY_RELEVANT)))
                       (filterBtns p))
                  (withNorwayBtn true p))
               (withNorwayFilterActive true st)).

(* ===================================================================== *)
(** ** The restore step as the specification words it *)
(* ===================================================================== *)

(** Following the spec's words (section 4.2, step 4), for comparison with
    [restoreTarget]: the box re-located after the mutation is the recorded
    anchor or, when that has become hidden, the nearest still-visible
    candidate before it in document order. *)
Fixpoint precedingCandidates (cands : list nat) (el : nat) : list nat :=
  match cands with
  | [] => []
  | e :: rest => if bool_decide (e = el) then [] else e :: precedingCandidates rest el
  end.

Definition specRelocate (host : Host) (p' : page) (cands : list nat) (el : nat) : option nat :=
  if bool_decide (is_Some (boxTop host p' el)) then Some el
  else last (List.filter (λ e, bool_decide (is_Some (boxTop host p' e)))
                         (precedingCandidates cands el)).

(** ... and the scroll offset is the one that gives the re-located box the
    on-screen position it had before the mutation. *)
Definition specRestoreTarget (host : Host) (p p' : page) (scrollY : Z) (cands : list nat)
  (el : nat) : option Z :=
  e ← specRelocate host p' cands el;
  t' ← boxTop host p' e;
  Some (t' - rectTop host p scrollY e).

(* ===================================================================== *)
(** ** A concrete browser and concrete documents, for the examples *)
(* ===================================================================== *)

(** Case folding on the characters below 128: [a-z] to [A-Z]. *)
Definition asciiCanonicalize (c : ascii) : ascii :=
  let n := nat_of_ascii c in
  if ((97 <=? n) && (n <=? 122))%nat then ascii_of_nat (n - 32) else c.

(** A layout that stacks the content column: a chapter heading is 100 high,
    a shown unit 200 (its header on top), a hidden unit has no box; the
    viewport is 300 high, the scroll offset is kept inside the range and the
    window can rest on every offset. *)
Definition stackHeight (it : item) : Z :=
  match it with
  | ChapterHeading _ => 100
  | Unit b => if blockShown b then 200 else 0
  end.

Fixpoint stackTop (c : list item) (i : nat) (y : Z) : option Z :=
  match c, i with
  | [], _ => None
  | it :: _, O =>
      match it with
      | ChapterHeading _ => Some y
      | Unit b => if blockShown b then Some y else None
      end
  | it :: c', S i' => stackTop c' i' (y + stackHeight it)
  end.

Definition stackLimit (p : page) : Z :=
  Z.max 0 (foldr (λ it acc, stackHeight it + acc) 0 (content p) - 300).

Definition stackHost : Host :=
  MkHost asciiCanonicalize
         (λ p i, stackTop (content p) i 0)
         stackLimit
         (λ p y, Z.max 0 (Z.min (stackLimit p) y))
         (λ y, y).

(** The same layout in a window that scrolls by whole pixels of 64 layout
    units: a requested offset is rounded to the nearest pixel. *)
Definition pixelHost : Host :=
  MkHost asciiCanonicalize
         (λ p i, stackTop (content p) i 0)
         stackLimit
         (λ p y, Z.max 0 (Z.min (stackLimit p) y))
         (λ y, 64 * ((y + 32) / 64)).

Definition article (id : string) (sources : list string) (body : list node) : item :=
  Unit (Block Article id sources [] "" body).

Definition paragraph (s : string) : node := Elem ["norm"] None [Text s].

(** The state after [render], scrolled to [y]. *)
Definition loadedApp (c : list item) (y : Z) : App :=
  MkApp (Page renderFilters false [] c "") ∅ "" [] (-1) false "" y [].

(** The state in which the click handler calls [updateFilters] after the
    button of [dac] lost its [active] class. *)
Definition afterToggleOff (dac : string) (st : App) : App :=
  withDom (withFilterBtns
             (map (λ b, if bool_decide (btnDac b = dac) then toggleBtn b else b)
                  (filterBtns (dom st)))
             (dom st)) st.

Definition shrinkingDoc : list item :=
  [ChapterHeading "CHAPTER I"; article "a1" ["DAC7"] []; article "a2" ["DAC7"] [];
   article "a3" ["DAC1"] []; article "a4" ["DAC7"] []; article "a5" ["DAC7"] []].

Definition hidingDoc : list item :=
  [ChapterHeading "CHAPTER I"; article "a1" ["DAC1"] []; article "a2" ["DAC7"] [];
   article "a3" ["DAC1"] []].

Definition risingDoc : list item :=
  [ChapterHeading "CHAPTER I"; article "a1" ["DAC7"] []; article "a2" ["DAC1"] [];
   article "a3" ["DAC1"] []; article "a4" ["DAC1"] []].

(** A document in which one article is already filtered out when another
    filter is switched off. *)
Definition staleDoc : list item :=
  [ChapterHeading "CHAPTER I"; article "a1" ["DAC2"] []; article "a2" ["DAC7"] [];
   article "a3" ["DAC1"] []; article "a4" ["DAC1"] []; article "a5" ["DAC1"] []].

Definition twoRatesDoc : list item :=
  [article "a1" ["DAC1"] [paragraph "the rate shall be 10% the rate"]].

(** The value a call returned, or [d] if it did not return. *)
Definition returned {A : Type} (c : completion A) (d : A) : A :=
  match c with
  | Returns v => v
  | _ => d
  end.

(** The state after searching [twoRatesDoc] for "rate". *)
Definition twoRatesFound : App :=
  returned (performSearch stackHost "rate" (loadedApp twoRatesDoc 0)) (loadedApp twoRatesDoc 0).

Definition rateDoc : list item :=
  [ChapterHeading "CHAPTER I";
   article "a1" ["DAC1"] [paragraph "the rate"; paragraph "rate"]].

(* ===================================================================== *)
(** ** Predicates used in the statements *)
(* ===================================================================== *)

(** What the candidate loop returns: the first candidate among those whose
    distance from the viewport top is minimal. *)
Definition closestFirst (host : Host) (p : page) (y : Z) (cands : list nat) (a : Anchor) : Prop :=
  ∃ pre post,
    cands = pre ++ anchorEl a :: post ∧
    anchorViewportY a = rectTop host p y (anchorEl a) ∧
    anchorPageY a = anchorViewportY a + y ∧
    (∀ el, el ∈ pre → Z.abs (anchorViewportY a) < Z.abs (rectTop host p y el)) ∧
    (∀ el, el ∈ post → Z.abs (anchorViewportY a) ≤ Z.abs (rectTop host p y el)).

(** The same among the candidates that have a box: the anchor is the first
    of the displayed headers closest to the viewport top.  Nothing is said
    of candidates without a box. *)
Definition closestShownFirst (host : Host) (p : page) (y : Z) (cands : list nat) (a : Anchor)
  : Prop :=
  ∃ pre post,
    cands = pre ++ anchorEl a :: post ∧
    anchorViewportY a = rectTop host p y (anchorEl a) ∧
    anchorPageY a = anchorViewportY a + y ∧
    (∀ el, el ∈ pre → is_Some (boxTop host p el) →
           Z.abs (anchorViewportY a) < Z.abs (rectTop host p y el)) ∧
    (∀ el, el ∈ post → is_Some (boxTop host p el) →
           Z.abs (anchorViewportY a) ≤ Z.abs (rectTop host p y el)).

(** The nodes [highlightTextNodes] puts in place of a text node: text nodes
    and highlight spans. *)
Inductive fragment : node -> Prop :=
  | fragment_text (s : string) : fragment (Text s)
  | fragment_span (m : string) : fragment (highlightSpan m).

(** [replaced n ns]: [ns] stands where [n] stood after
    [highlightTextNodes]: a text node is kept, or split into fragments that
    spell the same text and hold at least one highlight; an element keeps its
    class list and attribute and has its children replaced in turn. *)
Inductive replaced : node -> list node -> Prop :=
  | replaced_keep (s : string) : replaced (Text s) [Text s]
  | replaced_split (s : string) (ns : list node) :
      Forall fragment ns ->
      strConcat (map textContent ns) = s ->
      existsb isHighlight ns = true ->
      replaced (Text s) ns
  | replaced_elem (c : list string) (d : option string) (kids kids' : list node) :
      replacedList kids kids' ->
      replaced (Elem c d kids) [Elem c d kids']
with replacedList : list node -> list node -> Prop :=
  | replacedList_nil : replacedList [] []
  | replacedList_cons (n : node) (ns l l' : list node) :
      replaced n ns -> replacedList l l' -> replacedList (n :: l) (ns ++ l').

Scheme replaced_mut := Minimality for replaced Sort Prop
  with replacedList_mut := Minimality for replacedList Sort Prop.

(** A body as the HTML parser builds it and as [clearSearch] leaves it:
    normalised (no empty text node, no two text nodes side by side, at any
    depth) and without [.search-highlight] elements. *)
Definition cleanBody (kids : list node) : Prop :=
  mergeText (map normalize kids) = kids ∧ highlightsOfList kids = [].

(** The search state is consistent: the index is [-1] exactly when there is
    no match and otherwise points into the match list; the match list
    enumerates the highlight elements of the document; and a match carries
    the mark [current] exactly when it is the one at the index. *)
Definition searchInv (st : App) : Prop :=
  let hl := pageHighlights (content (dom st)) in
  (currentSearchIndex st = -1 ↔ searchMatches st = []) ∧
  (searchMatches st ≠ [] →
     0 ≤ currentSearchIndex st < Z.of_nat (length (searchMatches st))) ∧
  (searchMatches st ≠ [] → searchMatches st = seq 0 (length hl)) ∧
  (∀ i m c, searchMatches st !! i = Some m → hl !! m = Some c →
     (CURRENT ∈ c ↔ Z.of_nat i = currentSearchIndex st)).

(** The state [performSearch] returns for a term of two or more characters,
    when the loop over the bodies has turned the content column into [c']. *)
Definition foundState (term : string) (st : App) (c' : list item) : App :=
  let st2 := withSearchMatches [] (withSearchTerm term (clearSearch st)) in
  let n := length (pageHighlights c') in
  let st3 := withSearchMatches (seq 0 n)
               (withDom (withResultsCount (foundText n) (withContent c' (dom st2))) st2) in
  if (0 <? n)%nat then showMatch 0 (withCurrentSearchIndex 0 st3) else st3.

(** The index [navigateSearch] moves to, and the content column after its
    first step, in which the old current match has lost its mark. *)
Definition nextIndex (direction : Z) (st : App) : Z :=
  let n := Z.of_nat (length (searchMatches st)) in
  let i1 := currentSearchIndex st + direction in
  let i2 := if n <=? i1 then 0 else i1 in
  if i2 <? 0 then n - 1 else i2.

Definition unmarkedContent (st : App) : list item :=
  let n := Z.of_nat (length (searchMatches st)) in
  let idx := currentSearchIndex st in
  if (0 <=? idx) && (idx <? n) then
    match arrayGet (searchMatches st) idx with
    | Some m => updateMatch (classRemove CURRENT) id m (content (dom st))
    | None => content (dom st)
    end
  else content (dom st).

(** What the loop over the bodies does to an item of the content column. *)
Definition itemReplaced (it it' : item) : Prop :=
  match it, it' with
  | ChapterHeading t, ChapterHeading t' => t = t'
  | Unit b, Unit b' => ∃ kids', b' = withBody kids' b ∧ replacedList (blockBody b) kids'
  | _, _ => False
  end.

(** [body.textContent] of a body element with children [kids]. *)
Definition bodyText (kids : list node) : string := strConcat (map textContent kids).

(** A class-list update that leaves a highlight element a highlight element,
    and a block update that leaves the body alone. *)
Definition keepsHighlight (f : list string -> list string) : Prop :=
  ∀ c, contains c HIGHLIGHT = true → contains (f c) HIGHLIGHT = true.

Definition keepsBody (g : block -> block) : Prop :=
  ∀ b, blockBody (g b) = blockBody b.

(* ===================================================================== *)
(** ** More of the filter bar and the toolbar *)
(* ===================================================================== *)

(** The content units of the content column, in document order. *)
Definition unitsOf (c : list item) : list block :=
  omap (λ it, match it with ChapterHeading _ => None | Unit b => Some b end) c.

(** The [.dac-zone] elements below a node in document order, each with its
    [data-dac] attribute and its class list. *)
Fixpoint zonesOf (n : node) : list (option string * list string) :=
  match n with
  | Text _ => []
  | Elem c d kids =>
      (if contains c "dac-zone" then [(d, c)] else []) ++ concat (map zonesOf kids)
  end.

Definition pageZones (c : list item) : list (option string * list string) :=
  concat (map (λ kids, concat (map zonesOf kids)) (bodiesOf c)).

(** A zone is shown when it does not carry the class [dac-zone-hidden]. *)
Definition zoneShown (z : option string * list string) : bool :=
  negb (contains (snd z) "dac-zone-hidden").

(** The handlers of "Expand all" and "Collapse all":
    [querySelectorAll('.article-block, .annex-block')] with
    [classList.remove('collapsed')] or [classList.add('collapsed')]. *)
Definition mapUnits (g : block -> block) (c : list item) : list item :=
  map (λ it, match it with
             | ChapterHeading t => ChapterHeading t
             | Unit b => Unit (g b)
             end) c.

Definition collapseBlock (b : block) : block :=
  withClasses (classAdd "collapsed" (blockClasses b)) b.

Definition expandAllClick (st : App) : App :=
  withDom (withContent (mapUnits expandBlock (content (dom st))) (dom st)) st.

Definition collapseAllClick (st : App) : App :=
  withDom (withContent (mapUnits collapseBlock (content (dom st))) (dom st)) st.

Definition isCollapsed (b : block) : bool := contains (blockClasses b) "collapsed".

(** The block around the highlight element with ordinal [k]
    ([match.closest('.article-block, .annex-block')]). *)
Fixpoint matchBlock (k : nat) (c : list item) : option block :=
  match c with
  | [] => None
  | ChapterHeading _ :: c' => matchBlock k c'
  | Unit b :: c' =>
      let m := length (highlightsOfList (blockBody b)) in
      if (k <? m)%nat then Some b else matchBlock (k - m)%nat c'
  end.

(** Two class lists that differ at most in the presence of one class. *)
Definition sameClassesBut (name : string) (c c' : list string) : Prop :=
  ∀ x, x ≠ name → contains c' x = contains c x.

(* ===================================================================== *)
(** ** What a search finds: notions for the statements *)
(* ===================================================================== *)

(** Whether the literal occurs in [s], ignoring case. *)
Definition occursIn (canon : ascii -> ascii) (pat s : string) : bool :=
  match searchFrom canon pat s 0 with
  | Some _ => true
  | None => false
  end.

(** The data of the text nodes that lie in no excluded region, in document
    order: the ones on which the walker calls [regex.test]. *)
Fixpoint eligibleTexts (inExcluded : bool) (n : node) : list string :=
  match n with
  | Text s => if inExcluded then [] else [s]
  | Elem c _ kids => concat (map (eligibleTexts (inExcluded || matchesExcluded c)) kids)
  end.

Definition eligibleTextsList (inExcluded : bool) (kids : list node) : list string :=
  concat (map (eligibleTexts inExcluded) kids).

Definition pageEligibleTexts (c : list item) : list string :=
  concat (map (eligibleTextsList false) (bodiesOf c)).

(** The excluded regions below a node: the outermost elements that match
    the excluded selector, as whole subtrees, in document order. *)
Fixpoint excludedRegions (n : node) : list node :=
  match n with
  | Text _ => []
  | Elem c _ kids => if matchesExcluded c then [n] else concat (map excludedRegions kids)
  end.

Definition excludedRegionsList (kids : list node) : list node :=
  concat (map excludedRegions kids).

(** The [textContent] of every [.search-highlight] element, in document
    order. *)
Fixpoint highlightTexts (n : node) : list string :=
  match n with
  | Text _ => []
  | Elem c _ kids =>
      (if contains c HIGHLIGHT then [textContent n] else []) ++ concat (map highlightTexts kids)
  end.

Definition highlightTextsList (kids : list node) : list string :=
  concat (map highlightTexts kids).

Definition pageHighlightTexts (c : list item) : list string :=
  concat (map highlightTextsList (bodiesOf c)).

(** A fragment of a split text node: a text node, or a highlight span around
    a piece of text that equals the literal up to case. *)
Inductive matchFragment (canon : ascii -> ascii) (pat : string) : node -> Prop :=
  | matchFragment_text (s : string) : matchFragment canon pat (Text s)
  | matchFragment_span (m : string) :
      matchHere canon pat m = true -> strLength m = strLength pat ->
      matchFragment canon pat (highlightSpan m).

(** [marked canon pat ex n acc ns]: what [highlightTextNodes] makes of the
    node [n] that lies inside ([ex = true]) or outside an excluded region;
    [acc] tells whether the walker accepted a text node below [n]. *)
Inductive marked (canon : ascii -> ascii) (pat : string)
  : bool -> node -> bool -> list node -> Prop :=
  | marked_skip (s : string) : marked canon pat true (Text s) false [Text s]
  | marked_reject (s : string) : marked canon pat false (Text s) false [Text s]
  | marked_accept (s : string) (ns : list node) :
      Forall (matchFragment canon pat) ns ->
      strConcat (map textContent ns) = s ->
      existsb isHighlight ns = true ->
      marked canon pat false (Text s) true ns
  | marked_elem (ex : bool) (c : list string) (d : option string)
                (kids : list node) (acc : bool) (kids' : list node) :
      markedList canon pat (ex || matchesExcluded c) kids acc kids' ->
      marked canon pat ex (Elem c d kids) acc [Elem c d kids']
with markedList (canon : ascii -> ascii) (pat : string)
  : bool -> list node -> bool -> list node -> Prop :=
  | markedList_nil (ex : bool) : markedList canon pat ex [] false []
  | markedList_cons (ex : bool) (n : node) (a : bool) (ns l : list node)
                    (b : bool) (l' : list node) :
      marked canon pat ex n a ns -> markedList canon pat ex l b l' ->
      markedList canon pat ex (n :: l) (a || b) (ns ++ l').

Scheme marked_mut := Minimality for marked Sort Prop
  with markedList_mut := Minimality for markedList Sort Prop.

(** What the loop over the bodies makes of an item: a body is marked, and a
    text node of it is accepted exactly when the literal occurs in one of
    its eligible text nodes. *)
Definition itemMarked (canon : ascii -> ascii) (pat : string) (it it' : item) : Prop :=
  match it, it' with
  | ChapterHeading t, ChapterHeading t' => t = t'
  | Unit b, Unit b' =>
      ∃ acc kids', b' = withBody kids' b ∧
                   markedList canon pat false (blockBody b) acc kids' ∧
                   (acc = true ↔
                    Exists (λ s, occursIn canon pat s = true)
                           (eligibleTextsList false (blockBody b)))
  | _, _ => False
  end.

Definition pageExcludedRegions (c : list item) : list node :=
  concat (map excludedRegionsList (bodiesOf c)).

(** [m] is the literal up to case: it has the literal's length and the
    regular expression matches it from its first character on. *)
Definition isMatchOf (canon : ascii -> ascii) (pat m : string) : Prop :=
  matchHere canon pat m = true ∧ strLength m = strLength pat.

(** What the filter decides about a unit and what identifies the unit. *)
Definition filterView (b : block) : unitKind * string * list string * string * bool :=
  (blockKind b, blockId b, blockSources b, blockDisplay b, blockShown b).

(** Two states agree on everything the filter owns: the active set and the
    preset flag, the buttons, the table of contents, and, unit by unit, kind,
    id, sources, inline display and whether the unit is shown. *)
Definition sameFilterState (st st' : App) : Prop :=
  activeFilters st' = activeFilters st ∧
  norwayFilterActive st' = norwayFilterActive st ∧
  filterBtns (dom st') = filterBtns (dom st) ∧
  norwayBtnActive (dom st') = norwayBtnActive (dom st) ∧
  tocEntries (dom st') = tocEntries (dom st) ∧
  map filterView (unitsOf (content (dom st'))) = map filterView (unitsOf (content (dom st))).

(** What the filter decides about a zone: its tag and whether it is shown. *)
Definition zoneView (z : option string * list string) : option string * bool :=
  (fst z, zoneShown z).

(* ===================================================================== *)
(** ** escapeRegex *)
(* ===================================================================== *)

(** The characters of the class [[.*+?^${}()|[\]\\]]. *)
Definition BACKSLASH : ascii := Eval cbv in ascii_of_nat 92.

Definition REGEX_SPECIAL : list ascii :=
  ["."%char; "*"%char; "+"%char; "?"%char; "^"%char; "$"%char; "{"%char; "}"%char;
   "("%char; ")"%char; "|"%char; "["%char; "]"%char; BACKSLASH].

Definition isRegexSpecial (c : ascii) : bool := bool_decide (c ∈ REGEX_SPECIAL).

(** [str.replace(/[.*+?^${}()|[\]\\]/g, '\\$&')]: every character of the
    class is replaced by a backslash followed by itself. *)
Fixpoint escapeRegex (str : string) : string :=
  match str with
  | EmptyString => EmptyString
  | String c rest =>
      if isRegexSpecial c then String BACKSLASH (String c (escapeRegex rest))
      else String c (escapeRegex rest)
  end.

(** How the regular-expression engine reads a pattern made of ordinary
    characters and escaped syntax characters: as the string of the
    characters themselves.  Any other pattern ([None]) is not a literal. *)
Fixpoint literalOfPattern (p : string) : option string :=
  match p with
  | EmptyString => Some EmptyString
  | String c p' =>
      if bool_decide (c = BACKSLASH) then
        match p' with
        | EmptyString => None
        | String e p'' =>
            if isRegexSpecial e then String e <$> literalOfPattern p'' else None
        end
      else if isRegexSpecial c then None
      else String c <$> literalOfPattern p'
  end.

(** [new RegExp(pattern, 'gi')] for such a pattern. *)
Definition compileRegExp (pattern : string) : option RegExp :=
  lit ← literalOfPattern pattern; Some (MkRegExp lit 0).

(* ===================================================================== *)
(** ** render *)
(* ===================================================================== *)

(** The document [data] as [renderTOC] and [renderContent] read it: the
    chapters with their sections and articles, and the annexes. *)
Record articleData : Type := ArticleData {
  artId : string;
  artNumber : string;
  artTitle : string;
  artSubtitle : string;
  artSources : list string;
  artContentHtml : string
}.

Record sectionData : Type := SectionData {
  secTitle : string;
  secSubtitle : string;
  secArticles : list articleData
}.

Record chapterData : Type := ChapterData {
  chId : string;
  chTitle : string;
  chSubtitle : string;
  chSections : list sectionData;
  chArticles : list articleData
}.

Record annexData : Type := AnnexData {
  anxId : string;
  anxNumber : string;
  anxTitle : string;
  anxSubtitle : string;
  anxDac : string;
  anxSources : list string;
  anxContentHtml : string
}.

Record docData : Type := DocData {
  dataChapters : list chapterData;
  dataAnnexes : list annexData
}.

(** [createTocArticle]: the link carries class [toc-article] and
    [data-sources].  As in [tocEntry], the number, the badges and the
    subtitle inside the link, which the program never reads again, are not
    kept. *)
Definition createTocArticle (article : articleData) : tocEntry :=
  TocEntry (artSources article) ["toc-article"].

(** [renderTOC], as the list of the [.toc-article] and [.toc-annex] links
    it appends, in document order: per chapter the links of the articles of
    its sections, then those of its direct articles; after the chapters,
    when there is an annex, one [toc-annex] link per annex.  (The chapter,
    section and "ANNEXES" titles between the links are not links.) *)
Definition renderTOC (data : docData) : list tocEntry :=
  concat (map (λ chapter,
                 concat (map (λ section, map createTocArticle (secArticles section))
                             (chSections chapter))
                 ++ map createTocArticle (chArticles chapter))
              (dataChapters data))
  ++ (if (0 <? length (dataAnnexes data))%nat
      then map (λ annex, TocEntry (anxSources annex) ["toc-annex"]) (dataAnnexes data)
      else []).

(** [createArticleBlock] and [createAnnexBlock], as a [block]: the kind
    stands for the classes [article-block] and [annex-block], which are
    also in the class list; [parse] is the HTML parser behind
    [body.innerHTML = contentHtml].  An annex block starts collapsed.  (The
    header with title and badges has no state of its own; the attribute
    [data-primary-dac], which is [lowestDac(article.sources)] for an article,
    is read by the style sheet only.  Neither is kept.) *)
Definition createArticleBlock (parse : string -> list node) (article : articleData) : block :=
  Block Article (artId article) (artSources article) ["article-block"] ""
        (parse (artContentHtml article)).

Definition createAnnexBlock (parse : string -> list node) (annex : annexData) : block :=
  Block Annex ("annex-" +:+ anxId annex) (anxSources annex)
        (classAdd "collapsed" ["annex-block"]) "" (parse (anxContentHtml annex)).

(** [renderContent], as the content column of [page]: per chapter its
    heading, the blocks of the articles of its sections and the blocks of
    its direct articles; after the chapters the annex blocks.  (The
    disclaimer, the legend, the subtitles, the section headings and the
    footnote section are neither units nor anchors and hold no body.) *)
Definition renderContent (parse : string -> list node) (data : docData) : list item :=
  concat (map (λ chapter,
                 ChapterHeading (chTitle chapter)
                 :: concat (map (λ section,
                                   map (λ article, Unit (createArticleBlock parse article))
                                       (secArticles section))
                                (chSections chapter))
                 ++ map (λ article, Unit (createArticleBlock parse article))
                        (chArticles chapter))
              (dataChapters data))
  ++ map (λ annex, Unit (createAnnexBlock parse annex)) (dataAnnexes data).

(** The state after [render()], scrolled to [y]. *)
Definition render (parse : string -> list node) (data : docData) (y : Z) : App :=
  let st := loadedApp (renderContent parse data) y in
  withDom (withTocEntries (renderTOC data) (dom st)) st.

(** A small document: one chapter with a section of one article and one
    direct article, and one annex. *)
Definition sampleData : docData :=
  DocData
    [ChapterData "I" "CHAPTER I" "GENERAL PROVISIONS"
       [SectionData "SECTION I" "Scope"
          [ArticleData "art_1" "1" "Article 1" "Subject matter" ["DAC1"; "DAC7"] "the rate"]]
       [ArticleData "art_2" "2" "Article 2" "" ["DAC6"] "a rate"]]
    [AnnexData "I" "I" "ANNEX I" "Reporting rules" "DAC2" ["DAC2"] "due diligence"].

(** Markup-free HTML parses to one text node. *)
Definition plainParse (html : string) : list node :=
  if strIsEmpty html then [] else [Text html].

(** The table of contents is in step with the content column: its links
    correspond one by one, in order, to the units, with the same sources,
    and a link is shown exactly when its unit is shown. *)
Definition tocMirrors (st : App) : Prop :=
  Forall2 (λ e b, tocSources e = blockSources b ∧ tocShown e = blockShown b)
          (tocEntries (dom st)) (unitsOf (content (dom st))).

(** Two items of the content column with the same body: two chapter
    headings, or two units whose body elements have the same children. *)
Definition sameBodyItem (it it' : item) : Prop :=
  match it, it' with
  | ChapterHeading _, ChapterHeading _ => True
  | Unit b, Unit b' => blockBody b = blockBody b'
  | _, _ => False
  end.

(* ===================================================================== *)
(** ** updateActiveTocItem *)
(* ===================================================================== *)

(** A [.toc-article] link: its [href] attribute and its class list. *)
Record tocLink : Type := TocLink { linkHref : string; linkClasses : list string }.

(** The [articles.forEach] loop over the [.article-block] elements in
    document order, each given by its [id] and its [offsetTop]; [None] is
    [null]. *)
Definition currentArticleId (articles : list (string * Z)) (scrollY : Z) : option string :=
  let scrollTop := scrollY + 100 in
  foldl (λ currentId art, if snd art <=? scrollTop then Some (fst art) else currentId)
        None articles.

(** The template literal [`#${currentId}`]. *)
Definition currentHref (currentId : option string) : string :=
  "#" +:+ match currentId with Some id => id | None => "null" end.

Definition updateActiveTocItem (articles : list (string * Z)) (scrollY : Z)
  (links : list tocLink) : list tocLink :=
  let currentId := currentArticleId articles scrollY in
  map (λ a, TocLink (linkHref a)
                    (classToggleForce "active"
                       (bool_decide (linkHref a = currentHref currentId))
                       (linkClasses a)))
      links.

(** A fragment of a text node that was split with nothing left over: a
    text node in which the literal does not occur, or a highlight span
    around a piece of text that is the literal up to case. *)
Inductive exactFragment (canon : ascii -> ascii) (pat : string) : node -> Prop :=
  | exactFragment_text (s : string) :
      occursIn canon pat s = false -> exactFragment canon pat (Text s)
  | exactFragment_span (m : string) :
      isMatchOf canon pat m -> exactFragment canon pat (highlightSpan m).

(* ===================================================================== *)
(** ** setupFootnoteTooltips: the footnote lookup *)
(* ===================================================================== *)

(** [fnMap], filled by [data.footnotes.forEach(fn => fnMap[fn.id] = fn.text)];
    a footnote is given by its id and its text.  (The keys looked up below
    start with [E]; no property an object inherits has such a name.) *)
Definition buildFnMap (footnotes : list (string * string)) : gmap string string :=
  foldl (λ fnMap fn, <[fst fn := snd fn]> fnMap) ∅ footnotes.

(** [href.replace('#', '')]: the first [#] is removed. *)
Fixpoint replaceFirstHash (href : string) : string :=
  match href with
  | EmptyString => EmptyString
  | String c rest =>
      if bool_decide (c = "#"%char) then rest else String c (replaceFirstHash rest)
  end.

(** [s] starts with [p], as the attribute selector [[href^=...]] tests it. *)
Fixpoint startsWith (p s : string) : bool :=
  match p, s with
  | EmptyString, _ => true
  | String _ _, EmptyString => false
  | String a p', String b s' => bool_decide (a = b) && startsWith p' s'
  end.

(** The text the tooltip shows when the pointer enters a link of a body with
    the given [href]; [None] when the link gets no listener: [data.footnotes]
    is missing, the link does not match [a[href^="#E"]], or [fnMap] holds no
    text (or the empty text) for it. *)
Definition footnoteTooltip (footnotes : option (list (string * string))) (href : string)
  : option string :=
  match footnotes with
  | None => None
  | Some fns =>
      if startsWith "#E" href then
        match buildFnMap fns !! replaceFirstHash href with
        | Some fnText => if strIsEmpty fnText then None else Some fnText
        | None => None
        end
      else None
  end.

(* ===================================================================== *)
(** ** setupFootnoteTooltips: where the tooltip is put *)
(* ===================================================================== *)

(** The [mouseenter] handler computes [left] and [top] of the tooltip from
    the rectangle of the link ([rect]), the size of the tooltip
    ([tooltipRect]) and [window.innerWidth].  Lengths are rational numbers
    of CSS pixels; the rounding of floating-point arithmetic is not
    modelled. *)
Definition tooltipPosition (rectLeft rectTop rectWidth rectBottom : Q)
  (tooltipWidth tooltipHeight innerWidth : Q) : Q * Q :=
  let left := (rectLeft + rectWidth / 2 - tooltipWidth / 2)%Q in
  let top := (rectTop - tooltipHeight - 8)%Q in
  let left := if Qlt_le_dec left 8 then 8%Q else left in
  let left := if Qlt_le_dec (innerWidth - 8) (left + tooltipWidth)
              then (innerWidth - tooltipWidth - 8)%Q else left in
  let top := if Qlt_le_dec top 8 then (rectBottom + 8)%Q else top in
  (left, top).

(* ===================================================================== *)
(** ** Which text nodes the walk accepts: notions for the statement *)
(* ===================================================================== *)

(** The text nodes below a node in document order, each with its data and
    with whether it lies outside every excluded region. *)
Fixpoint textNodesOf (inExcluded : bool) (n : node) : list (bool * string) :=
  match n with
  | Text s => [(negb inExcluded, s)]
  | Elem c _ kids => concat (map (textNodesOf (inExcluded || matchesExcluded c)) kids)
  end.

Definition textNodesOfList (inExcluded : bool) (kids : list node) : list (bool * string) :=
  concat (map (textNodesOf inExcluded) kids).

(** Whether the last text node outside the excluded regions was accepted,
    after a run of text nodes with their verdicts; [prev] when there was
    none. *)
Definition lastVerdict (prev : bool) (run : list (bool * string * bool)) : bool :=
  foldl (λ (p : bool) (e : bool * string * bool), if fst (fst e) then snd e else p) prev run.

(** [verdicts canon pat prev run]: the verdicts of the walk on a run of text
    nodes are sound, and complete but for one case.  A text node in an
    excluded region is rejected; an accepted text node contains the literal;
    and a rejected text node contains the literal only if the text node
    tested just before it was accepted ([prev] tells whether that holds at
    the start). *)
Inductive verdicts (canon : ascii -> ascii) (pat : string)
  : bool -> list (bool * string * bool) -> Prop :=
  | verdicts_nil (prev : bool) : verdicts canon pat prev []
  | verdicts_excluded (prev : bool) (s : string) (run : list (bool * string * bool)) :
      verdicts canon pat prev run ->
      verdicts canon pat prev ((false, s, false) :: run)
  | verdicts_accepted (prev : bool) (s : string) (run : list (bool * string * bool)) :
      occursIn canon pat s = true ->
      verdicts canon pat true run ->
      verdicts canon pat prev ((true, s, true) :: run)
  | verdicts_rejected (prev : bool) (s : string) (run : list (bool * string * bool)) :
      (occursIn canon pat s = true -> prev = true) ->
      verdicts canon pat false run ->
      verdicts canon pat prev ((true, s, false) :: run).

(* ===================================================================== *)
(** ** Theorems *)
(* ===================================================================== *)

(** *** The provenance resolver *)

Example lowestDac_L4_L2 : lowestDac (Some ["DAC4"; "DAC2"]) = Returns (JString "DAC2").
Proof. reflexivity. Qed.

Example lowestDac_covid_first : lowestDac (Some ["COVID"; "DAC1"]) = Returns (JString "DAC1").
Proof. reflexivity. Qed.

Example lowestDac_covid_dac7 :
  lowestDac (Some ["DAC7"; "COVID"; "Corrigendum"]) = Returns (JString "COVID").
Proof. reflexivity. Qed.

Lemma indexOf_range l x : indexOf l x = -1 ∨ 0 ≤ indexOf l x < Z.of_nat (length l).
Proof.
  induction l as [|y l IH]; simpl; [by left|].
  destruct (decide (y = x)); [right; lia|].
  destruct (Z.eqb_spec (indexOf l x) (-1)); [by left|right; lia].
Qed.

Lemma indexOf_lookup l x :
  indexOf l x ≠ -1 → l !! Z.to_nat (indexOf l x) = Some x.
Proof.
  induction l as [|y l IH]; simpl; [done|].
  destruct (decide (y = x)) as [->|Hne]; [done|].
  destruct (Z.eqb_spec (indexOf l x) (-1)) as [|Hi]; [done|]. intros _.
  destruct (indexOf_range l x) as [|Hr]; [done|].
  replace (Z.to_nat (indexOf l x + 1)) with (S (Z.to_nat (indexOf l x))) by lia.
  by apply IH.
Qed.

Lemma indexOf_elem l x : x ∈ l → indexOf l x ≠ -1.
Proof.
  induction 1 as [|y z l Hin IH]; simpl.
  - by rewrite decide_True.
  - destruct (decide (z = y)); [done|].
    destruct (Z.eqb_spec (indexOf l y) (-1)); [done|].
    pose proof (indexOf_range l y). lia.
Qed.

Lemma dacRank_catalog a : a ∈ DAC_ORDER → 0 ≤ dacRank a < 8.
Proof.
  intros Hin. unfold dacRank.
  pose proof (indexOf_elem _ _ Hin) as Hne.
  destruct (indexOf_range DAC_ORDER a) as [|Hr]; [done|].
  destruct (Z.eqb_spec (indexOf DAC_ORDER a) (-1)); [done|].
  change (Z.of_nat (length DAC_ORDER)) with 8 in Hr. lia.
Qed.

Lemma dacRank_unknown a : a ∉ DAC_ORDER → dacRank a = 999.
Proof.
  intros Hnin. unfold dacRank.
  destruct (Z.eqb_spec (indexOf DAC_ORDER a) (-1)) as [|Hne]; [done|].
  exfalso. apply Hnin. apply list_elem_of_lookup.
  eexists. by apply indexOf_lookup.
Qed.

Lemma dacRank_below_999 a : dacRank a < 999 → a ∈ DAC_ORDER.
Proof.
  intros Hlt. destruct (decide (a ∈ DAC_ORDER)) as [|Hn]; [done|].
  rewrite (dacRank_unknown _ Hn) in Hlt. lia.
Qed.

(** Two tags with the same rank below 999 are the same tag. *)
Lemma dacRank_inj a b : a ∈ DAC_ORDER → dacRank a = dacRank b → a = b.
Proof.
  intros Ha Heq. pose proof (dacRank_catalog _ Ha) as Hra.
  assert (Hb : b ∈ DAC_ORDER) by (apply dacRank_below_999; lia).
  pose proof (indexOf_elem _ _ Ha) as Hna. pose proof (indexOf_elem _ _ Hb) as Hnb.
  pose proof (indexOf_lookup _ _ Hna) as Hla. pose proof (indexOf_lookup _ _ Hnb) as Hlb.
  unfold dacRank in Heq.
  destruct (Z.eqb_spec (indexOf DAC_ORDER a) (-1)); [done|].
  destruct (Z.eqb_spec (indexOf DAC_ORDER b) (-1)); [done|].
  rewrite Heq in Hla. congruence.
Qed.

Lemma sortInsert_head {A} (cmp : A → A → Z) x l :
  head (sortInsert cmp x l) =
  Some (match head l with
        | Some y => if 0 <? cmp x y then y else x
        | None => x
        end).
Proof. destruct l as [|y l]; simpl; [done|]. by destruct (0 <? cmp x y). Qed.

(** The head of the sorted array is an element of minimal rank. *)
Lemma arraySort_head_min l r :
  head (arraySort compareDac l) = Some r →
  r ∈ l ∧ ∀ u, u ∈ l → dacRank r ≤ dacRank u.
Proof.
  revert r. induction l as [|x l IH]; intros r; simpl; [done|].
  rewrite sortInsert_head. destruct (head (arraySort compareDac l)) as [y|] eqn:Hh.
  - destruct (IH y eq_refl) as [Hy Hmin]. unfold compareDac.
    destruct (Z.ltb_spec 0 (dacRank x - dacRank y)); intros [= <-].
    + split; [by right|]. intros u [->|Hu]%elem_of_cons; [lia|by apply Hmin].
    + split; [by left|]. intros u [->|Hu]%elem_of_cons; [lia|].
      specialize (Hmin u Hu). lia.
  - intros [= <-]. destruct l as [|z l]; [|simpl in Hh; by rewrite sortInsert_head in Hh].
    split; [by left|]. intros u [->|Hu]%elem_of_cons; [lia|]. by apply elem_of_nil in Hu.
Qed.

Lemma arraySort_head_some l : l ≠ [] → ∃ r, head (arraySort compareDac l) = Some r.
Proof. destruct l as [|x l]; [done|]. intros _. simpl. rewrite sortInsert_head. eauto. Qed.

Lemma lowestDac_head l r :
  head (arraySort compareDac l) = Some r → lowestDac (Some l) = Returns (JString r).
Proof.
  destruct l as [|x l]; [done|]. unfold lowestDac.
  destruct (arraySort compareDac (x :: l)); [done|]. by intros [= ->].
Qed.

(** When no tag of the set is in the catalog, every comparison ties and the
    stable sort leaves the first tag of the input in front. *)
Lemma lowestDac_unknown_first x l :
  (∀ u, u ∈ x :: l → u ∉ DAC_ORDER) → lowestDac (Some (x :: l)) = Returns (JString x).
Proof.
  intros Hun. apply lowestDac_head. simpl. rewrite sortInsert_head.
  destruct (head (arraySort compareDac l)) as [y|] eqn:Hh; [|done].
  destruct (arraySort_head_min _ _ Hh) as [Hy _]. unfold compareDac.
  rewrite (dacRank_unknown x), (dacRank_unknown y); [done| |]; apply Hun; [by right|by left].
Qed.

(** C2, as amended: on a provenance set holding at least one catalog tag the
    resolver returns a tag of the set that is in the catalog and has the
    lowest catalog position, every other tag of the set ranks strictly
    after it, and every reordering of the set gives the same result. *)
Theorem lowestDac_catalog_minimum (l : list string) (t : string) :
  t ∈ l → t ∈ DAC_ORDER →
  ∃ r, lowestDac (Some l) = Returns (JString r) ∧
       r ∈ l ∧ r ∈ DAC_ORDER ∧
       (∀ u, u ∈ l → dacRank r ≤ dacRank u) ∧
       (∀ u, u ∈ l → u ≠ r → dacRank r < dacRank u) ∧
       (∀ l', l ≡ₚ l' → lowestDac (Some l') = Returns (JString r)).
Proof.
  intros Htl Htc.
  assert (Hne : l ≠ []) by (intros ->; by apply elem_of_nil in Htl).
  destruct (arraySort_head_some l Hne) as [r Hr].
  destruct (arraySort_head_min _ _ Hr) as [Hrl Hmin].
  pose proof (dacRank_catalog _ Htc) as Hrt. pose proof (Hmin t Htl) as Hle.
  assert (Hrc : r ∈ DAC_ORDER) by (apply dacRank_below_999; lia).
  exists r. split; [by apply lowestDac_head|]. do 3 (split; [done|]). split.
  - intros u Hu Hur. specialize (Hmin u Hu).
    destruct (decide (dacRank r = dacRank u)) as [Heq|]; [|lia].
    exfalso. apply Hur. symmetry. by apply dacRank_inj.
  - intros l' Hperm.
    assert (Hne' : l' ≠ []).
    { intros ->. by apply Permutation_nil_r in Hperm. }
    destruct (arraySort_head_some l' Hne') as [r' Hr'].
    destruct (arraySort_head_min _ _ Hr') as [Hrl' Hmin'].
    rewrite (lowestDac_head _ _ Hr'). do 2 f_equal.
    assert (dacRank r' ≤ dacRank r) by (apply Hmin'; by rewrite <- Hperm).
    assert (dacRank r ≤ dacRank r') by (apply Hmin; by rewrite Hperm).
    symmetry. apply dacRank_inj; [done|lia].
Qed.

(** An instance: a set with an unknown tag, [DAC7] and [COVID]. *)
Lemma lowestDac_catalog_minimum_witness :
  ∃ r, lowestDac (Some ["Corrigendum"; "DAC7"; "COVID"]) = Returns (JString r) ∧
       r ∈ ["Corrigendum"; "DAC7"; "COVID"] ∧ r ∈ DAC_ORDER ∧
       (∀ u, u ∈ ["Corrigendum"; "DAC7"; "COVID"] → dacRank r ≤ dacRank u) ∧
       (∀ u, u ∈ ["Corrigendum"; "DAC7"; "COVID"] → u ≠ r → dacRank r < dacRank u) ∧
       (∀ l', ["Corrigendum"; "DAC7"; "COVID"] ≡ₚ l' →
              lowestDac (Some l') = Returns (JString r)).
Proof.
  apply (lowestDac_catalog_minimum ["Corrigendum"; "DAC7"; "COVID"] "COVID").
  - apply (bool_decide_unpack _). vm_compute. exact I.
  - apply (bool_decide_unpack _). vm_compute. exact I.
Defined.

(** C2 as stated fails: two orderings of a set of tags that are all outside
    the catalog resolve to different tags. *)
Lemma lowestDac_order_dependent :
  ["Corrigendum"; "Erratum"] ≡ₚ ["Erratum"; "Corrigendum"] ∧
  lowestDac (Some ["Corrigendum"; "Erratum"]) = Returns (JString "Corrigendum") ∧
  lowestDac (Some ["Erratum"; "Corrigendum"]) = Returns (JString "Erratum") ∧
  ¬ (∀ l l' : list string, l ≠ [] → l ≡ₚ l' → lowestDac (Some l) = lowestDac (Some l')).
Proof.
  split; [apply perm_swap|]. split; [reflexivity|]. split; [reflexivity|].
  intros H. specialize (H ["Corrigendum"; "Erratum"] ["Erratum"; "Corrigendum"]).
  discriminate H; [done|apply perm_swap].
Qed.

(** C5, as amended: on an empty or missing provenance set the resolver
    returns the default tag [DAC1]; no call of it ends in an exception. *)
Theorem lowestDac_empty_defaults :
  lowestDac (Some []) = Returns (JString "DAC1") ∧
  lowestDac None = Returns (JString "DAC1") ∧
  ∀ sources, ∃ v, lowestDac sources = Returns v.
Proof.
  split; [done|]. split; [done|].
  intros [[|x l]|]; simpl; eauto.
Qed.

(** C5 as stated fails: the empty set is answered with [DAC1], not with a
    [DataIntegrityError]. *)
Lemma lowestDac_empty_no_error :
  lowestDac (Some []) = Returns (JString "DAC1") ∧
  lowestDac (Some []) ≠ Throws "DataIntegrityError".
Proof. split; [reflexivity|discriminate]. Qed.

(** *** The filter predicate *)

Lemma contains_spec c name : contains c name = true ↔ name ∈ c.
Proof. unfold contains. apply bool_decide_eq_true. Qed.

Lemma contains_classAdd name c x :
  contains (classAdd name c) x = contains c x || bool_decide (x = name).
Proof.
  unfold classAdd. destruct (contains c name) eqn:Hc.
  - apply contains_spec in Hc. unfold contains.
    destruct (decide (x = name)) as [->|Hne].
    + rewrite !bool_decide_eq_true_2; done.
    + rewrite (bool_decide_eq_false_2 (x = name)); [by rewrite orb_false_r|done].
  - unfold contains. apply eq_true_iff_eq.
    rewrite orb_true_iff, !bool_decide_eq_true, elem_of_app, list_elem_of_singleton. done.
Qed.

Lemma contains_classRemove name c x :
  contains (classRemove name c) x = contains c x && negb (bool_decide (x = name)).
Proof.
  unfold classRemove, contains. apply eq_true_iff_eq.
  rewrite andb_true_iff, negb_true_iff, !bool_decide_eq_true, bool_decide_eq_false.
  rewrite list_elem_of_filter. tauto.
Qed.

Lemma contains_classToggleForce name force c :
  contains (classToggleForce name force c) name = force.
Proof.
  destruct force; simpl.
  - rewrite contains_classAdd, bool_decide_eq_true_2; [apply orb_true_r|done].
  - rewrite contains_classRemove, bool_decide_eq_true_2; [apply andb_false_r|done].
Qed.

Lemma unitVisible_spec allActive af sources :
  unitVisible allActive af sources = true ↔
  allActive = true ∨ ∃ s, s ∈ sources ∧ s ∈ af.
Proof.
  unfold unitVisible. rewrite orb_true_iff, existsb_exists.
  setoid_rewrite bool_decide_eq_true. setoid_rewrite list_elem_of_In. done.
Qed.

Lemma readActiveFilters_spec p t :
  t ∈ readActiveFilters p ↔ ∃ b, b ∈ filterBtns p ∧ btnActive b = true ∧ btnDac b = t.
Proof.
  unfold readActiveFilters. rewrite elem_of_list_to_set, list_elem_of_In, in_map_iff.
  setoid_rewrite filter_In. setoid_rewrite list_elem_of_In.
  split; [intros (b & <- & Hb & Ha)|intros (b & Hb & Ha & <-)]; eauto.
Qed.

(** The buttons are the ones [renderFilters] made (the handlers only toggle
    their [active] class), so [activeFilters.size === ALL_DACS.length] says
    that every catalog tag is active. *)
Lemma allActive_spec p :
  map btnDac (filterBtns p) = ALL_DACS →
  size (readActiveFilters p) = length ALL_DACS ↔
  ∀ t, t ∈ ALL_DACS → t ∈ readActiveFilters p.
Proof.
  intros Hwf.
  assert (Hsub : readActiveFilters p ⊆ list_to_set ALL_DACS).
  { intros t (b & Hb & _ & <-)%readActiveFilters_spec.
    apply elem_of_list_to_set. rewrite <- Hwf. apply list_elem_of_In, in_map.
    by apply list_elem_of_In. }
  assert (Hsize : size (list_to_set ALL_DACS : gset string) = length ALL_DACS).
  { apply size_list_to_set. apply (bool_decide_unpack _). by vm_compute. }
  split.
  - intros Hs t Ht.
    assert (Heq : readActiveFilters p = list_to_set ALL_DACS).
    { apply set_subseteq_size_eq; [done|]. rewrite Hs, Hsize. done. }
    rewrite Heq. by apply elem_of_list_to_set.
  - intros Hall.
    assert (Heq : readActiveFilters p = list_to_set ALL_DACS).
    { apply set_eq. intros t. split; [apply Hsub|].
      intros Ht%elem_of_list_to_set. by apply Hall. }
    by rewrite Heq.
Qed.

Lemma updateFilters_activeFilters host st :
  activeFilters (updateFilters host st) = readActiveFilters (dom st).
Proof. unfold updateFilters. by destruct (pickAnchor _ _ _ _ _ _). Qed.

Lemma updateFilters_dom host st :
  dom (updateFilters host st) =
  let af := readActiveFilters (dom st) in
  let allActive := bool_decide (size af = length ALL_DACS) in
  withTocEntries (map (filterToc allActive af) (tocEntries (dom st)))
    (withContent (map (filterItem allActive af) (content (dom st))) (dom st)).
Proof.
  unfold updateFilters. destruct (pickAnchor _ _ _ _ _ _); [|done].
  unfold scrollTo. simpl. by case_bool_decide.
Qed.

Lemma filterItem_shown allActive af b :
  ∃ b', filterItem allActive af (Unit b) = Unit b' ∧
        blockSources b' = blockSources b ∧ blockKind b' = blockKind b ∧
        blockId b' = blockId b ∧
        blockShown b' = unitVisible allActive af (blockSources b).
Proof.
  unfold filterItem. destruct (blockKind b) eqn:Hk; eexists; (split; [done|]);
    unfold blockShown; simpl; rewrite Hk; (do 3 (split; [done|])).
  - by rewrite contains_classToggleForce, negb_involutive.
  - by destruct (unitVisible allActive af (blockSources b)).
Qed.

(** The shape of the filter bar is an invariant: [renderFilters] makes one
    button per catalog tag and every handler only changes [active] flags. *)
Lemma renderFilters_tags : map btnDac renderFilters = ALL_DACS.
Proof. reflexivity. Qed.

Lemma updateFilters_filterBtns host st :
  filterBtns (dom (updateFilters host st)) = filterBtns (dom st).
Proof. by rewrite updateFilters_dom. Qed.

Lemma handlers_keep_tags host st :
  map btnDac (filterBtns (dom st)) = ALL_DACS →
  (∀ i, map btnDac (filterBtns (dom (filterClick host i st))) = ALL_DACS) ∧
  map btnDac (filterBtns (dom (showAllClick host st))) = ALL_DACS ∧
  map btnDac (filterBtns (dom (norwayClick host st))) = ALL_DACS.
Proof.
  intros Hwf. split; [|split].
  - intros i. unfold filterClick. rewrite updateFilters_filterBtns. simpl.
    rewrite <- Hwf. clear Hwf. revert i.
    induction (filterBtns (dom st)) as [|b l IH]; intros [|i]; try done.
    change (alter toggleBtn (S i) (b :: l)) with (b :: alter toggleBtn i l).
    simpl. by rewrite IH.
  - unfold showAllClick. rewrite updateFilters_filterBtns. simpl.
    by rewrite map_map.
  - unfold norwayClick. destruct (norwayFilterActive st);
      rewrite updateFilters_filterBtns; simpl; by rewrite map_map.
Qed.

(** C1: after [updateFilters], the active set is the set of tags whose
    button is active, and a content unit (article or annex) is shown exactly
    when one of its sources is in the active set or every catalog tag is
    active; with every catalog tag active every unit is shown, whatever its
    sources are.  The navigation entries follow the same predicate. *)
Theorem updateFilters_visibility (host : Host) (st : App) :
  map btnDac (filterBtns (dom st)) = ALL_DACS →
  let st' := updateFilters host st in
  let active := activeFilters st' in
  (∀ t, t ∈ active ↔ ∃ b, b ∈ filterBtns (dom st) ∧ btnActive b = true ∧ btnDac b = t) ∧
  (∀ i b, content (dom st) !! i = Some (Unit b) →
     ∃ b', content (dom st') !! i = Some (Unit b') ∧
           blockSources b' = blockSources b ∧ blockKind b' = blockKind b ∧
           blockId b' = blockId b ∧
           (blockShown b' = true ↔
            (∃ s, s ∈ blockSources b ∧ s ∈ active) ∨ (∀ t, t ∈ ALL_DACS → t ∈ active)) ∧
           ((∀ t, t ∈ ALL_DACS → t ∈ active) → blockShown b' = true)) ∧
  (∀ i e, tocEntries (dom st) !! i = Some e →
     ∃ e', tocEntries (dom st') !! i = Some e' ∧ tocSources e' = tocSources e ∧
           (tocShown e' = true ↔
            (∃ s, s ∈ tocSources e ∧ s ∈ active) ∨ (∀ t, t ∈ ALL_DACS → t ∈ active))).
Proof.
  intros Hwf st' active. subst st' active.
  rewrite updateFilters_activeFilters, updateFilters_dom. simpl.
  pose proof (allActive_spec _ Hwf) as Hall.
  set (af := readActiveFilters (dom st)) in *.
  set (allActive := bool_decide (size af = length ALL_DACS)).
  assert (Hvis : ∀ sources, unitVisible allActive af sources = true ↔
            (∃ s, s ∈ sources ∧ s ∈ af) ∨ (∀ t, t ∈ ALL_DACS → t ∈ af)).
  { intros sources. rewrite unitVisible_spec. unfold allActive.
    rewrite bool_decide_eq_true, Hall. tauto. }
  split; [intros t; apply readActiveFilters_spec|]. split.
  - intros i b Hi.
    destruct (filterItem_shown allActive af b) as (b' & Hb' & Hs & Hk & Hid & Hshown).
    exists b'. rewrite list_lookup_fmap, Hi.
    split; [exact (f_equal Some Hb')|]. do 3 (split; [done|]). rewrite Hshown. split; [apply Hvis|].
    intros Hfull. apply Hvis. by right.
  - intros i e Hi. eexists. rewrite list_lookup_fmap, Hi. simpl.
    split; [done|]. split; [done|].
    unfold tocShown, filterToc. simpl.
    rewrite contains_classToggleForce, negb_involutive. apply Hvis.
Qed.

(** An instance: the filter bar after [DAC7] was switched off. *)
Lemma updateFilters_visibility_witness :
  let st := afterToggleOff "DAC7" (loadedApp shrinkingDoc 0) in
  let st' := updateFilters stackHost st in
  let active := activeFilters st' in
  (∀ t, t ∈ active ↔ ∃ b, b ∈ filterBtns (dom st) ∧ btnActive b = true ∧ btnDac b = t) ∧
  (∀ i b, content (dom st) !! i = Some (Unit b) →
     ∃ b', content (dom st') !! i = Some (Unit b') ∧
           blockSources b' = blockSources b ∧ blockKind b' = blockKind b ∧
           blockId b' = blockId b ∧
           (blockShown b' = true ↔
            (∃ s, s ∈ blockSources b ∧ s ∈ active) ∨ (∀ t, t ∈ ALL_DACS → t ∈ active)) ∧
           ((∀ t, t ∈ ALL_DACS → t ∈ active) → blockShown b' = true)) ∧
  (∀ i e, tocEntries (dom st) !! i = Some e →
     ∃ e', tocEntries (dom st') !! i = Some e' ∧ tocSources e' = tocSources e ∧
           (tocShown e' = true ↔
            (∃ s, s ∈ tocSources e ∧ s ∈ active) ∨ (∀ t, t ∈ ALL_DACS → t ∈ active))).
Proof.
  apply (updateFilters_visibility stackHost (afterToggleOff "DAC7" (loadedApp shrinkingDoc 0))).
  vm_compute. reflexivity.
Defined.

(** The example of the spec: units tagged [{L1}], [{L2}], [{L1, L2}] under
    the active filter [{L2}]. *)
Example updateFilters_three_units :
  let st := loadedApp [article "u1" ["DAC1"] []; article "u2" ["DAC2"] [];
                       article "u3" ["DAC1"; "DAC2"] []] 0 in
  let only2 := withDom (withFilterBtns
                 (map (λ b, Button (btnDac b) (bool_decide (btnDac b = "DAC2")))
                      (filterBtns (dom st))) (dom st)) st in
  omap (λ it, match it with Unit b => Some (blockShown b) | _ => None end)
       (content (dom (updateFilters stackHost only2))) = [false; true; true].
Proof. vm_compute. reflexivity. Qed.

(** *** The scroll anchor *)

Lemma closestFirst_le host p y cands a el :
  closestFirst host p y cands a → el ∈ cands →
  Z.abs (anchorViewportY a) ≤ Z.abs (rectTop host p y el).
Proof.
  intros (pre & post & -> & Hvp & _ & Hpre & Hpost).
  rewrite elem_of_app, elem_of_cons. intros [Hin|[->|Hin]].
  - specialize (Hpre _ Hin). lia.
  - rewrite Hvp. lia.
  - by apply Hpost.
Qed.

Lemma pickAnchor_loop host p y cands : ∀ seen best anchor,
  match anchor with
  | None => best = None ∧ seen = []
  | Some a => best = Some (Z.abs (anchorViewportY a)) ∧ closestFirst host p y seen a
  end →
  match pickAnchor host p y cands best anchor with
  | None => seen ++ cands = []
  | Some a => closestFirst host p y (seen ++ cands) a
  end.
Proof.
  induction cands as [|el cands IH]; intros seen best anchor Hinv; simpl.
  - rewrite app_nil_r. destruct anchor as [a|]; [by destruct Hinv|by destruct Hinv as [_ ->]].
  - replace (seen ++ el :: cands) with ((seen ++ [el]) ++ cands)
      by (by rewrite <- app_assoc).
    destruct anchor as [a|].
    + destruct Hinv as [-> Ha].
      destruct (Z.ltb_spec (Z.abs (rectTop host p y el)) (Z.abs (anchorViewportY a))) as [Hlt|Hge].
      * apply IH. split; [done|].
        exists seen, []. simpl. split; [done|]. split; [done|]. split; [done|]. split.
        -- intros e He. pose proof (closestFirst_le _ _ _ _ _ _ Ha He). lia.
        -- intros e He. by apply elem_of_nil in He.
      * apply IH. split; [done|].
        destruct Ha as (pre & post & -> & Hvp & Hpg & Hpre & Hpost).
        exists pre, (post ++ [el]). rewrite <- app_assoc. simpl.
        do 4 (split; [done|]).
        intros e [He| ->%list_elem_of_singleton]%elem_of_app; [by apply Hpost|lia].
    + destruct Hinv as [-> ->]. apply IH. split; [done|].
      exists [], []. simpl. do 3 (split; [done|]).
      split; intros e He; by apply elem_of_nil in He.
Qed.

Lemma pickAnchor_closestFirst host p y cands a :
  pickAnchor host p y cands None None = Some a → closestFirst host p y cands a.
Proof.
  intros Hp. pose proof (pickAnchor_loop host p y cands [] None None (conj eq_refl eq_refl)) as H.
  by rewrite Hp in H.
Qed.

Lemma closestFirst_shown host p y cands a :
  closestFirst host p y cands a → closestShownFirst host p y cands a.
Proof.
  intros (pre & post & Hc & Hvp & Hpg & Hpre & Hpost).
  exists pre, post. do 3 (split; [done|]). split; intros el Hel _; auto.
Qed.

(** The restore step, when an anchor was found. *)
Lemma updateFilters_restore host st a :
  pickAnchor host (dom st) (pageYOffset st) (candidates (content (dom st))) None None = Some a →
  let st' := updateFilters host st in
  let y1 := reflowScroll host (dom st') (pageYOffset st) in
  let target := restoreTarget host (dom st') y1 a in
  pageYOffset st' = clampScroll host (dom st') target ∧
  scrollLog st' = scrollLog st ++ [ScrollTo target "auto"] ∧
  rootScrollBehavior st' = rootScrollBehavior st.
Proof.
  intros Hp. cbn zeta. rewrite updateFilters_dom. unfold updateFilters.
  rewrite Hp. unfold scrollTo. simpl. done.
Qed.

(** C6, as amended: when the anchor the code records is a header that has a
    box before and after the filter, it is the first of the displayed
    headers closest to the viewport top; and when the scroll offset the
    correction asks for lies in the scroll range of the document as laid out
    after the filter, the anchor's viewport-relative top after the call
    differs from the one recorded before by no more than the browser's
    rounding of that offset (it is the same where the offset is not
    rounded); the correction is one [scrollTo] issued under scroll behaviour
    [auto], and the root's own scroll behaviour is put back.  An anchor
    without a box is outside the statement. *)
Theorem updateFilters_keeps_anchor (host : Host) (st : App) (a : Anchor) (t t' tol : Z) :
  pickAnchor host (dom st) (pageYOffset st) (candidates (content (dom st))) None None = Some a →
  let st' := updateFilters host st in
  let y1 := reflowScroll host (dom st') (pageYOffset st) in
  let target := restoreTarget host (dom st') y1 a in
  boxTop host (dom st) (anchorEl a) = Some t →
  boxTop host (dom st') (anchorEl a) = Some t' →
  0 ≤ target ≤ scrollLimit host (dom st') →
  Z.abs (snapScroll host target - target) ≤ tol →
  closestShownFirst host (dom st) (pageYOffset st) (candidates (content (dom st))) a ∧
  Z.abs (rectTop host (dom st') (pageYOffset st') (anchorEl a) -
         rectTop host (dom st) (pageYOffset st) (anchorEl a)) ≤ tol ∧
  scrollLog st' = scrollLog st ++ [ScrollTo target "auto"] ∧
  rootScrollBehavior st' = rootScrollBehavior st.
Proof.
  intros Hp st' y1 target Hb Hb' Hrange Hsnap.
  pose proof (pickAnchor_closestFirst _ _ _ _ _ Hp) as Hcf.
  destruct (updateFilters_restore host st a Hp) as (Hy & Hlog & Hsb).
  fold st' y1 target in Hy, Hlog, Hsb.
  split; [by apply closestFirst_shown|]. split; [|done].
  destruct Hcf as (_ & _ & _ & Hvp & _).
  rewrite Hy. unfold clampScroll. rewrite Z.min_r, Z.max_r by lia.
  subst target. unfold restoreTarget in *. rewrite Hvp in *. unfold rectTop in *.
  rewrite Hb, Hb' in *. lia.
Qed.

(** An instance, in a window that scrolls by whole pixels: an article above
    the anchor is hidden, the correction asks for offset 56 and the window
    lands on 64; the anchor ends 8 layout units above where it was. *)
Lemma updateFilters_keeps_anchor_witness :
  let st := afterToggleOff "DAC7" (loadedApp risingDoc 256) in
  let a := MkAnchor 2 300 44 in
  let st' := updateFilters pixelHost st in
  let y1 := reflowScroll pixelHost (dom st') (pageYOffset st) in
  let target := restoreTarget pixelHost (dom st') y1 a in
  target = 56 ∧ pageYOffset st' = 64 ∧
  closestShownFirst pixelHost (dom st) (pageYOffset st) (candidates (content (dom st))) a ∧
  Z.abs (rectTop pixelHost (dom st') (pageYOffset st') (anchorEl a) -
         rectTop pixelHost (dom st) (pageYOffset st) (anchorEl a)) ≤ 32 ∧
  scrollLog st' = scrollLog st ++ [ScrollTo target "auto"] ∧
  rootScrollBehavior st' = rootScrollBehavior st.
Proof.
  split; [vm_compute; reflexivity|]. split; [vm_compute; reflexivity|].
  apply (updateFilters_keeps_anchor pixelHost
           (afterToggleOff "DAC7" (loadedApp risingDoc 256)) (MkAnchor 2 300 44) 300 100 32).
  - vm_compute. reflexivity.
  - vm_compute. reflexivity.
  - vm_compute. reflexivity.
  - vm_compute. split; discriminate.
  - vm_compute. discriminate.
Defined.

(** C6 as stated fails: the filter leaves the anchor (the header of [a3], at
    the viewport top) visible, but hides so much that the document no longer
    scrolls; the anchor ends 100 below where it was. *)
Lemma updateFilters_anchor_moves :
  let st := afterToggleOff "DAC7" (loadedApp shrinkingDoc 500) in
  let st' := updateFilters stackHost st in
  pickAnchor stackHost (dom st) (pageYOffset st) (candidates (content (dom st))) None None
    = Some (MkAnchor 3 500 0) ∧
  boxTop stackHost (dom st) 3 = Some 500 ∧
  boxTop stackHost (dom st') 3 = Some 100 ∧
  rectTop stackHost (dom st) (pageYOffset st) 3 = 0 ∧
  rectTop stackHost (dom st') (pageYOffset st') 3 = 100.
Proof. vm_compute. repeat split; reflexivity. Qed.

(** C7, as amended: after the mutation the recorded anchor element itself is
    measured again, hidden or not, and the scroll target is its page-absolute
    top minus the recorded viewport offset; for an anchor that has lost its
    box the measured rectangle is the zero rectangle and the target is the
    current scroll offset minus the recorded viewport offset.  No other
    candidate takes the anchor's place. *)
Theorem updateFilters_measures_recorded_anchor (host : Host) (st : App) (a : Anchor) :
  pickAnchor host (dom st) (pageYOffset st) (candidates (content (dom st))) None None = Some a →
  let st' := updateFilters host st in
  let y1 := reflowScroll host (dom st') (pageYOffset st) in
  ∃ target,
    scrollLog st' = scrollLog st ++ [ScrollTo target "auto"] ∧
    pageYOffset st' = clampScroll host (dom st') target ∧
    target = rectTop host (dom st') y1 (anchorEl a) + y1 - anchorViewportY a ∧
    match boxTop host (dom st') (anchorEl a) with
    | Some t' => target = t' - anchorViewportY a
    | None => target = y1 - anchorViewportY a
    end.
Proof.
  intros Hp st' y1.
  destruct (updateFilters_restore host st a Hp) as (Hy & Hlog & _).
  fold st' y1 in Hy, Hlog.
  exists (restoreTarget host (dom st') y1 a).
  do 2 (split; [done|]). unfold restoreTarget, rectTop.
  destruct (boxTop host (dom st') (anchorEl a)); split; lia.
Qed.

(** An instance: the anchor itself is hidden by the filter. *)
Lemma updateFilters_measures_recorded_anchor_witness :
  let st := afterToggleOff "DAC7" (loadedApp hidingDoc 290) in
  let a := MkAnchor 2 300 10 in
  let st' := updateFilters stackHost st in
  let y1 := reflowScroll stackHost (dom st') (pageYOffset st) in
  ∃ target,
    scrollLog st' = scrollLog st ++ [ScrollTo target "auto"] ∧
    pageYOffset st' = clampScroll stackHost (dom st') target ∧
    target = rectTop stackHost (dom st') y1 (anchorEl a) + y1 - anchorViewportY a ∧
    match boxTop stackHost (dom st') (anchorEl a) with
    | Some t' => target = t' - anchorViewportY a
    | None => target = y1 - anchorViewportY a
    end.
Proof.
  apply (updateFilters_measures_recorded_anchor stackHost
           (afterToggleOff "DAC7" (loadedApp hidingDoc 290)) (MkAnchor 2 300 10)).
  vm_compute. reflexivity.
Defined.

(** C7 as stated fails: the anchor (the header of [a2]) becomes hidden; the
    nearest still-visible candidate before it is the header of [a1], and
    keeping that one in place would ask for scroll offset 290, but the code
    measures the hidden anchor and scrolls to 190. *)
Lemma updateFilters_no_fallback :
  let st := afterToggleOff "DAC7" (loadedApp hidingDoc 290) in
  let st' := updateFilters stackHost st in
  let cands := candidates (content (dom st)) in
  pickAnchor stackHost (dom st) (pageYOffset st) cands None None = Some (MkAnchor 2 300 10) ∧
  boxTop stackHost (dom st') 2 = None ∧
  specRelocate stackHost (dom st') cands 2 = Some 1%nat ∧
  specRestoreTarget stackHost (dom st) (dom st') (pageYOffset st) cands 2 = Some 290 ∧
  scrollLog st' = [ScrollTo 190 "auto"] ∧
  pageYOffset st' = 190.
Proof. vm_compute. repeat split; reflexivity. Qed.

(** *** Strings *)

Lemma strApp_nil_r s : s +:+ "" = s.
Proof. induction s as [|c s IH]; simpl; [done|]. by rewrite IH. Qed.

Lemma strApp_assoc a b c : (a +:+ b) +:+ c = a +:+ (b +:+ c).
Proof. induction a as [|x a IH]; simpl; [done|]. by rewrite IH. Qed.

Lemma strLength_app a b : strLength (a +:+ b) = (strLength a + strLength b)%nat.
Proof. unfold strLength. induction a as [|x a IH]; simpl; [done|]. by rewrite IH. Qed.

Lemma strIsEmpty_spec s : strIsEmpty s = true ↔ s = "".
Proof. by destruct s. Qed.

Lemma strIsEmpty_app a b : strIsEmpty (a +:+ b) = strIsEmpty a && strIsEmpty b.
Proof. by destruct a. Qed.

Lemma strTake_drop n s : strTake n s +:+ strDrop n s = s.
Proof.
  revert s. induction n as [|n IH]; intros [|c s]; simpl; try done. by rewrite IH.
Qed.

Lemma strTake_all n s : (strLength s ≤ n)%nat → strTake n s = s.
Proof.
  unfold strLength. revert s. induction n as [|n IH]; intros [|c s]; simpl; try done;
    try lia.
  intros H. rewrite IH; [done|lia].
Qed.

Lemma strLength_drop n s : strLength (strDrop n s) = (strLength s - n)%nat.
Proof.
  unfold strLength. revert s. induction n as [|n IH]; intros [|c s]; simpl; try done;
    try lia.
Qed.

Lemma strTake_slice a b s : (a ≤ b)%nat → strTake a s +:+ slice s a b = strTake b s.
Proof.
  unfold slice. revert b s. induction a as [|a IH]; intros b s Hab; simpl.
  - by rewrite Nat.sub_0_r.
  - destruct b as [|b]; [lia|]. destruct s as [|c s]; simpl.
    + by destruct (b - a)%nat.
    + rewrite IH; [done|lia].
Qed.

Lemma strConcat_app l1 l2 : strConcat (l1 ++ l2) = strConcat l1 +:+ strConcat l2.
Proof.
  induction l1 as [|x l1 IH]; simpl; [done|]. by rewrite IH, strApp_assoc.
Qed.

(** *** The regular expression *)

Lemma matchHere_length canon pat s :
  matchHere canon pat s = true → (strLength pat ≤ strLength s)%nat.
Proof.
  unfold strLength. revert s. induction pat as [|p pat IH]; intros [|c s]; simpl; try done;
    try lia.
  intros [_ H]%andb_true_iff. apply IH in H. lia.
Qed.

Lemma searchFrom_bounds canon pat s i idx :
  searchFrom canon pat s i = Some idx →
  (i ≤ idx ∧ idx + strLength pat ≤ i + strLength s)%nat.
Proof.
  revert i. induction s as [|c s IH]; intros i; simpl.
  - destruct (matchHere canon pat "") eqn:Hm; [|done]. intros [= <-].
    apply matchHere_length in Hm. unfold strLength in *. simpl in *. lia.
  - destruct (matchHere canon pat (String c s)) eqn:Hm.
    + intros [= <-]. apply matchHere_length in Hm. unfold strLength in *. simpl in *. lia.
    + intros H%IH. unfold strLength in *. simpl. lia.
Qed.

Lemma regexExec_some canon r text idx m r' :
  regexExec canon r text = (Some (idx, m), r') →
  (lastIndex r ≤ idx)%nat ∧
  lastIndex r' = (idx + strLength (literal r))%nat ∧
  (lastIndex r' ≤ strLength text)%nat ∧
  m = slice text idx (lastIndex r') ∧
  literal r' = literal r.
Proof.
  unfold regexExec. destruct (Nat.ltb_spec (strLength text) (lastIndex r)); [done|].
  destruct (searchFrom _ _ _ _) as [j|] eqn:Hs; [|done]. intros [= <- <- <-]. simpl.
  apply searchFrom_bounds in Hs. rewrite strLength_drop in Hs.
  repeat split; lia.
Qed.

Lemma regexExec_none canon r text r' :
  regexExec canon r text = (None, r') → lastIndex r' = 0%nat ∧ literal r' = literal r.
Proof.
  unfold regexExec. destruct (strLength text <? lastIndex r)%nat; [by intros [= <-]|].
  destruct (searchFrom _ _ _ _); [done|]. by intros [= <-].
Qed.

Lemma regexTest_literal canon r text ok r' :
  regexTest canon r text = (ok, r') → literal r' = literal r.
Proof.
  unfold regexTest. destruct (regexExec canon r text) as [[[idx m]|] r1] eqn:He;
    intros [= <- <-].
  - by apply regexExec_some in He as (_ & _ & _ & _ & ?).
  - by apply regexExec_none in He as [_ ?].
Qed.

(** *** Splitting one text node *)

Lemma textContent_highlightSpan m : textContent (highlightSpan m) = m.
Proof.
  unfold highlightSpan, setTextContent. destruct m; simpl; [done|].
  by rewrite strApp_nil_r.
Qed.

Lemma isHighlight_highlightSpan m : isHighlight (highlightSpan m) = true.
Proof. reflexivity. Qed.

Lemma execLoop_spec canon fuel : ∀ r text frs frs' li' r',
  execLoop canon fuel r text (lastIndex r) frs = Returns (frs', li', r') →
  Forall fragment frs →
  strConcat (map textContent frs) = strTake (lastIndex r) text →
  Forall fragment frs' ∧
  strConcat (map textContent frs') = strTake li' text ∧
  literal r' = literal r ∧
  (frs' = frs ∨ existsb isHighlight frs' = true).
Proof.
  induction fuel as [|fuel IH]; intros r text frs frs' li' r'; simpl; [done|].
  destruct (regexExec canon r text) as [[[idx m]|] r1] eqn:He.
  - intros Hrun Hfr Htxt.
    destruct (regexExec_some _ _ _ _ _ _ He) as (Hle & He1 & _ & Hm & Hlit).
    match type of Hrun with
    | execLoop _ _ _ _ _ ?f = _ => set (frs2 := f) in *
    end.
    destruct (IH r1 text frs2 frs' li' r' Hrun) as (Hfr' & Htxt' & Hlit' & Hhl).
    + subst frs2. apply Forall_app. split; [|repeat constructor].
      destruct (lastIndex r <? idx)%nat; [|done].
      apply Forall_app. split; [done|repeat constructor].
    + subst frs2. rewrite map_app, strConcat_app.
      change (strConcat (map textContent [highlightSpan m]))
        with (textContent (highlightSpan m) +:+ "").
      rewrite textContent_highlightSpan, strApp_nil_r, Hm.
      rewrite <- (strTake_slice idx (lastIndex r1) text) by lia. f_equal.
      destruct (Nat.ltb_spec (lastIndex r) idx).
      * rewrite map_app, strConcat_app, Htxt. simpl. rewrite strApp_nil_r.
        apply strTake_slice. lia.
      * rewrite Htxt. f_equal. lia.
    + split; [done|]. split; [done|]. split; [congruence|]. right.
      destruct Hhl as [->|?]; [|done]. subst frs2.
      rewrite existsb_app. simpl. apply orb_true_r.
  - intros [= <- <- <-] Hfr Htxt.
    destruct (regexExec_none _ _ _ _ He) as [_ Hlit]. eauto.
Qed.

Lemma execLoop_returns canon fuel : ∀ r text li frs,
  literal r ≠ "" →
  (strLength text - lastIndex r < fuel)%nat →
  ∃ res, execLoop canon fuel r text li frs = Returns res.
Proof.
  induction fuel as [|fuel IH]; intros r text li frs Hne Hfuel; [lia|]. simpl.
  destruct (regexExec canon r text) as [[[idx m]|] r1] eqn:He; [|eauto].
  destruct (regexExec_some _ _ _ _ _ _ He) as (Hle & He1 & Hbound & _ & Hlit).
  apply IH; [congruence|].
  assert (0 < strLength (literal r))%nat.
  { unfold strLength. destruct (literal r); [done|simpl; lia]. }
  lia.
Qed.

Lemma splitTextNode_spec canon r text :
  literal r ≠ "" →
  ∃ ns r', splitTextNode canon r text = Returns (ns, r') ∧
           literal r' = literal r ∧ replaced (Text text) ns.
Proof.
  intros Hne. unfold splitTextNode.
  destruct (execLoop_returns canon (S (strLength text)) (MkRegExp (literal r) 0) text 0 [])
    as [[[frs li] r1] Hrun]; [done|simpl; lia|].
  rewrite Hrun. cbn [bindC].
  destruct (execLoop_spec canon _ (MkRegExp (literal r) 0) text [] frs li r1 Hrun)
    as (Hfr & Htxt & Hlit & Hhl); [done|done|]. simpl in Hlit.
  destruct (Nat.ltb_spec 0 (length frs)) as [Hpos|Hzero].
  - assert (Hhl' : existsb isHighlight frs = true).
    { destruct Hhl as [->|?]; [simpl in Hpos; lia|done]. }
    eexists _, _. split; [done|]. split; [done|].
    destruct (Nat.ltb_spec li (strLength text)).
    + apply replaced_split.
      * apply Forall_app. split; [done|repeat constructor].
      * rewrite map_app, strConcat_app, Htxt. simpl. rewrite strApp_nil_r.
        apply strTake_drop.
      * by rewrite existsb_app, Hhl'.
    + apply replaced_split; [done| |done]. rewrite Htxt. by apply strTake_all.
  - eexists _, _. split; [done|]. split; [done|]. constructor.
Qed.

(** *** The tree passes *)

Lemma node_forall_ind (P : node → Prop) :
  (∀ s, P (Text s)) →
  (∀ c d kids, Forall P kids → P (Elem c d kids)) →
  ∀ n, P n.
Proof.
  intros Htext Helem. fix IH 1. intros [s|c d kids]; [apply Htext|].
  apply Helem. induction kids as [|k kids IHk]; constructor; [apply IH|apply IHk].
Qed.

Lemma walkTextNodes_elem canon ex c d kids r :
  walkTextNodes canon ex (Elem c d kids) r =
  walkTextNodesList canon (ex || matchesExcluded c) kids r.
Proof.
  simpl. generalize (ex || matchesExcluded c). intros b. revert r.
  induction kids as [|k kids IH]; intros r; simpl; [done|].
  destruct (walkTextNodes canon b k r) as [f1 r1]. by rewrite IH.
Qed.

Lemma walkTextNodes_literal canon n : ∀ ex r flags r',
  walkTextNodes canon ex n r = (flags, r') → literal r' = literal r.
Proof.
  induction n as [s|c d kids IH] using node_forall_ind; intros ex r flags r'.
  - simpl. destruct ex; [by intros [= <- <-]|].
    destruct (regexTest canon r s) as [ok r1] eqn:Ht. intros [= <- <-].
    by apply regexTest_literal in Ht.
  - rewrite walkTextNodes_elem. generalize (ex || matchesExcluded c). intros b.
    revert r flags r'. induction IH as [|k kids Hk _ IHkids]; intros r flags r'; simpl.
    + by intros [= <- <-].
    + destruct (walkTextNodes canon b k r) as [f1 r1] eqn:H1.
      destruct (walkTextNodesList canon b kids r1) as [f2 r2] eqn:H2.
      intros [= <- <-]. apply Hk in H1. apply IHkids in H2. congruence.
Qed.

Lemma walkTextNodesList_literal canon ks : ∀ ex r flags r',
  walkTextNodesList canon ex ks r = (flags, r') → literal r' = literal r.
Proof.
  induction ks as [|k ks IH]; intros ex r flags r'; simpl; [by intros [= <- <-]|].
  destruct (walkTextNodes canon ex k r) as [f1 r1] eqn:H1.
  destruct (walkTextNodesList canon ex ks r1) as [f2 r2] eqn:H2.
  intros [= <- <-]. apply walkTextNodes_literal in H1. apply IH in H2. congruence.
Qed.

Lemma replaceTextNodes_elem canon c d kids flags r :
  replaceTextNodes canon (Elem c d kids) flags r =
  let* res := replaceTextNodesList canon kids flags r in
  Returns ([Elem c d (fst (fst res))], snd (fst res), snd res).
Proof.
  simpl. f_equal. revert flags r.
  induction kids as [|k kids IH]; intros flags r; simpl; [done|].
  destruct (replaceTextNodes canon k flags r) as [[[ns fl] r1]| |]; simpl; [|done..].
  by rewrite IH.
Qed.

(** On a pattern that is not empty the replacement pass returns, and its
    result stands in relation [replaced] to the tree it was given. *)
Lemma replaceTextNodes_replaced canon n : ∀ flags r,
  literal r ≠ "" →
  ∃ ns fl r', replaceTextNodes canon n flags r = Returns (ns, fl, r') ∧
              literal r' = literal r ∧ replaced n ns.
Proof.
  induction n as [s|c d kids IH] using node_forall_ind; intros flags r Hne.
  - simpl. destruct flags as [|[|] fl].
    + eexists _, _, _. split; [done|]. split; [done|]. constructor.
    + destruct (splitTextNode_spec canon r s Hne) as (ns & r' & Hs & Hlit & Hrep).
      rewrite Hs. simpl. eauto 10.
    + eexists _, _, _. split; [done|]. split; [done|]. constructor.
  - rewrite replaceTextNodes_elem.
    assert (Hl : ∃ ks' fl r', replaceTextNodesList canon kids flags r = Returns (ks', fl, r') ∧
                  literal r' = literal r ∧ replacedList kids ks').
    { revert flags r Hne.
      induction IH as [|k kids Hk _ IHkids]; intros flags r Hne; simpl.
      - eexists _, _, _. split; [done|]. split; [done|]. constructor.
      - destruct (Hk flags r Hne) as (ns & fl & r1 & -> & Hl1 & Hr1). simpl.
        destruct (IHkids fl r1) as (ks' & fl' & r2 & -> & Hl2 & Hr2); [congruence|].
        simpl. eexists _, _, _. split; [done|]. split; [congruence|]. by constructor. }
    destruct Hl as (ks' & fl & r' & -> & Hlit & Hrep). simpl.
    eexists _, _, _. split; [done|]. split; [done|]. by constructor.
Qed.

Lemma replaceTextNodesList_replaced canon ks : ∀ flags r,
  literal r ≠ "" →
  ∃ ks' fl r', replaceTextNodesList canon ks flags r = Returns (ks', fl, r') ∧
               literal r' = literal r ∧ replacedList ks ks'.
Proof.
  induction ks as [|k ks IH]; intros flags r Hne; simpl.
  - eexists _, _, _. split; [done|]. split; [done|]. constructor.
  - destruct (replaceTextNodes_replaced canon k flags r Hne) as (ns & fl & r1 & -> & Hl1 & Hr1).
    simpl. destruct (IH fl r1) as (ks' & fl' & r2 & -> & Hl2 & Hr2); [congruence|].
    simpl. eexists _, _, _. split; [done|]. split; [congruence|]. by constructor.
Qed.

Lemma highlightTextNodes_replaced canon kids r :
  literal r ≠ "" →
  ∃ kids' r', highlightTextNodes canon kids r = Returns (kids', r') ∧
              literal r' = literal r ∧ replacedList kids kids'.
Proof.
  intros Hne. unfold highlightTextNodes.
  destruct (walkTextNodesList canon false kids r) as [flags r1] eqn:Hw.
  apply walkTextNodesList_literal in Hw.
  destruct (replaceTextNodesList_replaced canon kids flags r1) as (ks' & fl & r2 & -> & Hl & Hr);
    [congruence|].
  simpl. eexists _, _. split; [done|]. split; [congruence|done].
Qed.

Lemma highlightBodies_replaced canon c : ∀ r,
  literal r ≠ "" →
  ∃ c' r', highlightBodies canon c r = Returns (c', r') ∧
           literal r' = literal r ∧ Forall2 itemReplaced c c'.
Proof.
  induction c as [|[t|b] c IH]; intros r Hne; simpl.
  - eexists _, _. split; [done|]. split; [done|]. constructor.
  - destruct (IH r Hne) as (c' & r' & -> & Hl & Hf). simpl.
    eexists _, _. split; [done|]. split; [done|]. by constructor.
  - destruct (highlightTextNodes_replaced canon (blockBody b) r Hne) as (kids' & r1 & -> & Hl1 & Hr).
    simpl. destruct (IH r1) as (c' & r' & -> & Hl & Hf); [congruence|]. simpl.
    eexists _, _. split; [done|]. split; [congruence|].
    constructor; [|done]. simpl. eauto.
Qed.

(** *** What the replacement keeps *)

Lemma replaced_textContent_both :
  (∀ n ns, replaced n ns → strConcat (map textContent ns) = textContent n) ∧
  (∀ l l', replacedList l l' →
     strConcat (map textContent l') = strConcat (map textContent l)).
Proof.
  split.
  - apply (replaced_mut
      (λ n ns, strConcat (map textContent ns) = textContent n)
      (λ l l', strConcat (map textContent l') = strConcat (map textContent l))).
    + intros s. simpl. apply strApp_nil_r.
    + done.
    + intros c d kids kids' _ IH. simpl. by rewrite IH, strApp_nil_r.
    + done.
    + intros n ns l l' _ IHn _ IHl. rewrite map_app, strConcat_app, IHn, IHl. done.
  - apply (replacedList_mut
      (λ n ns, strConcat (map textContent ns) = textContent n)
      (λ l l', strConcat (map textContent l') = strConcat (map textContent l))).
    + intros s. simpl. apply strApp_nil_r.
    + done.
    + intros c d kids kids' _ IH. simpl. by rewrite IH, strApp_nil_r.
    + done.
    + intros n ns l l' _ IHn _ IHl. rewrite map_app, strConcat_app, IHn, IHl. done.
Qed.

Lemma highlightsOfList_app l1 l2 :
  highlightsOfList (l1 ++ l2) = highlightsOfList l1 ++ highlightsOfList l2.
Proof. unfold highlightsOfList. by rewrite map_app, concat_app. Qed.

Lemma highlightsOf_elem_nil c d kids :
  highlightsOf (Elem c d kids) = [] → contains c HIGHLIGHT = false ∧ highlightsOfList kids = [].
Proof.
  simpl. destruct (contains c HIGHLIGHT); [done|]. by intros H.
Qed.

Lemma fragment_highlights f :
  fragment f → Forall (λ c, c = [HIGHLIGHT]) (highlightsOf f).
Proof.
  intros [s|m]; [constructor|].
  unfold highlightSpan, setTextContent. destruct (strIsEmpty m); repeat constructor.
Qed.

Lemma fragments_highlights ns :
  Forall fragment ns → Forall (λ c, c = [HIGHLIGHT]) (highlightsOfList ns).
Proof.
  induction 1 as [|f ns Hf _ IH]; [constructor|].
  change (highlightsOfList (f :: ns)) with (highlightsOf f ++ highlightsOfList ns).
  apply Forall_app. split; [by apply fragment_highlights|done].
Qed.

(** On a tree without highlights, the highlights after the replacement are
    the spans it made, each with the single class [search-highlight]. *)
Lemma replacedList_fresh l l' :
  replacedList l l' → highlightsOfList l = [] →
  Forall (λ c, c = [HIGHLIGHT]) (highlightsOfList l').
Proof.
  apply (replacedList_mut
    (λ n ns, highlightsOf n = [] → Forall (λ c, c = [HIGHLIGHT]) (highlightsOfList ns))
    (λ l l', highlightsOfList l = [] → Forall (λ c, c = [HIGHLIGHT]) (highlightsOfList l'))).
  - intros s _. constructor.
  - intros s ns Hfr _ _ _. by apply fragments_highlights.
  - intros c d kids kids' _ IH [Hc Hk]%highlightsOf_elem_nil.
    unfold highlightsOfList. simpl. rewrite Hc, app_nil_r. simpl. by apply IH.
  - intros _. constructor.
  - intros n ns k k' _ IHn _ IHl Hnil.
    change (highlightsOfList (n :: k)) with (highlightsOf n ++ highlightsOfList k) in Hnil.
    apply app_eq_nil in Hnil as [Hn Hk].
    rewrite highlightsOfList_app. apply Forall_app. split; [by apply IHn|by apply IHl].
Qed.

(** *** Normalisation *)

Lemma mergeText_length l : (length (mergeText l) ≤ length l)%nat.
Proof.
  induction l as [|[s|c d kids] l IH]; simpl; [done| |lia].
  destruct (mergeText l) as [|[s'|c' d' kids'] rest]; simpl in *;
    destruct (strIsEmpty s); simpl; lia.
Qed.

(** What it means for a list of children to be left alone by [normalize]. *)
Lemma mergeText_fixed_cons x l :
  mergeText (map normalize (x :: l)) = x :: l →
  normalize x = x ∧ mergeText (map normalize l) = l ∧
  match x with
  | Text s => s ≠ "" ∧ match l with Text _ :: _ => False | _ => True end
  | Elem _ _ _ => True
  end.
Proof.
  pose proof (mergeText_length (map normalize l)) as Hlen. rewrite length_map in Hlen.
  destruct x as [s|c d kids]; simpl.
  - destruct (mergeText (map normalize l)) as [|[s'|c' d' kids'] rest] eqn:Hm.
    + destruct s; simpl; intros Heq; [discriminate|]. by injection Heq as <-.
    + intros Heq. injection Heq as _ <-. simpl in Hlen. lia.
    + destruct s; simpl; intros Heq; [discriminate|]. by injection Heq as <-.
  - intros [= Hk Hl]. rewrite Hk. done.
Qed.

Lemma map_normalize_texts ts : map normalize (map Text ts) = map Text ts.
Proof. induction ts as [|t ts IH]; simpl; [done|]. by rewrite IH. Qed.

(** A run of text nodes in front of a list merges into one text node (or
    into the text node the rest starts with). *)
Lemma mergeText_texts ts M :
  mergeText (map Text ts ++ M) =
  match mergeText M with
  | Text s' :: rest => Text (strConcat ts +:+ s') :: rest
  | rest => if strIsEmpty (strConcat ts) then rest else Text (strConcat ts) :: rest
  end.
Proof.
  induction ts as [|t ts IH]; simpl.
  - by destruct (mergeText M) as [|[s'|c d kids] rest].
  - rewrite IH. destruct (mergeText M) as [|[s'|c d kids] rest].
    + rewrite strIsEmpty_app. destruct (strIsEmpty (strConcat ts)) eqn:He.
      * apply strIsEmpty_spec in He. rewrite He, strApp_nil_r, andb_true_r. done.
      * by rewrite andb_false_r.
    + by rewrite strApp_assoc.
    + rewrite strIsEmpty_app. destruct (strIsEmpty (strConcat ts)) eqn:He.
      * apply strIsEmpty_spec in He. rewrite He, strApp_nil_r, andb_true_r. done.
      * by rewrite andb_false_r.
Qed.

Lemma fragments_clearNode ns :
  Forall fragment ns → map clearNode ns = map Text (map textContent ns).
Proof.
  induction 1 as [|f ns Hf _ IH]; [done|]. simpl. rewrite IH. f_equal.
  by destruct Hf.
Qed.

(** Clearing what the replacement made of a clean list of children gives the
    list back. *)
Lemma replacedList_clear l l' :
  replacedList l l' →
  highlightsOfList l = [] → mergeText (map normalize l) = l →
  mergeText (map normalize (map clearNode l')) = l ∧
  (existsb isHighlight l' = false → map clearNode l' = l).
Proof.
  apply (replacedList_mut
    (λ n ns, highlightsOf n = [] → normalize n = n →
       match n with
       | Text s => map clearNode ns = map Text (map textContent ns) ∧
                   strConcat (map textContent ns) = s ∧
                   (existsb isHighlight ns = false → ns = [Text s])
       | Elem _ _ _ => map clearNode ns = [n] ∧ existsb isHighlight ns = false
       end)
    (λ l l', highlightsOfList l = [] → mergeText (map normalize l) = l →
       mergeText (map normalize (map clearNode l')) = l ∧
       (existsb isHighlight l' = false → map clearNode l' = l))).
  - intros s _ _. simpl. by rewrite strApp_nil_r.
  - intros s ns Hfr Htxt Hhl _ _. split; [by apply fragments_clearNode|].
    split; [done|]. by rewrite Hhl.
  - intros c d kids kids' _ IH [Hc Hk]%highlightsOf_elem_nil [= Hnorm].
    destruct (IH Hk Hnorm) as [Hdirty Hclean].
    simpl. rewrite Hc. simpl. split; [|done]. do 2 f_equal.
    unfold clearFinish. destruct (existsb isHighlight kids'); [done|by apply Hclean].
  - done.
  - intros n ns k k' _ IHn _ IHl Hnil Hnorm.
    change (highlightsOfList (n :: k)) with (highlightsOf n ++ highlightsOfList k) in Hnil.
    apply app_eq_nil in Hnil as [Hn Hk].
    apply mergeText_fixed_cons in Hnorm as (Hnn & Hnk & Hshape).
    specialize (IHn Hn Hnn). destruct (IHl Hk Hnk) as [Hdirty Hclean].
    rewrite !map_app, existsb_app. split.
    + destruct n as [s|c d kids].
      * destruct IHn as (-> & Htxt & _). destruct Hshape as [Hne Hhead].
        rewrite map_normalize_texts, mergeText_texts, Hdirty, Htxt.
        destruct k as [|[s'|c' d' kids'] k]; try done;
          (destruct (strIsEmpty s) eqn:He; [by apply strIsEmpty_spec in He|done]).
      * destruct IHn as [-> _]. simpl. rewrite Hdirty.
        injection Hnn as ->. done.
    + intros [Hns Hk']%orb_false_iff. rewrite (Hclean Hk'). destruct n as [s|c d kids].
      * destruct IHn as (_ & _ & ->); done.
      * by destruct IHn as [-> _].
Qed.

Lemma replacedList_clearBody l l' :
  replacedList l l' → cleanBody l → clearBody l' = l.
Proof.
  intros Hrep [Hnorm Hnil]. destruct (replacedList_clear _ _ Hrep Hnil Hnorm) as [Hd Hc].
  unfold clearBody, clearFinish. destruct (existsb isHighlight l'); [done|by apply Hc].
Qed.

(** *** What clearing keeps and removes *)

Lemma map_textContent_ext (f : node → node) kids :
  Forall (λ k, textContent (f k) = textContent k) kids →
  map textContent (map f kids) = map textContent kids.
Proof. induction 1 as [|k kids Hk _ IH]; simpl; [done|]. by rewrite Hk, IH. Qed.

Lemma textContent_mergeText l :
  strConcat (map textContent (mergeText l)) = strConcat (map textContent l).
Proof.
  induction l as [|[s|c d kids] l IH]; simpl; [done| |by rewrite IH].
  rewrite <- IH. destruct (mergeText l) as [|[s'|c' d' kids'] rest]; simpl.
  - destruct s; simpl; [done|]. done.
  - by rewrite strApp_assoc.
  - destruct s; simpl; done.
Qed.

Lemma textContent_normalize n : textContent (normalize n) = textContent n.
Proof.
  induction n as [s|c d kids IH] using node_forall_ind; simpl; [done|].
  by rewrite textContent_mergeText, map_textContent_ext.
Qed.

Lemma textContent_clearNode n : textContent (clearNode n) = textContent n.
Proof.
  induction n as [s|c d kids IH] using node_forall_ind; simpl; [done|].
  destruct (contains c HIGHLIGHT); simpl; [done|].
  unfold clearFinish. destruct (existsb isHighlight kids).
  - rewrite textContent_mergeText, map_textContent_ext.
    + by rewrite map_textContent_ext.
    + apply Forall_forall. intros k _. apply textContent_normalize.
  - by rewrite map_textContent_ext.
Qed.

Lemma textContent_clearBody kids :
  strConcat (map textContent (clearBody kids)) = strConcat (map textContent kids).
Proof.
  unfold clearBody, clearFinish. destruct (existsb isHighlight kids).
  - rewrite textContent_mergeText, map_textContent_ext.
    + rewrite map_textContent_ext; [done|].
      apply Forall_forall. intros k _. apply textContent_clearNode.
    + apply Forall_forall. intros k _. apply textContent_normalize.
  - rewrite map_textContent_ext; [done|].
    apply Forall_forall. intros k _. apply textContent_clearNode.
Qed.

Lemma highlightsOfList_mergeText l : highlightsOfList (mergeText l) = highlightsOfList l.
Proof.
  unfold highlightsOfList.
  induction l as [|[s|c d kids] l IH]; simpl; [done| |by rewrite IH].
  rewrite <- IH. destruct (mergeText l) as [|[s'|c' d' kids'] rest]; simpl;
    destruct (strIsEmpty s); done.
Qed.

Lemma highlightsOfList_ext (f : node → node) kids :
  Forall (λ k, highlightsOf (f k) = highlightsOf k) kids →
  highlightsOfList (map f kids) = highlightsOfList kids.
Proof.
  unfold highlightsOfList. induction 1 as [|k kids Hk _ IH]; simpl; [done|].
  by rewrite Hk, IH.
Qed.

Lemma highlightsOf_normalize n : highlightsOf (normalize n) = highlightsOf n.
Proof.
  induction n as [s|c d kids IH] using node_forall_ind; simpl; [done|]. f_equal.
  fold (highlightsOfList (mergeText (map normalize kids))).
  rewrite highlightsOfList_mergeText. by apply highlightsOfList_ext.
Qed.

Lemma highlightsOfList_nil_ext (f : node → node) kids :
  Forall (λ k, highlightsOf (f k) = []) kids → highlightsOfList (map f kids) = [].
Proof.
  unfold highlightsOfList. induction 1 as [|k kids Hk _ IH]; simpl; [done|].
  by rewrite Hk, IH.
Qed.

Lemma highlightsOf_clearNode n : highlightsOf (clearNode n) = [].
Proof.
  induction n as [s|c d kids IH] using node_forall_ind; simpl; [done|].
  destruct (contains c HIGHLIGHT) eqn:Hc; simpl; [done|]. rewrite Hc. simpl.
  fold (highlightsOfList (clearFinish (existsb isHighlight kids) (map clearNode kids))).
  unfold clearFinish. destruct (existsb isHighlight kids).
  - rewrite highlightsOfList_mergeText, highlightsOfList_ext.
    + by apply highlightsOfList_nil_ext.
    + apply Forall_forall. intros k _. apply highlightsOf_normalize.
  - by apply highlightsOfList_nil_ext.
Qed.

Lemma highlightsOfList_clearBody kids : highlightsOfList (clearBody kids) = [].
Proof.
  unfold clearBody, clearFinish. destruct (existsb isHighlight kids).
  - rewrite highlightsOfList_mergeText, highlightsOfList_ext.
    + apply highlightsOfList_nil_ext, Forall_forall. intros k _. apply highlightsOf_clearNode.
    + apply Forall_forall. intros k _. apply highlightsOf_normalize.
  - apply highlightsOfList_nil_ext, Forall_forall. intros k _. apply highlightsOf_clearNode.
Qed.

Lemma highlightsOfList_nil_inv kids :
  highlightsOfList kids = [] →
  Forall (λ k, highlightsOf k = []) kids ∧ existsb isHighlight kids = false.
Proof.
  induction kids as [|k kids IH]; [done|].
  change (highlightsOfList (k :: kids)) with (highlightsOf k ++ highlightsOfList kids).
  intros [Hk Hks]%app_eq_nil. destruct (IH Hks) as [Hall Hex].
  split; [by constructor|]. simpl. rewrite Hex, orb_false_r.
  destruct k as [s|c d ks]; [done|]. simpl in *. by destruct (contains c HIGHLIGHT).
Qed.

Lemma clearNode_clean n : highlightsOf n = [] → clearNode n = n.
Proof.
  induction n as [s|c d kids IH] using node_forall_ind; [done|].
  intros [Hc Hk]%highlightsOf_elem_nil. simpl. rewrite Hc.
  destruct (highlightsOfList_nil_inv _ Hk) as [Hall ->]. simpl. f_equal.
  clear Hk. induction IH as [|k kids Hk _ IHk]; [done|].
  inversion Hall; subst. simpl. rewrite Hk by done. f_equal. by apply IHk.
Qed.

Lemma clearBody_clean kids : highlightsOfList kids = [] → clearBody kids = kids.
Proof.
  intros Hk. destruct (highlightsOfList_nil_inv _ Hk) as [Hall Hex].
  unfold clearBody. rewrite Hex. simpl.
  induction Hall as [|k kids Hk' _ IH]; [done|]. simpl.
  rewrite (clearNode_clean _ Hk'). f_equal. apply IH.
  - change (highlightsOfList (k :: kids)) with (highlightsOf k ++ highlightsOfList kids) in Hk.
    by apply app_eq_nil in Hk as [_ ?].
  - simpl in Hex. by apply orb_false_iff in Hex as [_ ?].
Qed.

(** *** Marking a match *)

Lemma alterHighlight_elem f k c d kids :
  alterHighlight f k (Elem c d kids) =
  if contains c HIGHLIGHT then
    match k with
    | O => Elem (f c) d kids
    | S k' => Elem c d (alterHighlightList f k' kids)
    end
  else Elem c d (alterHighlightList f k kids).
Proof.
  assert (Hgo : ∀ ks j,
    (fix go (ks : list node) (k : nat) : list node :=
       match ks with
       | [] => []
       | x :: ks' =>
           let m := length (highlightsOf x) in
           if (k <? m)%nat then alterHighlight f k x :: ks'
           else x :: go ks' (k - m)%nat
       end) ks j = alterHighlightList f j ks).
  { induction ks as [|x ks IH]; intros j; simpl; [done|].
    destruct (j <? length (highlightsOf x))%nat; [done|]. by rewrite IH. }
  simpl. destruct (contains c HIGHLIGHT); [destruct k as [|k']|]; by rewrite ?Hgo.
Qed.

Lemma highlightsOf_alterHighlight f n :
  keepsHighlight f → ∀ k, highlightsOf (alterHighlight f k n) = alter f k (highlightsOf n).
Proof.
  intros Hf. induction n as [s|c d kids IH] using node_forall_ind; intros k; [done|].
  assert (Hl : ∀ j, highlightsOfList (alterHighlightList f j kids)
                    = alter f j (highlightsOfList kids)).
  { induction IH as [|x ks Hx _ IHks]; intros j; [done|]. simpl.
    change (highlightsOfList (x :: ks)) with (highlightsOf x ++ highlightsOfList ks).
    destruct (Nat.ltb_spec j (length (highlightsOf x))).
    - change (highlightsOfList (alterHighlight f j x :: ks))
        with (highlightsOf (alterHighlight f j x) ++ highlightsOfList ks).
      by rewrite Hx, alter_app_l.
    - change (highlightsOfList (x :: alterHighlightList f (j - length (highlightsOf x)) ks))
        with (highlightsOf x ++ highlightsOfList (alterHighlightList f (j - length (highlightsOf x)) ks)).
      by rewrite IHks, alter_app_r_alt. }
  rewrite alterHighlight_elem. simpl. destruct (contains c HIGHLIGHT) eqn:Hc.
  - destruct k as [|k']; simpl.
    + by rewrite (Hf c Hc).
    + rewrite Hc. simpl. f_equal. apply Hl.
  - simpl. rewrite Hc. simpl. apply Hl.
Qed.

Lemma highlightsOfList_alterHighlightList f l :
  keepsHighlight f →
  ∀ k, highlightsOfList (alterHighlightList f k l) = alter f k (highlightsOfList l).
Proof.
  intros Hf. induction l as [|x l IH]; intros k; [done|]. simpl.
  change (highlightsOfList (x :: l)) with (highlightsOf x ++ highlightsOfList l).
  destruct (Nat.ltb_spec k (length (highlightsOf x))).
  - change (highlightsOfList (alterHighlight f k x :: l))
      with (highlightsOf (alterHighlight f k x) ++ highlightsOfList l).
    by rewrite highlightsOf_alterHighlight, alter_app_l.
  - change (highlightsOfList (x :: alterHighlightList f (k - length (highlightsOf x)) l))
      with (highlightsOf x ++ highlightsOfList (alterHighlightList f (k - length (highlightsOf x)) l)).
    by rewrite IH, alter_app_r_alt.
Qed.

(** Changing the class list of a highlight does not change what clearing
    makes of the tree, nor its text. *)
Lemma alterHighlight_invisible f n :
  keepsHighlight f →
  ∀ k, clearNode (alterHighlight f k n) = clearNode n ∧
       isHighlight (alterHighlight f k n) = isHighlight n ∧
       textContent (alterHighlight f k n) = textContent n.
Proof.
  intros Hf. induction n as [s|c d kids IH] using node_forall_ind; intros k; [done|].
  assert (Hl : ∀ j, map clearNode (alterHighlightList f j kids) = map clearNode kids ∧
                    existsb isHighlight (alterHighlightList f j kids) = existsb isHighlight kids ∧
                    map textContent (alterHighlightList f j kids) = map textContent kids).
  { induction IH as [|x ks Hx _ IHks]; intros j; [done|]. simpl.
    destruct (j <? length (highlightsOf x))%nat; simpl.
    - destruct (Hx j) as (-> & -> & ->). done.
    - destruct (IHks (j - length (highlightsOf x))%nat) as (-> & -> & ->). done. }
  rewrite alterHighlight_elem. destruct (contains c HIGHLIGHT) eqn:Hc.
  - destruct k as [|k']; simpl.
    + by rewrite (Hf c Hc), Hc.
    + rewrite Hc. destruct (Hl k') as (_ & _ & ->). done.
  - simpl. rewrite Hc. destruct (Hl k) as (-> & -> & ->). done.
Qed.

Lemma alterHighlightList_invisible f l :
  keepsHighlight f →
  ∀ k, clearBody (alterHighlightList f k l) = clearBody l ∧
       bodyText (alterHighlightList f k l) = bodyText l.
Proof.
  intros Hf k.
  assert (Hl : map clearNode (alterHighlightList f k l) = map clearNode l ∧
               existsb isHighlight (alterHighlightList f k l) = existsb isHighlight l ∧
               map textContent (alterHighlightList f k l) = map textContent l).
  { revert k. induction l as [|x l IH]; intros k; [done|]. simpl.
    destruct (k <? length (highlightsOf x))%nat; simpl.
    - destruct (alterHighlight_invisible f x Hf k) as (-> & -> & ->). done.
    - destruct (IH (k - length (highlightsOf x))%nat) as (-> & -> & ->). done. }
  destruct Hl as (Hc & He & Ht). unfold clearBody, bodyText. by rewrite Hc, He, Ht.
Qed.

Lemma keepsHighlight_classAdd : keepsHighlight (classAdd CURRENT).
Proof. intros c Hc. by rewrite contains_classAdd, Hc. Qed.

Lemma keepsHighlight_classRemove : keepsHighlight (classRemove CURRENT).
Proof. intros c Hc. by rewrite contains_classRemove, Hc. Qed.

Lemma pageHighlights_unit b c :
  pageHighlights (Unit b :: c) = highlightsOfList (blockBody b) ++ pageHighlights c.
Proof. done. Qed.

Lemma pageHighlights_updateMatch f g c :
  keepsHighlight f → keepsBody g →
  ∀ k, pageHighlights (updateMatch f g k c) = alter f k (pageHighlights c).
Proof.
  intros Hf Hg. induction c as [|[t|b] c IH]; intros k; [done|apply IH|]. simpl.
  rewrite pageHighlights_unit.
  destruct (Nat.ltb_spec k (length (highlightsOfList (blockBody b)))).
  - rewrite pageHighlights_unit, Hg. simpl.
    by rewrite highlightsOfList_alterHighlightList, alter_app_l.
  - by rewrite pageHighlights_unit, IH, alter_app_r_alt.
Qed.

Lemma bodiesOf_unit b c : bodiesOf (Unit b :: c) = blockBody b :: bodiesOf c.
Proof. done. Qed.

Lemma bodiesOf_mapBodies h c : bodiesOf (mapBodies h c) = map h (bodiesOf c).
Proof.
  induction c as [|[t|b] c IH]; [done|apply IH|].
  change (mapBodies h (Unit b :: c)) with (Unit (withBody (h (blockBody b)) b) :: mapBodies h c).
  rewrite !bodiesOf_unit, IH. done.
Qed.

Lemma bodiesOf_updateMatch f g c :
  keepsHighlight f → keepsBody g →
  ∀ k, map clearBody (bodiesOf (updateMatch f g k c)) = map clearBody (bodiesOf c) ∧
       map bodyText (bodiesOf (updateMatch f g k c)) = map bodyText (bodiesOf c).
Proof.
  intros Hf Hg. induction c as [|[t|b] c IH]; intros k; [done|apply IH|]. simpl.
  destruct (k <? length (highlightsOfList (blockBody b)))%nat.
  - rewrite !bodiesOf_unit, Hg. simpl.
    destruct (alterHighlightList_invisible f (blockBody b) Hf k) as [-> ->]. done.
  - rewrite !bodiesOf_unit. simpl.
    destruct (IH (k - length (highlightsOfList (blockBody b)))%nat) as [-> ->]. done.
Qed.

(** *** performSearch and navigateSearch, unfolded *)

Lemma performSearch_short host term st :
  (strLength term < 2)%nat →
  performSearch host term st =
  Returns (withDom (withResultsCount "" (dom (clearSearch st)))
                   (withSearchTerm term (clearSearch st))).
Proof.
  intros Hlen. unfold performSearch.
  destruct (Nat.ltb_spec (strLength term) 2); [|lia]. by rewrite orb_true_r.
Qed.

Lemma performSearch_long host term st :
  (2 ≤ strLength term)%nat →
  ∃ c', Forall2 itemReplaced (mapBodies clearBody (content (dom st))) c' ∧
        performSearch host term st = Returns (foundState term st c').
Proof.
  intros Hlen. unfold performSearch.
  destruct (Nat.ltb_spec (strLength term) 2); [lia|].
  assert (Hne : term ≠ "") by (intros ->; unfold strLength in Hlen; simpl in Hlen; lia).
  replace (strIsEmpty term) with false by (by destruct term). simpl orb. cbv iota.
  destruct (highlightBodies_replaced (canonicalize host)
              (mapBodies clearBody (content (dom st))) (newRegExp term) Hne)
    as (c' & r' & Hh & _ & Hrep).
  exists c'. split; [done|].
  change (content (dom (withSearchMatches [] (withSearchTerm term (clearSearch st)))))
    with (mapBodies clearBody (content (dom st))).
  rewrite Hh. cbn [bindC fst]. unfold foundState. rewrite length_seq.
  destruct (Nat.ltb_spec 0 (length (pageHighlights c'))) as [Hpos|Hzero]; [|done].
  destruct (length (pageHighlights c')) as [|n] eqn:Hn; [lia|]. done.
Qed.

Lemma arrayGet_in_range {A} (l : list A) (i : Z) :
  0 ≤ i < Z.of_nat (length l) → ∃ x, arrayGet l i = Some x ∧ l !! Z.to_nat i = Some x.
Proof.
  intros Hi. unfold arrayGet. destruct (Z.ltb_spec i 0); [lia|].
  destruct (lookup_lt_is_Some_2 l (Z.to_nat i)) as [x Hx]; [lia|]. eauto.
Qed.

Lemma nextIndex_range d st :
  searchMatches st ≠ [] →
  0 ≤ nextIndex d st < Z.of_nat (length (searchMatches st)).
Proof.
  intros Hne. unfold nextIndex.
  assert (0 < Z.of_nat (length (searchMatches st))).
  { destruct (searchMatches st); [done|simpl; lia]. }
  destruct (Z.leb_spec (Z.of_nat (length (searchMatches st))) (currentSearchIndex st + d));
    [simpl; lia|].
  destruct (Z.ltb_spec (currentSearchIndex st + d) 0); lia.
Qed.

Lemma navigateSearch_empty d st : searchMatches st = [] → navigateSearch d st = Returns st.
Proof. intros H. unfold navigateSearch. by rewrite H. Qed.

Lemma navigateSearch_spec d st :
  searchMatches st ≠ [] →
  ∃ st' m,
    navigateSearch d st = Returns st' ∧
    arrayGet (searchMatches st) (nextIndex d st) = Some m ∧
    currentSearchIndex st' = nextIndex d st ∧
    searchMatches st' = searchMatches st ∧
    resultsCount (dom st') =
      positionText (nextIndex d st) (Z.of_nat (length (searchMatches st))) ∧
    content (dom st') = updateMatch (classAdd CURRENT) expandBlock m (unmarkedContent st) ∧
    scrollLog st' = scrollLog st ++ [ScrollIntoView m "smooth" "center"].
Proof.
  intros Hne. pose proof (nextIndex_range d st Hne) as Hr.
  destruct (arrayGet_in_range _ _ Hr) as (m & Hm & _).
  unfold navigateSearch.
  destruct (Z.eqb_spec (Z.of_nat (length (searchMatches st))) 0) as [Hz|_]; [lia|].
  assert (Hfirst : ∃ st1,
    (if (0 <=? currentSearchIndex st) &&
        (currentSearchIndex st <? Z.of_nat (length (searchMatches st)))
     then match arrayGet (searchMatches st) (currentSearchIndex st) with
          | None => Throws "TypeError"
          | Some m0 => Returns (withDom (withContent
                (updateMatch (classRemove CURRENT) id m0 (content (dom st))) (dom st)) st)
          end
     else Returns st) = Returns st1 ∧
    st1 = withDom (withContent (unmarkedContent st) (dom st)) st).
  { unfold unmarkedContent.
    destruct (Z.leb_spec 0 (currentSearchIndex st)); simpl.
    - destruct (Z.ltb_spec (currentSearchIndex st) (Z.of_nat (length (searchMatches st)))).
      + destruct (arrayGet_in_range (searchMatches st) (currentSearchIndex st)) as (m0 & -> & _);
          [lia|]. eauto.
      + eexists. split; [done|]. by destruct st as [[]].
    - eexists. split; [done|]. by destruct st as [[]]. }
  destruct Hfirst as (st1 & -> & ->). cbn [bindC].
  fold (nextIndex d st).
  change (searchMatches (withCurrentSearchIndex (nextIndex d st)
            (withDom (withContent (unmarkedContent st) (dom st)) st)))
    with (searchMatches st).
  rewrite Hm. eexists _, m. split; [done|]. done.
Qed.

Lemma pageHighlights_mapBodies_clear c : pageHighlights (mapBodies clearBody c) = [].
Proof.
  unfold pageHighlights. rewrite bodiesOf_mapBodies, map_map.
  induction (bodiesOf c) as [|kids l IH]; [done|]. simpl.
  by rewrite highlightsOfList_clearBody, IH.
Qed.

(** C8: on a query shorter than two characters (the empty one included)
    [performSearch] returns normally with an empty match list, index [-1]
    and an empty result text; the document is what [clearSearch] left, with
    no highlight in it whatever its text, and nothing is scrolled. *)
Theorem performSearch_short_query (host : Host) (term : string) (st : App) :
  (strLength term < 2)%nat →
  ∃ st', performSearch host term st = Returns st' ∧
         searchMatches st' = [] ∧
         currentSearchIndex st' = -1 ∧
         resultsCount (dom st') = "" ∧
         searchTerm st' = term ∧
         content (dom st') = content (dom (clearSearch st)) ∧
         pageHighlights (content (dom st')) = [] ∧
         scrollLog st' = scrollLog st.
Proof.
  intros Hlen. rewrite (performSearch_short host term st Hlen).
  eexists. split; [done|]. do 5 (split; [done|]). split; [|done].
  apply pageHighlights_mapBodies_clear.
Qed.

(** An instance: a query of one character. *)
Lemma performSearch_short_query_witness :
  ∃ st', performSearch stackHost "r" (loadedApp rateDoc 0) = Returns st' ∧
         searchMatches st' = [] ∧
         currentSearchIndex st' = -1 ∧
         resultsCount (dom st') = "" ∧
         searchTerm st' = "r" ∧
         content (dom st') = content (dom (clearSearch (loadedApp rateDoc 0))) ∧
         pageHighlights (content (dom st')) = [] ∧
         scrollLog st' = scrollLog (loadedApp rateDoc 0).
Proof.
  apply (performSearch_short_query stackHost "r" (loadedApp rateDoc 0)).
  vm_compute. lia.
Defined.

(** *** Navigation *)

Lemma navigateTimes_forward k : ∀ st,
  searchMatches st ≠ [] →
  0 ≤ currentSearchIndex st < Z.of_nat (length (searchMatches st)) →
  ∃ st', navigateTimes k 1 st = Returns st' ∧
         searchMatches st' = searchMatches st ∧
         currentSearchIndex st' =
           (currentSearchIndex st + Z.of_nat k) mod Z.of_nat (length (searchMatches st)).
Proof.
  induction k as [|k IH]; intros st Hne Hr.
  - exists st. split; [done|]. split; [done|]. rewrite Z.add_0_r, Z.mod_small; lia.
  - simpl. destruct (navigateSearch_spec 1 st Hne) as (st1 & m & -> & _ & Hi & Hm & _).
    cbn [bindC]. pose proof (nextIndex_range 1 st Hne) as Hr1.
    destruct (IH st1) as (st' & -> & Hm' & Hi'); [by rewrite Hm|by rewrite Hm, Hi|].
    exists st'. split; [done|]. split; [congruence|].
    rewrite Hi', Hm, Hi. unfold nextIndex.
    set (n := Z.of_nat (length (searchMatches st))) in *.
    set (i := currentSearchIndex st) in *.
    destruct (Z.leb_spec n (i + 1)).
    + assert (i + 1 = n) as Hn by lia. simpl.
      replace (i + Z.of_nat (S k)) with (Z.of_nat k + 1 * n) by lia.
      by rewrite Z.mod_add by lia.
    + destruct (Z.ltb_spec (i + 1) 0); [lia|]. f_equal. lia.
Qed.

(** C9: with no match [navigateSearch] returns the state as it is; with
    matches and a direction of [+1] or [-1] it moves the index by the
    direction and wraps it ([matchCount] becomes [0], [-1] becomes
    [matchCount - 1]), keeps the match list, and reports
    [(index + 1) / matchCount]; and [matchCount] forward steps bring the
    index back to where it was. *)
Theorem navigateSearch_wraps (d : Z) (st : App) :
  d = 1 ∨ d = -1 →
  searchMatches st = [] ∨
    0 ≤ currentSearchIndex st < Z.of_nat (length (searchMatches st)) →
  let n := Z.of_nat (length (searchMatches st)) in
  let i := currentSearchIndex st in
  (searchMatches st = [] → navigateSearch d st = Returns st) ∧
  (searchMatches st ≠ [] →
     ∃ st', navigateSearch d st = Returns st' ∧
            currentSearchIndex st' =
              (if i + d =? n then 0 else if i + d =? -1 then n - 1 else i + d) ∧
            searchMatches st' = searchMatches st ∧
            resultsCount (dom st') =
              pretty (currentSearchIndex st' + 1) +:+ " / " +:+ pretty n +:+ " matches") ∧
  (searchMatches st ≠ [] →
     ∃ st', navigateTimes (length (searchMatches st)) 1 st = Returns st' ∧
            currentSearchIndex st' = i ∧
            searchMatches st' = searchMatches st).
Proof.
  intros Hd Hinv n i. split; [apply navigateSearch_empty|]. split.
  - intros Hne. destruct Hinv as [?|Hr]; [done|].
    destruct (navigateSearch_spec d st Hne) as (st' & m & Hnav & _ & Hi & Hm & Hres & _).
    exists st'. split; [done|]. split; [|split; [done|]].
    + rewrite Hi. unfold nextIndex. fold n i.
      destruct (Z.leb_spec n (i + d)), (Z.eqb_spec (i + d) n); try lia; simpl;
        destruct (Z.ltb_spec (i + d) 0), (Z.eqb_spec (i + d) (-1)); lia.
    + by rewrite Hres, Hi.
  - intros Hne. destruct Hinv as [?|Hr]; [done|].
    destruct (navigateTimes_forward (length (searchMatches st)) st Hne Hr)
      as (st' & Hnav & Hm & Hi).
    exists st'. split; [done|]. split; [|done].
    rewrite Hi. fold n i. replace (i + n) with (i + 1 * n) by lia.
    rewrite Z.mod_add by lia. apply Z.mod_small. done.
Qed.

(** An instance: two matches, the first current, one step backward. *)
Lemma navigateSearch_wraps_witness :
  let st := twoRatesFound in
  let n := Z.of_nat (length (searchMatches st)) in
  let i := currentSearchIndex st in
  (searchMatches st = [] → navigateSearch (-1) st = Returns st) ∧
  (searchMatches st ≠ [] →
     ∃ st', navigateSearch (-1) st = Returns st' ∧
            currentSearchIndex st' =
              (if i + -1 =? n then 0 else if i + -1 =? -1 then n - 1 else i + -1) ∧
            searchMatches st' = searchMatches st ∧
            resultsCount (dom st') =
              pretty (currentSearchIndex st' + 1) +:+ " / " +:+ pretty n +:+ " matches") ∧
  (searchMatches st ≠ [] →
     ∃ st', navigateTimes (length (searchMatches st)) 1 st = Returns st' ∧
            currentSearchIndex st' = i ∧
            searchMatches st' = searchMatches st).
Proof.
  apply (navigateSearch_wraps (-1) twoRatesFound).
  - right. reflexivity.
  - right. vm_compute. split; [discriminate|reflexivity].
Defined.

(** The example of the spec: "rate" occurs twice; going backward from the
    first match wraps to the second. *)
Example navigateSearch_backward_from_first :
  searchMatches twoRatesFound = [0%nat; 1%nat] ∧
  currentSearchIndex twoRatesFound = 0 ∧
  ∃ st', navigateSearch (-1) twoRatesFound = Returns st' ∧
         currentSearchIndex st' = 1 ∧
         resultsCount (dom st') = "2 / 2 matches" ∧
         pageHighlights (content (dom st')) = [[HIGHLIGHT]; [HIGHLIGHT; CURRENT]].
Proof. vm_compute. eauto 10. Qed.

(** *** The search invariant *)

Lemma searchInv_empty st :
  searchMatches st = [] → currentSearchIndex st = -1 → searchInv st.
Proof.
  intros Hm Hi. unfold searchInv. rewrite Hm, Hi. split; [done|].
  split; [done|]. split; [done|]. intros i m c Hl. by rewrite lookup_nil in Hl.
Qed.

Lemma searchInv_enumerated st :
  let hl := pageHighlights (content (dom st)) in
  searchMatches st = seq 0 (length hl) →
  0 ≤ currentSearchIndex st < Z.of_nat (length hl) →
  (∀ i c, hl !! i = Some c → (CURRENT ∈ c ↔ Z.of_nat i = currentSearchIndex st)) →
  searchInv st.
Proof.
  intros hl Hm Hr Hmark. unfold searchInv. fold hl. rewrite Hm, length_seq.
  assert (Hne : seq 0 (length hl) ≠ []).
  { destruct (length hl); [lia|done]. }
  split; [split; [lia|done]|]. split; [done|]. split; [done|].
  intros i m c [-> _]%lookup_seq. simpl. apply Hmark.
Qed.

Lemma searchInv_cases st :
  searchInv st →
  let hl := pageHighlights (content (dom st)) in
  (searchMatches st = [] ∧ currentSearchIndex st = -1) ∨
  (searchMatches st = seq 0 (length hl) ∧
   0 ≤ currentSearchIndex st < Z.of_nat (length hl) ∧
   ∀ i c, hl !! i = Some c → (CURRENT ∈ c ↔ Z.of_nat i = currentSearchIndex st)).
Proof.
  intros (Hiff & Hr & Hseq & Hmark) hl.
  destruct (decide (searchMatches st = [])) as [He|Hne].
  - left. split; [done|]. by apply Hiff.
  - right. specialize (Hr Hne). specialize (Hseq Hne). fold hl in Hseq.
    rewrite Hseq, length_seq in Hr. split; [done|]. split; [done|].
    intros i c Hc. apply (Hmark i i c); [|done].
    rewrite Hseq. apply lookup_seq. split; [done|]. by apply lookup_lt_Some in Hc.
Qed.

Lemma itemReplaced_bodies c c' :
  Forall2 itemReplaced c c' → Forall2 replacedList (bodiesOf c) (bodiesOf c').
Proof.
  induction 1 as [|it it' c c' Hit _ IH]; [constructor|].
  destruct it as [t|b], it' as [t'|b']; simpl in Hit; try done.
  destruct Hit as (kids' & -> & Hrep). rewrite !bodiesOf_unit. by constructor.
Qed.

Lemma replacedBodies_fresh L L' :
  Forall2 replacedList L L' →
  concat (map highlightsOfList L) = [] →
  Forall (λ c, c = [HIGHLIGHT]) (concat (map highlightsOfList L')).
Proof.
  induction 1 as [|l l' L L' Hrep _ IH]; [constructor|]. simpl.
  intros [Hl HL]%app_eq_nil. apply Forall_app. split; [|by apply IH].
  by apply (replacedList_fresh l l').
Qed.

Lemma replacedBodies_text L L' :
  Forall2 replacedList L L' → map bodyText L' = map bodyText L.
Proof.
  induction 1 as [|l l' L L' Hrep _ IH]; [done|]. simpl. rewrite IH. f_equal.
  by apply replaced_textContent_both.
Qed.

Lemma replacedBodies_clear L L' :
  Forall2 replacedList L L' → Forall cleanBody L → map clearBody L' = L.
Proof.
  induction 1 as [|l l' L L' Hrep _ IH]; [done|]. intros Hc. inversion Hc; subst. simpl.
  rewrite IH by done. f_equal. by apply replacedList_clearBody.
Qed.

Lemma CURRENT_not_in_fresh : CURRENT ∉ [HIGHLIGHT].
Proof. by intros [=]%list_elem_of_singleton. Qed.

Lemma searchInv_foundState term st c' :
  Forall2 itemReplaced (mapBodies clearBody (content (dom st))) c' →
  searchInv (foundState term st c').
Proof.
  intros Hrep.
  assert (Hfresh : Forall (λ c, c = [HIGHLIGHT]) (pageHighlights c')).
  { apply (replacedBodies_fresh _ _ (itemReplaced_bodies _ _ Hrep)).
    apply pageHighlights_mapBodies_clear. }
  unfold foundState. destruct (Nat.ltb_spec 0 (length (pageHighlights c'))) as [Hpos|Hzero].
  - apply searchInv_enumerated; cbn -[pageHighlights updateMatch];
      rewrite pageHighlights_updateMatch
        by (first [apply keepsHighlight_classAdd | by intros b]);
      rewrite ?length_alter.
    + done.
    + lia.
    + intros i c Hc. destruct i as [|i].
      * rewrite list_lookup_alter_eq in Hc. apply fmap_Some in Hc as (c0 & _ & ->).
        split; [done|]. intros _. apply contains_spec.
        rewrite contains_classAdd, bool_decide_eq_true_2; [apply orb_true_r|done].
      * rewrite list_lookup_alter_ne in Hc by done.
        rewrite Forall_forall in Hfresh.
        rewrite (Hfresh c) by (by eapply list_elem_of_lookup_2).
        split; [intros H; by apply CURRENT_not_in_fresh in H|lia].
  - apply searchInv_empty; [|done]. simpl.
    by replace (length (pageHighlights c')) with 0%nat by lia.
Qed.

Lemma searchInv_navigateSearch d st :
  searchInv st → ∃ st', navigateSearch d st = Returns st' ∧ searchInv st'.
Proof.
  intros Hinv. destruct (searchInv_cases st Hinv) as [[Hm Hi]|(Hm & Hr & Hmark)].
  - exists st. split; [by apply navigateSearch_empty|done].
  - set (hl := pageHighlights (content (dom st))) in *.
    assert (Hne : searchMatches st ≠ []).
    { rewrite Hm. destruct (length hl); [lia|done]. }
    destruct (navigateSearch_spec d st Hne) as (st' & m & Hnav & Hget & Hi' & Hm' & _ & Hc & _).
    pose proof (nextIndex_range d st Hne) as Hr'. rewrite Hm, length_seq in Hr'.
    assert (Hmn : m = Z.to_nat (nextIndex d st)).
    { unfold arrayGet in Hget. destruct (Z.ltb_spec (nextIndex d st) 0); [lia|].
      rewrite Hm in Hget. apply lookup_seq in Hget as [-> _]. done. }
    assert (Hun : unmarkedContent st =
                  updateMatch (classRemove CURRENT) id (Z.to_nat (currentSearchIndex st))
                              (content (dom st))).
    { unfold unmarkedContent. rewrite Hm, length_seq.
      destruct (Z.leb_spec 0 (currentSearchIndex st)); [|lia].
      destruct (Z.ltb_spec (currentSearchIndex st) (Z.of_nat (length hl))); [|lia]. simpl.
      unfold arrayGet. destruct (Z.ltb_spec (currentSearchIndex st) 0); [lia|].
      rewrite lookup_seq_lt by lia. done. }
    assert (Hhl : pageHighlights (content (dom st')) =
                  alter (classAdd CURRENT) m
                    (alter (classRemove CURRENT) (Z.to_nat (currentSearchIndex st)) hl)).
    { rewrite Hc, Hun.
      rewrite pageHighlights_updateMatch by (first [apply keepsHighlight_classAdd | by intros b]).
      rewrite pageHighlights_updateMatch by (first [apply keepsHighlight_classRemove | by intros b]).
      done. }
    exists st'. split; [done|]. apply searchInv_enumerated; rewrite Hhl, ?length_alter.
    + by rewrite Hm'.
    + rewrite Hi'. done.
    + intros i c Hl. rewrite Hi'. destruct (decide (i = m)) as [->|Hneq].
      * rewrite list_lookup_alter_eq in Hl. apply fmap_Some in Hl as (c0 & _ & ->).
        split; [lia|]. intros _. apply contains_spec.
        rewrite contains_classAdd, bool_decide_eq_true_2; [apply orb_true_r|done].
      * rewrite list_lookup_alter_ne in Hl by done.
        split; [|lia]. intros Hcur. exfalso.
        destruct (decide (i = Z.to_nat (currentSearchIndex st))) as [->|Hni].
        -- rewrite list_lookup_alter_eq in Hl. apply fmap_Some in Hl as (c0 & _ & ->).
           apply contains_spec in Hcur.
           rewrite contains_classRemove, bool_decide_eq_true_2 in Hcur by done.
           by rewrite andb_false_r in Hcur.
        -- rewrite list_lookup_alter_ne in Hl by done.
           apply (Hmark i c Hl) in Hcur. lia.
Qed.

Lemma searchInv_clearSearch st : searchInv (clearSearch st).
Proof. by apply searchInv_empty. Qed.

Lemma searchInv_performSearch host term st :
  ∃ st', performSearch host term st = Returns st' ∧ searchInv st'.
Proof.
  destruct (Nat.lt_ge_cases (strLength term) 2) as [Hshort|Hlong].
  - rewrite (performSearch_short host term st Hshort). eexists. split; [done|].
    by apply searchInv_empty.
  - destruct (performSearch_long host term st Hlong) as (c' & Hrep & ->).
    eexists. split; [done|]. by apply searchInv_foundState.
Qed.

Lemma searchInv_loadedApp c y : searchInv (loadedApp c y).
Proof. by apply searchInv_empty. Qed.

(** C10: each of the three search operations returns, and from a consistent
    search state it leads to a consistent one: the index is [-1] exactly
    when the match list is empty and otherwise lies between [0] and
    [matchCount - 1], and the mark [current] is on the match at the index
    and on no other match.  ([performSearch] and [clearSearch] establish
    this from any state; the state after loading satisfies it.) *)
Theorem search_operations_keep_searchInv (host : Host) (term : string) (d : Z) (st : App) :
  searchInv st →
  (∃ st', performSearch host term st = Returns st' ∧ searchInv st') ∧
  (∃ st', navigateSearch d st = Returns st' ∧ searchInv st') ∧
  searchInv (clearSearch st).
Proof.
  intros Hinv. split; [apply searchInv_performSearch|].
  split; [by apply searchInv_navigateSearch|apply searchInv_clearSearch].
Qed.

(** An instance: the state with two matches found. *)
Lemma search_operations_keep_searchInv_witness :
  (∃ st', performSearch stackHost "shall" twoRatesFound = Returns st' ∧ searchInv st') ∧
  (∃ st', navigateSearch 1 twoRatesFound = Returns st' ∧ searchInv st') ∧
  searchInv (clearSearch twoRatesFound).
Proof.
  apply (search_operations_keep_searchInv stackHost "shall" 1 twoRatesFound).
  unfold searchInv. vm_compute. split; [split; discriminate|].
  split; [intros _; split; [discriminate|reflexivity]|]. split; [done|].
  intros [|[|[|i]]] m c [= <-]; (intros [= <-] || (intros; discriminate));
    split; first [done | by intros ?%list_elem_of_In; simpl in *; intuition discriminate
                 | by intros _; apply list_elem_of_In; simpl; auto ].
Defined.

(** *** Search followed by clear *)

Lemma map_clearBody_text L : map bodyText (map clearBody L) = map bodyText L.
Proof.
  rewrite map_map. apply map_ext. intros kids. apply textContent_clearBody.
Qed.

Lemma map_clearBody_clean L : Forall cleanBody L → map clearBody L = L.
Proof.
  induction 1 as [|kids L [_ Hk] _ IH]; [done|]. simpl.
  by rewrite IH, clearBody_clean.
Qed.

Lemma foundState_bodies term st c' :
  map clearBody (bodiesOf (content (dom (foundState term st c')))) = map clearBody (bodiesOf c') ∧
  map bodyText (bodiesOf (content (dom (foundState term st c')))) = map bodyText (bodiesOf c').
Proof.
  unfold foundState. destruct (0 <? length (pageHighlights c'))%nat; [|done].
  apply bodiesOf_updateMatch; [apply keepsHighlight_classAdd|by intros b].
Qed.

(** C3: [performSearch] returns; it leaves the text of every body what it
    was (the fragments it puts in place of a text node spell that node's
    text); after the [clearSearch] that follows, the text of every body is
    again what it was and the document holds no highlight element; and when
    the bodies were as the HTML parser builds them and as [clearSearch]
    leaves them (normalised, without highlight elements), the body trees are
    exactly the ones from before the search. *)
Theorem search_then_clear_restores (host : Host) (term : string) (st : App) :
  ∃ st1, performSearch host term st = Returns st1 ∧
    map bodyText (bodiesOf (content (dom st1))) = map bodyText (bodiesOf (content (dom st))) ∧
    map bodyText (bodiesOf (content (dom (clearSearch st1))))
      = map bodyText (bodiesOf (content (dom st))) ∧
    pageHighlights (content (dom (clearSearch st1))) = [] ∧
    (Forall cleanBody (bodiesOf (content (dom st))) →
     bodiesOf (content (dom (clearSearch st1))) = bodiesOf (content (dom st))).
Proof.
  destruct (Nat.lt_ge_cases (strLength term) 2) as [Hshort|Hlong].
  - rewrite (performSearch_short host term st Hshort). eexists. split; [done|].
    cbn -[mapBodies bodyText clearBody pageHighlights bodiesOf].
    rewrite !bodiesOf_mapBodies, !map_clearBody_text.
    split; [done|]. split; [done|]. split; [apply pageHighlights_mapBodies_clear|].
    intros Hclean. by rewrite !map_clearBody_clean by (by rewrite ?map_clearBody_clean).
  - destruct (performSearch_long host term st Hlong) as (c' & Hrep & ->).
    eexists. split; [done|].
    apply itemReplaced_bodies in Hrep. rewrite bodiesOf_mapBodies in Hrep.
    destruct (foundState_bodies term st c') as [Hclear Htext].
    change (content (dom (clearSearch (foundState term st c'))))
      with (mapBodies clearBody (content (dom (foundState term st c')))).
    rewrite bodiesOf_mapBodies, map_clearBody_text, Htext, Hclear.
    rewrite (replacedBodies_text _ _ Hrep), map_clearBody_text.
    split; [done|]. split; [done|]. split; [apply pageHighlights_mapBodies_clear|].
    intros Hclean. rewrite (map_clearBody_clean _ Hclean) in Hrep.
    by apply replacedBodies_clear.
Qed.

(** An instance: a parsed body with two occurrences of the query. *)
Lemma search_then_clear_restores_witness :
  ∃ st1, performSearch stackHost "rate" (loadedApp twoRatesDoc 0) = Returns st1 ∧
    map bodyText (bodiesOf (content (dom st1)))
      = map bodyText (bodiesOf (content (dom (loadedApp twoRatesDoc 0)))) ∧
    map bodyText (bodiesOf (content (dom (clearSearch st1))))
      = map bodyText (bodiesOf (content (dom (loadedApp twoRatesDoc 0)))) ∧
    pageHighlights (content (dom (clearSearch st1))) = [] ∧
    bodiesOf (content (dom (clearSearch st1))) = bodiesOf (content (dom (loadedApp twoRatesDoc 0))).
Proof.
  destruct (search_then_clear_restores stackHost "rate" (loadedApp twoRatesDoc 0))
    as (st1 & Hs & Ht1 & Ht2 & Hhl & Hshape).
  exists st1. do 4 (split; [assumption|]). apply Hshape.
  repeat constructor.
Defined.

(** The fragments of the spec's example. *)
Example performSearch_two_rates :
  bodiesOf (content (dom twoRatesFound)) =
    [[Elem ["norm"] None
        [Text "the "; Elem [HIGHLIGHT; CURRENT] None [Text "rate"];
         Text " shall be 10% the "; Elem [HIGHLIGHT] None [Text "rate"]]]] ∧
  resultsCount (dom twoRatesFound) = "2 matches found (Enter to navigate)" ∧
  bodiesOf (content (dom (clearSearch twoRatesFound))) = bodiesOf twoRatesDoc.
Proof. vm_compute. done. Qed.

(** *** Occurrences the walk passes over *)

(** C4, at the failing input: the body holds the paragraphs "the rate" and
    "rate".  [regex.test] on the first text node leaves [lastIndex] at 8; the
    test on the second node starts there, beyond its end, fails and resets
    [lastIndex]; the node is rejected, although the query occurs in it at
    position 0 and it lies in no excluded region.  One match is reported
    and the second paragraph is left without a highlight. *)
Theorem performSearch_misses_occurrence :
  matchHere asciiCanonicalize "rate" "rate" = true ∧
  walkTextNodesList asciiCanonicalize false [paragraph "the rate"; paragraph "rate"]
                    (newRegExp "rate") = ([true; false], MkRegExp "rate" 0) ∧
  ∃ st', performSearch stackHost "rate" (loadedApp rateDoc 0) = Returns st' ∧
         bodiesOf (content (dom st')) =
           [[Elem ["norm"] None [Text "the "; Elem [HIGHLIGHT; CURRENT] None [Text "rate"]];
             Elem ["norm"] None [Text "rate"]]] ∧
         searchMatches st' = [0%nat] ∧
         resultsCount (dom st') = "1 match found (Enter to navigate)".
Proof. vm_compute. eauto 10. Qed.

(** Inside an excluded region the walk accepts no text node and does not
    touch the regex. *)
Lemma walkTextNodes_excluded canon n :
  ∀ r, ∃ k, walkTextNodes canon true n r = (repeat false k, r).
Proof.
  induction n as [s|c d kids IH] using node_forall_ind; intros r.
  - by exists 1%nat.
  - rewrite walkTextNodes_elem. simpl.
    induction IH as [|x ks Hx _ IHks]; simpl.
    + by exists 0%nat.
    + destruct (Hx r) as [k1 ->]. destruct IHks as [k2 ->].
      exists (k1 + k2)%nat. by rewrite repeat_app.
Qed.

(* ===================================================================== *)
(** ** Further properties *)
(* ===================================================================== *)

(** *** clearSearch and a search that follows it *)

Lemma clearBody_idempotent kids : clearBody (clearBody kids) = clearBody kids.
Proof. apply clearBody_clean, highlightsOfList_clearBody. Qed.

Lemma mapBodies_clearBody_idempotent c :
  mapBodies clearBody (mapBodies clearBody c) = mapBodies clearBody c.
Proof.
  induction c as [|[t|b] c IH]; simpl; [done|by rewrite IH|].
  rewrite IH. do 2 f_equal. destruct b. unfold withBody. simpl.
  by rewrite clearBody_idempotent.
Qed.

(** [clearSearch] is idempotent, and since [performSearch] begins with it, a
    search gives the same result whether or not the previous search was
    cleared first. *)
Theorem clearSearch_absorbed (st : App) :
  clearSearch (clearSearch st) = clearSearch st ∧
  ∀ host term, performSearch host term (clearSearch st) = performSearch host term st.
Proof.
  assert (Hidem : clearSearch (clearSearch st) = clearSearch st).
  { unfold clearSearch. destruct st as [[btns nb toc c rc] af t m i nf sb y log].
    cbn -[mapBodies clearBody]. by rewrite mapBodies_clearBody_idempotent. }
  split; [done|]. intros host term. unfold performSearch. by rewrite Hidem.
Qed.

(** *** The resolver on any non-empty set *)

(** On every non-empty array [lowestDac] returns an element of the array,
    namely the first one among those of lowest rank: what stands before it
    ranks strictly after it, what stands behind it does not rank before it.
    Tags outside the catalog all have rank 999. *)
Theorem lowestDac_first_of_lowest_rank (l : list string) :
  l ≠ [] →
  ∃ r pre post,
    l = pre ++ r :: post ∧
    lowestDac (Some l) = Returns (JString r) ∧
    (∀ u, u ∈ pre → dacRank r < dacRank u) ∧
    (∀ u, u ∈ post → dacRank r ≤ dacRank u).
Proof.
  intros Hne.
  assert (H : ∃ r pre post, l = pre ++ r :: post ∧
                head (arraySort compareDac l) = Some r ∧
                (∀ u, u ∈ pre → dacRank r < dacRank u) ∧
                (∀ u, u ∈ post → dacRank r ≤ dacRank u)).
  { induction l as [|x l IH]; [done|]. clear Hne.
    simpl. rewrite sortInsert_head. destruct l as [|y l].
    - exists x, [], []. simpl. split; [done|]. split; [done|].
      split; intros u Hu; by apply elem_of_nil in Hu.
    - destruct IH as (r & pre & post & Hl & Hh & Hpre & Hpost); [done|].
      rewrite Hh. unfold compareDac.
      destruct (Z.ltb_spec 0 (dacRank x - dacRank r)).
      + exists r, (x :: pre), post. rewrite Hl. split; [done|]. split; [done|].
        split; [|done]. intros u [->|Hu]%elem_of_cons; [lia|by apply Hpre].
      + exists x, [], (y :: l). split; [done|]. split; [done|].
        split; [intros u Hu; by apply elem_of_nil in Hu|].
        intros u Hu. rewrite Hl in Hu.
        apply elem_of_app in Hu as [Hu|[->|Hu]%elem_of_cons].
        * specialize (Hpre u Hu). lia.
        * lia.
        * specialize (Hpost u Hu). lia. }
  destruct H as (r & pre & post & Hl & Hh & Hpre & Hpost).
  exists r, pre, post. split; [done|]. split; [by apply lowestDac_head|done].
Qed.

(** An instance: two unknown tags around a catalog tag and its duplicate. *)
Lemma lowestDac_first_of_lowest_rank_witness :
  ∃ r pre post,
    ["Corrigendum"; "DAC3"; "Erratum"; "DAC3"] = pre ++ r :: post ∧
    lowestDac (Some ["Corrigendum"; "DAC3"; "Erratum"; "DAC3"]) = Returns (JString r) ∧
    (∀ u, u ∈ pre → dacRank r < dacRank u) ∧
    (∀ u, u ∈ post → dacRank r ≤ dacRank u).
Proof.
  apply (lowestDac_first_of_lowest_rank ["Corrigendum"; "DAC3"; "Erratum"; "DAC3"]).
  discriminate.
Defined.

(** *** Stepping forward and back *)

(** From a consistent search state with matches, one step forward followed
    by one step backward (and the other way round) returns, ends on the
    index it started from, and leaves the mark [current] on that match and
    on no other. *)
Theorem navigateSearch_there_and_back (d : Z) (st : App) :
  d = 1 ∨ d = -1 →
  searchInv st →
  searchMatches st ≠ [] →
  ∃ st1 st2,
    navigateSearch d st = Returns st1 ∧
    navigateSearch (- d) st1 = Returns st2 ∧
    currentSearchIndex st2 = currentSearchIndex st ∧
    searchMatches st2 = searchMatches st ∧
    ∀ i c, pageHighlights (content (dom st2)) !! i = Some c →
           (CURRENT ∈ c ↔ Z.of_nat i = currentSearchIndex st).
Proof.
  intros Hd Hinv Hne.
  destruct (searchInv_navigateSearch d st Hinv) as (st1 & Hn1 & Hinv1).
  destruct (navigateSearch_spec d st Hne) as (st1' & m1 & Hn1' & _ & Hi1 & Hm1 & _).
  rewrite Hn1 in Hn1'. injection Hn1' as <-.
  assert (Hne1 : searchMatches st1 ≠ []) by (by rewrite Hm1).
  destruct (searchInv_navigateSearch (- d) st1 Hinv1) as (st2 & Hn2 & Hinv2).
  destruct (navigateSearch_spec (- d) st1 Hne1) as (st2' & m2 & Hn2' & _ & Hi2 & Hm2 & _).
  rewrite Hn2 in Hn2'. injection Hn2' as <-.
  assert (Hr : 0 ≤ currentSearchIndex st < Z.of_nat (length (searchMatches st))).
  { by apply Hinv. }
  assert (Hback : currentSearchIndex st2 = currentSearchIndex st).
  { rewrite Hi2. unfold nextIndex. rewrite Hi1, Hm1. unfold nextIndex.
    set (n := Z.of_nat (length (searchMatches st))) in *.
    set (i := currentSearchIndex st) in *.
    destruct (decide (i + 1 = n)), (decide (i = 0)), Hd as [-> | ->]; simpl;
      repeat match goal with
             | |- context [Z.leb ?a ?b] =>
                 first [rewrite (proj2 (Z.leb_le a b)) by lia
                       |rewrite (proj2 (Z.leb_gt a b)) by lia]
             | |- context [Z.ltb ?a ?b] =>
                 first [rewrite (proj2 (Z.ltb_lt a b)) by lia
                       |rewrite (proj2 (Z.ltb_ge a b)) by lia]
             end; lia. }
  exists st1, st2. do 2 (split; [done|]). split; [done|]. split; [congruence|].
  destruct (searchInv_cases st2 Hinv2) as [[Hm Hi]|(_ & _ & Hmark)].
  - rewrite Hm2, Hm1 in Hm. done.
  - intros i c Hc. rewrite <- Hback. by apply Hmark.
Qed.

(** An instance: the two matches of the example, one step back and forth. *)
Lemma navigateSearch_there_and_back_witness :
  ∃ st1 st2,
    navigateSearch (-1) twoRatesFound = Returns st1 ∧
    navigateSearch (- -1) st1 = Returns st2 ∧
    currentSearchIndex st2 = currentSearchIndex twoRatesFound ∧
    searchMatches st2 = searchMatches twoRatesFound ∧
    ∀ i c, pageHighlights (content (dom st2)) !! i = Some c →
           (CURRENT ∈ c ↔ Z.of_nat i = currentSearchIndex twoRatesFound).
Proof.
  apply (navigateSearch_there_and_back (-1) twoRatesFound).
  - right. reflexivity.
  - unfold twoRatesFound.
    destruct (searchInv_performSearch stackHost "rate" (loadedApp twoRatesDoc 0))
      as (st' & Hs & Hinv).
    rewrite Hs. exact Hinv.
  - vm_compute. discriminate.
Defined.

(** *** The filter applied twice *)

Lemma classAdd_idempotent name c : classAdd name (classAdd name c) = classAdd name c.
Proof.
  unfold classAdd at 1. rewrite contains_classAdd, bool_decide_eq_true_2 by done.
  by rewrite orb_true_r.
Qed.

Lemma classRemove_idempotent name c : classRemove name (classRemove name c) = classRemove name c.
Proof.
  unfold classRemove. induction c as [|x c IH]; [done|].
  rewrite (filter_cons (λ y, y ≠ name) x c). destruct (decide (x ≠ name)) as [Hx|Hx].
  - rewrite (filter_cons (λ y, y ≠ name) x). rewrite decide_True by done. by rewrite IH.
  - done.
Qed.

Lemma classToggleForce_idempotent name force c :
  classToggleForce name force (classToggleForce name force c) = classToggleForce name force c.
Proof. destruct force; [apply classAdd_idempotent|apply classRemove_idempotent]. Qed.

Lemma contains_classToggleForce_other name force c x :
  x ≠ name → contains (classToggleForce name force c) x = contains c x.
Proof.
  intros Hx. destruct force; simpl.
  - rewrite contains_classAdd, bool_decide_eq_false_2 by done. apply orb_false_r.
  - rewrite contains_classRemove, bool_decide_eq_false_2 by done. apply andb_true_r.
Qed.

Lemma filterZones_idempotent allActive af n :
  filterZones allActive af (filterZones allActive af n) = filterZones allActive af n.
Proof.
  induction n as [s|c d kids IH] using node_forall_ind; simpl; [done|]. f_equal.
  - destruct (contains c "dac-zone") eqn:Hc; [|by rewrite Hc].
    rewrite contains_classToggleForce_other, Hc by discriminate.
    apply classToggleForce_idempotent.
  - rewrite map_map. induction IH as [|k ks Hk _ IHks]; [done|]. simpl. by rewrite Hk, IHks.
Qed.

Lemma filterItem_idempotent allActive af it :
  filterItem allActive af (filterItem allActive af it) = filterItem allActive af it.
Proof.
  destruct it as [t|b]; [done|]. destruct b as [k id src cl disp body].
  assert (Hb : map (filterZones allActive af) (map (filterZones allActive af) body)
               = map (filterZones allActive af) body).
  { rewrite map_map. apply map_ext. intros n. apply filterZones_idempotent. }
  destruct k; unfold filterItem, withBody, withClasses, withDisplay; simpl; rewrite Hb.
  - by rewrite classToggleForce_idempotent.
  - done.
Qed.

Lemma filterToc_idempotent allActive af e :
  filterToc allActive af (filterToc allActive af e) = filterToc allActive af e.
Proof. unfold filterToc. simpl. by rewrite classToggleForce_idempotent. Qed.

(** Applying the filter a second time with the buttons unchanged changes
    nothing in the document and nothing in the active set. *)
Theorem updateFilters_idempotent (host : Host) (st : App) :
  dom (updateFilters host (updateFilters host st)) = dom (updateFilters host st) ∧
  activeFilters (updateFilters host (updateFilters host st))
    = activeFilters (updateFilters host st).
Proof.
  rewrite !updateFilters_activeFilters.
  assert (Hb : readActiveFilters (dom (updateFilters host st)) = readActiveFilters (dom st)).
  { unfold readActiveFilters. by rewrite updateFilters_filterBtns. }
  split; [|done].
  rewrite (updateFilters_dom host (updateFilters host st)). cbn zeta. rewrite Hb.
  rewrite (updateFilters_dom host st). cbn zeta.
  set (af := readActiveFilters (dom st)).
  set (a := bool_decide (size af = length ALL_DACS)).
  unfold withTocEntries, withContent. simpl. f_equal.
  - rewrite map_map. apply map_ext. intros e. apply filterToc_idempotent.
  - rewrite map_map. apply map_ext. intros it. apply filterItem_idempotent.
Qed.

(** *** Zones inside a unit *)

Lemma zonesOf_filterZones allActive af n :
  zonesOf (filterZones allActive af n) =
  map (λ z, (fst z,
             classToggleForce "dac-zone-hidden"
               (negb (allActive ||
                      match fst z with Some dac => bool_decide (dac ∈ af) | None => false end))
               (snd z)))
      (zonesOf n).
Proof.
  induction n as [s|c d kids IH] using node_forall_ind; simpl; [done|].
  destruct (contains c "dac-zone") eqn:Hc.
  - rewrite contains_classToggleForce_other, Hc by discriminate. simpl. f_equal.
    rewrite map_map. induction IH as [|k ks Hk _ IHks]; [done|]. simpl.
    by rewrite Hk, IHks, map_app.
  - rewrite Hc. simpl.
    rewrite map_map. induction IH as [|k ks Hk _ IHks]; [done|]. simpl.
    by rewrite Hk, IHks, map_app.
Qed.

Lemma bodiesOf_filterItem allActive af c :
  bodiesOf (map (filterItem allActive af) c)
  = map (map (filterZones allActive af)) (bodiesOf c).
Proof.
  induction c as [|[t|b] c IH]; [done|apply IH|].
  rewrite bodiesOf_unit. simpl map at 2. rewrite <- IH.
  destruct b as [k id src cl disp body]. by destruct k.
Qed.

Lemma pageZones_filterItem allActive af c :
  pageZones (map (filterItem allActive af) c) =
  map (λ z, (fst z,
             classToggleForce "dac-zone-hidden"
               (negb (allActive ||
                      match fst z with Some dac => bool_decide (dac ∈ af) | None => false end))
               (snd z)))
      (pageZones c).
Proof.
  unfold pageZones. rewrite bodiesOf_filterItem.
  induction (bodiesOf c) as [|body L IH]; [done|]. simpl. rewrite IH, map_app. f_equal.
  induction body as [|n body IHb]; [done|]. simpl.
  by rewrite zonesOf_filterZones, IHb, map_app.
Qed.

(** After [updateFilters] the zones of the document are the ones from
    before, in the same order and with the same [data-dac]; only the class
    [dac-zone-hidden] may differ, and a zone is shown exactly when its tag is
    active or every catalog tag is active (a zone without a tag only in the
    latter case). *)
Theorem updateFilters_zones (host : Host) (st : App) :
  map btnDac (filterBtns (dom st)) = ALL_DACS →
  let st' := updateFilters host st in
  let active := activeFilters st' in
  Forall2 (λ z z',
             fst z' = fst z ∧
             sameClassesBut "dac-zone-hidden" (snd z) (snd z') ∧
             (zoneShown z' = true ↔
              (∃ dac, fst z = Some dac ∧ dac ∈ active) ∨ (∀ t, t ∈ ALL_DACS → t ∈ active)))
          (pageZones (content (dom st))) (pageZones (content (dom st'))).
Proof.
  intros Hwf st' active. subst st' active.
  rewrite updateFilters_activeFilters, updateFilters_dom. cbn zeta.
  change (content (withTocEntries ?t (withContent ?c ?p))) with c.
  rewrite pageZones_filterItem.
  pose proof (allActive_spec _ Hwf) as Hall.
  set (af := readActiveFilters (dom st)) in *.
  apply Forall2_fmap_r, Forall_Forall2_diag, Forall_forall. intros [d c] _. simpl.
  split; [done|]. split.
  - intros x Hx. by apply contains_classToggleForce_other.
  - unfold zoneShown. simpl. rewrite contains_classToggleForce, negb_involutive.
    rewrite orb_true_iff, bool_decide_eq_true, Hall. destruct d as [dac|].
    + rewrite bool_decide_eq_true. split.
      * intros [?|?]; [by right|left; eauto].
      * intros [(dac' & [= <-] & ?)|?]; [by right|by left].
    + split; [intros [?|?]; [by right|done]|].
      intros [(dac' & [=] & _)|?]. by left.
Qed.

(** An instance: a zone of [DAC7] inside an article of [DAC1], with [DAC7]
    switched off. *)
Lemma updateFilters_zones_witness :
  let st := afterToggleOff "DAC7"
              (loadedApp [article "a1" ["DAC1"; "DAC7"]
                            [Elem ["dac-zone"] (Some "DAC7") [Text "inserted"];
                             Elem ["dac-zone"] (Some "DAC1") [Text "original"]]] 0) in
  let st' := updateFilters stackHost st in
  let active := activeFilters st' in
  Forall2 (λ z z',
             fst z' = fst z ∧
             sameClassesBut "dac-zone-hidden" (snd z) (snd z') ∧
             (zoneShown z' = true ↔
              (∃ dac, fst z = Some dac ∧ dac ∈ active) ∨ (∀ t, t ∈ ALL_DACS → t ∈ active)))
          (pageZones (content (dom st))) (pageZones (content (dom st'))).
Proof.
  apply (updateFilters_zones stackHost
    (afterToggleOff "DAC7"
       (loadedApp [article "a1" ["DAC1"; "DAC7"]
                     [Elem ["dac-zone"] (Some "DAC7") [Text "inserted"];
                      Elem ["dac-zone"] (Some "DAC1") [Text "original"]]] 0))).
  vm_compute. reflexivity.
Defined.

(** *** The filter and the search state *)

Lemma textContent_filterZones allActive af n :
  textContent (filterZones allActive af n) = textContent n.
Proof.
  induction n as [s|c d kids IH] using node_forall_ind; simpl; [done|].
  by rewrite map_textContent_ext.
Qed.

Lemma highlightsOf_filterZones allActive af n :
  Forall2 (sameClassesBut "dac-zone-hidden")
          (highlightsOf n) (highlightsOf (filterZones allActive af n)).
Proof.
  induction n as [s|c d kids IH] using node_forall_ind; simpl; [constructor|].
  set (c' := if contains c "dac-zone" then _ else c).
  assert (Hc : sameClassesBut "dac-zone-hidden" c c').
  { intros x Hx. subst c'. destruct (contains c "dac-zone"); [|done].
    by apply contains_classToggleForce_other. }
  apply Forall2_app.
  - rewrite (Hc HIGHLIGHT) by discriminate.
    destruct (contains c HIGHLIGHT); repeat constructor. done.
  - induction IH as [|k ks Hk _ IHks]; [constructor|]. simpl. by apply Forall2_app.
Qed.

Lemma pageHighlights_filterItem allActive af c :
  Forall2 (sameClassesBut "dac-zone-hidden")
          (pageHighlights c) (pageHighlights (map (filterItem allActive af) c)).
Proof.
  unfold pageHighlights. rewrite bodiesOf_filterItem.
  induction (bodiesOf c) as [|body L IH]; [constructor|]. simpl.
  apply Forall2_app; [|done]. clear IH.
  induction body as [|n body IHb]; [constructor|].
  change (highlightsOfList (n :: body)) with (highlightsOf n ++ highlightsOfList body).
  simpl map.
  change (highlightsOfList (filterZones allActive af n :: map (filterZones allActive af) body))
    with (highlightsOf (filterZones allActive af n)
          ++ highlightsOfList (map (filterZones allActive af) body)).
  apply Forall2_app; [apply highlightsOf_filterZones|done].
Qed.

Lemma updateFilters_search_fields host st :
  searchMatches (updateFilters host st) = searchMatches st ∧
  currentSearchIndex (updateFilters host st) = currentSearchIndex st ∧
  searchTerm (updateFilters host st) = searchTerm st.
Proof.
  unfold updateFilters. destruct (pickAnchor _ _ _ _ _ _); [|done].
  unfold scrollTo. simpl. done.
Qed.

(** [updateFilters] leaves the search alone: the match list, the current
    index and the search term are unchanged, the text of every body is
    unchanged, and a consistent search state stays consistent (the mark
    [current] stays where it was). *)
Theorem updateFilters_keeps_search (host : Host) (st : App) :
  searchInv st →
  let st' := updateFilters host st in
  searchMatches st' = searchMatches st ∧
  currentSearchIndex st' = currentSearchIndex st ∧
  searchTerm st' = searchTerm st ∧
  map bodyText (bodiesOf (content (dom st'))) = map bodyText (bodiesOf (content (dom st))) ∧
  searchInv st'.
Proof.
  intros Hinv st'. subst st'.
  destruct (updateFilters_search_fields host st) as (Hm & Hi & Ht).
  do 3 (split; [done|]).
  rewrite updateFilters_dom. cbn zeta.
  change (content (withTocEntries ?t (withContent ?c ?p))) with c.
  set (af := readActiveFilters (dom st)).
  set (a := bool_decide (size af = length ALL_DACS)).
  pose proof (pageHighlights_filterItem a af (content (dom st))) as Hhl.
  split.
  - rewrite bodiesOf_filterItem, map_map. apply map_ext. intros body.
    unfold bodyText. f_equal. rewrite map_map. apply map_ext. intros n.
    apply textContent_filterZones.
  - destruct Hinv as (Hiff & Hr & Hseq & Hmark).
    unfold searchInv. rewrite Hm, Hi.
    change (content (dom (updateFilters host st)))
      with (content (dom (updateFilters host st))).
    rewrite updateFilters_dom. cbn zeta.
    change (content (withTocEntries ?t (withContent ?c ?p))) with c.
    fold af a. split; [done|]. split; [done|]. split.
    + intros Hne. rewrite (Hseq Hne). f_equal. by eapply Forall2_length.
    + intros i m c' Hl Hc'.
      destruct (Forall2_lookup_r _ _ _ _ _ Hhl Hc') as (c & Hc & Hsame).
      rewrite <- (Hmark i m c Hl Hc).
      rewrite <- !contains_spec. by rewrite (Hsame CURRENT).
Qed.

(** An instance: the filter applied while two matches are found. *)
Lemma updateFilters_keeps_search_witness :
  let st' := updateFilters stackHost twoRatesFound in
  searchMatches st' = searchMatches twoRatesFound ∧
  currentSearchIndex st' = currentSearchIndex twoRatesFound ∧
  searchTerm st' = searchTerm twoRatesFound ∧
  map bodyText (bodiesOf (content (dom st')))
    = map bodyText (bodiesOf (content (dom twoRatesFound))) ∧
  searchInv st'.
Proof.
  apply (updateFilters_keeps_search stackHost twoRatesFound).
  unfold twoRatesFound.
  destruct (searchInv_performSearch stackHost "rate" (loadedApp twoRatesDoc 0))
    as (st' & Hs & Hinv).
  rewrite Hs. exact Hinv.
Defined.

(** *** Show all and the Norway preset *)

Lemma unitsOf_filterItem a af c :
  Forall2 (λ b b', blockSources b' = blockSources b ∧ blockId b' = blockId b ∧
                   blockShown b' = unitVisible a af (blockSources b))
          (unitsOf c) (unitsOf (map (filterItem a af) c)).
Proof.
  induction c as [|[t|b] c IH]; [constructor|apply IH|].
  destruct (filterItem_shown a af b) as (b' & Hb' & Hs & _ & Hid & Hshown).
  change (map (filterItem a af) (Unit b :: c))
    with (filterItem a af (Unit b) :: map (filterItem a af) c).
  rewrite Hb'.
  change (unitsOf (Unit b :: c)) with (b :: unitsOf c).
  change (unitsOf (Unit b' :: map (filterItem a af) c))
    with (b' :: unitsOf (map (filterItem a af) c)).
  by constructor.
Qed.

Lemma updateFilters_units host st :
  let af := readActiveFilters (dom st) in
  let a := bool_decide (size af = length ALL_DACS) in
  Forall2 (λ b b', blockSources b' = blockSources b ∧ blockId b' = blockId b ∧
                   blockShown b' = unitVisible a af (blockSources b))
          (unitsOf (content (dom st)))
          (unitsOf (content (dom (updateFilters host st)))).
Proof.
  intros af a. rewrite updateFilters_dom. apply unitsOf_filterItem.
Qed.

Lemma readActiveFilters_all p :
  map btnDac (filterBtns p) = ALL_DACS →
  (∀ b, b ∈ filterBtns p → btnActive b = true) →
  bool_decide (size (readActiveFilters p) = length ALL_DACS) = true.
Proof.
  intros Hwf Hact. apply bool_decide_eq_true, allActive_spec; [done|].
  intros t Ht. apply readActiveFilters_spec. rewrite <- Hwf in Ht.
  apply list_elem_of_In, in_map_iff in Ht as (b & <- & Hb%list_elem_of_In). eauto.
Qed.

Lemma resetToShowAll_all_active st :
  map btnDac (filterBtns (dom st)) = ALL_DACS →
  bool_decide (size (readActiveFilters (dom (resetToShowAll st))) = length ALL_DACS) = true.
Proof.
  intros Hwf. apply readActiveFilters_all; simpl.
  - by rewrite map_map.
  - intros b (b0 & <- & _)%list_elem_of_In%in_map_iff. done.
Qed.

Lemma all_shown_when_allActive host st :
  bool_decide (size (readActiveFilters (dom st)) = length ALL_DACS) = true →
  ∀ b, b ∈ unitsOf (content (dom (updateFilters host st))) → blockShown b = true.
Proof.
  intros Hall b' Hb'. pose proof (updateFilters_units host st) as Hu. cbn zeta in Hu.
  rewrite Hall in Hu. apply list_elem_of_lookup in Hb' as [i Hi].
  destruct (Forall2_lookup_r _ _ _ _ _ Hu Hi) as (b & _ & _ & _ & Hs). done.
Qed.

(** After "Show all", whatever the filter bar looked like, every content
    unit and every navigation entry is shown, every catalog tag is active and
    the Norway flag is off. *)
Theorem showAllClick_shows_everything (host : Host) (st : App) :
  map btnDac (filterBtns (dom st)) = ALL_DACS →
  let st' := showAllClick host st in
  norwayFilterActive st' = false ∧
  (∀ t, t ∈ ALL_DACS → t ∈ activeFilters st') ∧
  (∀ b, b ∈ unitsOf (content (dom st')) → blockShown b = true) ∧
  (∀ e, e ∈ tocEntries (dom st') → tocShown e = true).
Proof.
  intros Hwf st'. subst st'. unfold showAllClick.
  pose proof (resetToShowAll_all_active st Hwf) as Hall. split.
  { unfold updateFilters. destruct (pickAnchor _ _ _ _ _ _); [|done].
    unfold scrollTo. simpl. done. }
  split.
  { rewrite updateFilters_activeFilters. apply allActive_spec; [by simpl; rewrite map_map|].
    by apply bool_decide_eq_true in Hall. }
  split; [by apply all_shown_when_allActive|].
  rewrite updateFilters_dom. cbn zeta. rewrite Hall.
  intros e (e0 & <- & _)%list_elem_of_In%in_map_iff.
  unfold tocShown, filterToc. cbn [tocClasses]. by rewrite contains_classToggleForce.
Qed.

(** An instance: "Show all" after [DAC7] was switched off. *)
Lemma showAllClick_shows_everything_witness :
  let st' := showAllClick stackHost (afterToggleOff "DAC7" (loadedApp shrinkingDoc 0)) in
  norwayFilterActive st' = false ∧
  (∀ t, t ∈ ALL_DACS → t ∈ activeFilters st') ∧
  (∀ b, b ∈ unitsOf (content (dom st')) → blockShown b = true) ∧
  (∀ e, e ∈ tocEntries (dom st') → tocShown e = true).
Proof.
  apply (showAllClick_shows_everything stackHost
           (afterToggleOff "DAC7" (loadedApp shrinkingDoc 0))).
  vm_compute. reflexivity.
Defined.

Lemma updateFilters_norwayFilterActive host st :
  norwayFilterActive (updateFilters host st) = norwayFilterActive st.
Proof.
  unfold updateFilters. destruct (pickAnchor _ _ _ _ _ _); [|done].
  unfold scrollTo. simpl. done.
Qed.

Lemma norway_preset_active p :
  map btnDac (filterBtns p) = ALL_DACS →
  let p' := withFilterBtns
              (map (λ b, Button (btnDac b) (bool_decide (btnDac b ∈ NORWAY_RELEVANT)))
                   (filterBtns p))
              (withNorwayBtn true p) in
  (∀ t, t ∈ readActiveFilters p' ↔ t ∈ NORWAY_RELEVANT) ∧
  bool_decide (size (readActiveFilters p') = length ALL_DACS) = false.
Proof.
  intros Hwf p'.
  assert (Hspec : ∀ t, t ∈ readActiveFilters p' ↔ t ∈ NORWAY_RELEVANT).
  { intros t. rewrite readActiveFilters_spec. subst p'. simpl. split.
    - intros (b & (b0 & <- & _)%list_elem_of_In%in_map_iff & Hact & <-). simpl in *.
      by apply bool_decide_eq_true in Hact.
    - intros Ht.
      assert (Hin : t ∈ ALL_DACS).
      { assert (Hsub : Forall (λ x, x ∈ ALL_DACS) NORWAY_RELEVANT).
        { apply (bool_decide_unpack _). by vm_compute. }
        rewrite Forall_forall in Hsub. by apply Hsub. }
      rewrite <- Hwf in Hin.
      apply list_elem_of_In, in_map_iff in Hin as (b0 & <- & Hb0).
      exists (Button (btnDac b0) (bool_decide (btnDac b0 ∈ NORWAY_RELEVANT))).
      split; [|split; [by apply bool_decide_eq_true|done]].
      apply list_elem_of_In, in_map_iff. eauto. }
  split; [done|]. apply bool_decide_eq_false.
  assert (Heq : readActiveFilters p' = list_to_set NORWAY_RELEVANT).
  { apply set_eq. intros t. by rewrite Hspec, elem_of_list_to_set. }
  rewrite Heq, size_list_to_set; [by vm_compute|].
  apply (bool_decide_unpack _). by vm_compute.
Qed.

(** The Norway preset toggles.  Clicked while its flag is off, it sets the
    flag, makes exactly the tags of [NORWAY_RELEVANT] active, and shows a
    unit exactly when one of its sources is among them; clicked again, it
    clears the flag and shows every unit again. *)
Theorem norwayClick_toggles (host : Host) (st : App) :
  map btnDac (filterBtns (dom st)) = ALL_DACS →
  norwayFilterActive st = false →
  let st1 := norwayClick host st in
  let st2 := norwayClick host st1 in
  norwayFilterActive st1 = true ∧
  (∀ t, t ∈ activeFilters st1 ↔ t ∈ NORWAY_RELEVANT) ∧
  Forall2 (λ b b', blockId b' = blockId b ∧
                   (blockShown b' = true ↔ ∃ s, s ∈ blockSources b ∧ s ∈ NORWAY_RELEVANT))
          (unitsOf (content (dom st))) (unitsOf (content (dom st1))) ∧
  norwayFilterActive st2 = false ∧
  (∀ b, b ∈ unitsOf (content (dom st2)) → blockShown b = true).
Proof.
  intros Hwf Hoff st1 st2.
  destruct (norway_preset_active (dom st) Hwf) as [Hact Hnot]. cbn zeta in Hact, Hnot.
  set (p0 := withFilterBtns
               (map (λ b, Button (btnDac b) (bool_decide (btnDac b ∈ NORWAY_RELEVANT)))
                    (filterBtns (dom st)))
               (withNorwayBtn true (dom st))) in *.
  set (st0 := withDom p0 (withNorwayFilterActive true st)).
  assert (Hst1 : st1 = updateFilters host st0).
  { subst st1. unfold norwayClick. by rewrite Hoff. }
  assert (Hon : norwayFilterActive st1 = true).
  { rewrite Hst1. by rewrite updateFilters_norwayFilterActive. }
  split; [done|]. split.
  { rewrite Hst1, updateFilters_activeFilters. exact Hact. }
  split.
  { rewrite Hst1. pose proof (updateFilters_units host st0) as Hu. cbn zeta in Hu.
    change (dom st0) with p0 in Hu. rewrite Hnot in Hu.
    change (content p0) with (content (dom st)) in Hu.
    eapply Forall2_impl; [exact Hu|].
    intros b b' (Hs & Hid & Hshown). split; [done|]. rewrite Hshown, unitVisible_spec.
    setoid_rewrite Hact. split; [intros [?|?]; done|by right]. }
  assert (Hwf1 : map btnDac (filterBtns (dom st1)) = ALL_DACS).
  { by apply (handlers_keep_tags host st Hwf). }
  assert (Hst2 : st2 = updateFilters host (resetToShowAll st1)).
  { subst st2. unfold norwayClick. by rewrite Hon. }
  rewrite Hst2. split; [by rewrite updateFilters_norwayFilterActive|].
  apply all_shown_when_allActive. by apply resetToShowAll_all_active.
Qed.

(** An instance: the preset on a freshly loaded document. *)
Lemma norwayClick_toggles_witness :
  let st := loadedApp shrinkingDoc 0 in
  let st1 := norwayClick stackHost st in
  let st2 := norwayClick stackHost st1 in
  norwayFilterActive st1 = true ∧
  (∀ t, t ∈ activeFilters st1 ↔ t ∈ NORWAY_RELEVANT) ∧
  Forall2 (λ b b', blockId b' = blockId b ∧
                   (blockShown b' = true ↔ ∃ s, s ∈ blockSources b ∧ s ∈ NORWAY_RELEVANT))
          (unitsOf (content (dom st))) (unitsOf (content (dom st1))) ∧
  norwayFilterActive st2 = false ∧
  (∀ b, b ∈ unitsOf (content (dom st2)) → blockShown b = true).
Proof.
  apply (norwayClick_toggles stackHost (loadedApp shrinkingDoc 0)); reflexivity.
Defined.

(** *** What the regular expression finds *)

Lemma strDrop_empty n : strDrop n "" = "".
Proof. by destruct n. Qed.

Lemma strDrop_drop a b s : strDrop b (strDrop a s) = strDrop (a + b) s.
Proof.
  revert s. induction a as [|a IH]; intros s; [done|].
  destruct s as [|c s]; simpl; [apply strDrop_empty|apply IH].
Qed.

Lemma searchFrom_sound canon pat s : ∀ i idx,
  searchFrom canon pat s i = Some idx →
  matchHere canon pat (strDrop (idx - i) s) = true.
Proof.
  induction s as [|c s IH]; intros i idx; simpl.
  - destruct (matchHere canon pat "") eqn:Hm; [|done]. intros [= <-].
    by rewrite Nat.sub_diag.
  - destruct (matchHere canon pat (String c s)) eqn:Hm.
    + intros [= <-]. by rewrite Nat.sub_diag.
    + intros Hs. pose proof (searchFrom_bounds _ _ _ _ _ Hs) as [Hle _].
      replace (idx - i)%nat with (S (idx - S i)) by lia. simpl. by apply IH.
Qed.

Lemma searchFrom_complete canon pat s : ∀ k i,
  matchHere canon pat (strDrop k s) = true → ∃ idx, searchFrom canon pat s i = Some idx.
Proof.
  induction s as [|c s IH]; intros k i Hm; simpl.
  - rewrite strDrop_empty in Hm. rewrite Hm. eauto.
  - destruct (matchHere canon pat (String c s)) eqn:Hh; [eauto|].
    destruct k as [|k]; [simpl in Hm; congruence|]. by apply (IH k).
Qed.

Lemma matchHere_take canon pat : ∀ s,
  matchHere canon pat s = true →
  matchHere canon pat (strTake (strLength pat) s) = true ∧
  strLength (strTake (strLength pat) s) = strLength pat.
Proof.
  unfold strLength. induction pat as [|p pat IH]; intros s; simpl; [done|].
  destruct s as [|c s]; [done|]. intros [Hc Hm]%andb_true_iff. simpl.
  destruct (IH s Hm) as [-> ->]. by rewrite Hc.
Qed.

Lemma regexExec_match canon r text idx m r' :
  regexExec canon r text = (Some (idx, m), r') →
  matchHere canon (literal r) m = true ∧
  strLength m = strLength (literal r) ∧
  matchHere canon (literal r) (strDrop idx text) = true.
Proof.
  intros He. pose proof (regexExec_some _ _ _ _ _ _ He) as (Hle & He1 & _ & Hm & _).
  unfold regexExec in He. destruct (strLength text <? lastIndex r)%nat; [done|].
  destruct (searchFrom _ _ _ _) as [j|] eqn:Hs; [|done]. injection He as <- _ _.
  apply searchFrom_sound in Hs. rewrite strDrop_drop in Hs.
  replace (lastIndex r + (j - lastIndex r))%nat with j in Hs by lia.
  rewrite Hm, He1. unfold slice.
  replace (j + strLength (literal r) - j)%nat with (strLength (literal r)) by lia.
  destruct (matchHere_take canon (literal r) _ Hs). done.
Qed.

Lemma regexTest_true canon r s r' :
  regexTest canon r s = (true, r') → occursIn canon (literal r) s = true.
Proof.
  unfold regexTest. destruct (regexExec canon r s) as [[[idx m]|] r1] eqn:He; [|done].
  intros _. apply regexExec_match in He as (_ & _ & Hm).
  unfold occursIn. by destruct (searchFrom_complete canon (literal r) s idx 0 Hm) as [j ->].
Qed.

Lemma regexTest_false canon r s r' :
  regexTest canon r s = (false, r') →
  lastIndex r' = 0%nat ∧ (lastIndex r = 0%nat → occursIn canon (literal r) s = false).
Proof.
  unfold regexTest. destruct (regexExec canon r s) as [[[idx m]|] r1] eqn:He; [done|].
  intros [= <-]. split; [by apply regexExec_none in He as [? _]|].
  intros Hz. unfold regexExec in He. rewrite Hz in He. simpl in He.
  unfold occursIn. by destruct (searchFrom canon (literal r) s 0).
Qed.

(** *** Splitting a text node in which the literal occurs *)

Lemma execLoop_matchFragments canon fuel : ∀ r text li frs frs' li' r',
  execLoop canon fuel r text li frs = Returns (frs', li', r') →
  Forall (matchFragment canon (literal r)) frs →
  Forall (matchFragment canon (literal r)) frs' ∧ lastIndex r' = 0%nat.
Proof.
  induction fuel as [|fuel IH]; intros r text li frs frs' li' r'; simpl; [done|].
  destruct (regexExec canon r text) as [[[idx m]|] r1] eqn:He.
  - intros Hrun Hfr.
    destruct (regexExec_match _ _ _ _ _ _ He) as (Hm & Hlen & _).
    pose proof (regexExec_some _ _ _ _ _ _ He) as (_ & _ & _ & _ & Hlit).
    rewrite <- Hlit. eapply IH; [exact Hrun|]. rewrite Hlit.
    apply Forall_app. split; [|by repeat constructor].
    destruct (li <? idx)%nat; [|done]. apply Forall_app. split; [done|repeat constructor].
  - intros [= <- <- <-] Hfr. split; [done|]. by apply regexExec_none in He as [? _].
Qed.

Lemma execLoop_prefix canon fuel : ∀ r text li frs frs' li' r',
  execLoop canon fuel r text li frs = Returns (frs', li', r') → ∃ ext, frs' = frs ++ ext.
Proof.
  induction fuel as [|fuel IH]; intros r text li frs frs' li' r'; simpl; [done|].
  destruct (regexExec canon r text) as [[[idx m]|] r1].
  - intros (ext & ->)%IH. destruct (li <? idx)%nat; rewrite <- ?app_assoc; eauto.
  - intros [= <- <- <-]. exists []. by rewrite app_nil_r.
Qed.

Lemma execLoop_grows canon fuel r text li frs frs' li' r' :
  lastIndex r = 0%nat →
  occursIn canon (literal r) text = true →
  execLoop canon fuel r text li frs = Returns (frs', li', r') →
  (length frs < length frs')%nat.
Proof.
  intros Hz Hocc. destruct fuel as [|fuel]; simpl; [done|].
  unfold regexExec. rewrite Hz. simpl.
  unfold occursIn in Hocc. destruct (searchFrom canon (literal r) text 0) as [j|]; [|done].
  intros (ext & ->)%execLoop_prefix.
  destruct (li <? j)%nat; rewrite !length_app; simpl; lia.
Qed.

Lemma splitTextNode_occurs canon r text :
  literal r ≠ "" →
  occursIn canon (literal r) text = true →
  ∃ ns r', splitTextNode canon r text = Returns (ns, r') ∧
           literal r' = literal r ∧ lastIndex r' = 0%nat ∧
           Forall (matchFragment canon (literal r)) ns ∧
           strConcat (map textContent ns) = text ∧
           existsb isHighlight ns = true.
Proof.
  intros Hne Hocc. unfold splitTextNode.
  destruct (execLoop_returns canon (S (strLength text)) (MkRegExp (literal r) 0) text 0 [])
    as [[[frs li] r1] Hrun]; [done|simpl; lia|].
  rewrite Hrun. cbn [bindC].
  destruct (execLoop_spec canon _ (MkRegExp (literal r) 0) text [] frs li r1 Hrun)
    as (_ & Htxt & Hlit & Hhl); [done|done|]. simpl in Hlit.
  destruct (execLoop_matchFragments canon _ _ _ _ _ _ _ _ Hrun) as [Hfr Hz]; [done|].
  simpl in Hfr.
  pose proof (execLoop_grows canon _ (MkRegExp (literal r) 0) text 0 [] frs li r1
                eq_refl Hocc Hrun) as Hpos.
  simpl in Hpos. destruct (Nat.ltb_spec 0 (length frs)); [|lia].
  assert (Hhl' : existsb isHighlight frs = true).
  { destruct Hhl as [->|?]; [simpl in Hpos; lia|done]. }
  eexists _, _. split; [done|]. split; [done|]. split; [done|].
  destruct (Nat.ltb_spec li (strLength text)).
  - split; [apply Forall_app; split; [done|repeat constructor]|]. split.
    + rewrite map_app, strConcat_app, Htxt. simpl. rewrite strApp_nil_r.
      apply strTake_drop.
    + by rewrite existsb_app, Hhl'.
  - split; [done|]. split; [|done]. rewrite Htxt. by apply strTake_all.
Qed.

(** *** The walk and the replacement, together *)

Lemma walkTextNodes_occurs canon n : ∀ ex r f r1,
  walkTextNodes canon ex n r = (f, r1) →
  (existsb id f = true →
   Exists (λ s, occursIn canon (literal r) s = true) (eligibleTexts ex n)) ∧
  (lastIndex r = 0%nat → existsb id f = false →
   lastIndex r1 = 0%nat ∧
   Forall (λ s, occursIn canon (literal r) s = false) (eligibleTexts ex n)).
Proof.
  induction n as [s|c d kids IH] using node_forall_ind; intros ex r f r1.
  - simpl. destruct ex; [intros [= <- <-]; by split|].
    destruct (regexTest canon r s) as [ok r'] eqn:Ht. intros [= <- <-]. simpl.
    rewrite orb_false_r. unfold id. split.
    + intros ->. constructor. by apply regexTest_true in Ht.
    + intros Hz ->. apply regexTest_false in Ht as [Hz' Hocc]. split; [done|].
      constructor; [by apply Hocc|constructor].
  - rewrite walkTextNodes_elem. simpl eligibleTexts.
    generalize (ex || matchesExcluded c). intros b. revert r f r1.
    induction IH as [|k ks Hk _ IHks]; intros r f r1; simpl.
    + intros [= <- <-]. split; [done|]. intros Hz _. split; [done|constructor].
    + destruct (walkTextNodes canon b k r) as [f1 ra] eqn:H1.
      destruct (walkTextNodesList canon b ks ra) as [f2 rb] eqn:H2.
      intros [= <- <-]. rewrite existsb_app.
      pose proof (walkTextNodes_literal _ _ _ _ _ _ H1) as Hlit.
      destruct (Hk _ _ _ _ H1) as [Hk1 Hk2].
      destruct (IHks _ _ _ H2) as [Hs1 Hs2]. rewrite Hlit in Hs1, Hs2. split.
      * intros [Ht|Ht]%orb_true_iff; apply Exists_app; [left; by apply Hk1|right; by apply Hs1].
      * intros Hz [Hf1 Hf2]%orb_false_iff. destruct (Hk2 Hz Hf1) as [Hza Ha].
        destruct (Hs2 Hza Hf2) as [Hzb Hb]. split; [done|]. apply Forall_app. by split.
Qed.

Lemma walkTextNodesList_occurs canon ks : ∀ ex r f r1,
  walkTextNodesList canon ex ks r = (f, r1) →
  (existsb id f = true →
   Exists (λ s, occursIn canon (literal r) s = true) (eligibleTextsList ex ks)) ∧
  (lastIndex r = 0%nat → existsb id f = false →
   lastIndex r1 = 0%nat ∧
   Forall (λ s, occursIn canon (literal r) s = false) (eligibleTextsList ex ks)).
Proof.
  induction ks as [|k ks IH]; intros ex r f r1; simpl.
  - intros [= <- <-]. split; [done|]. intros Hz _. split; [done|constructor].
  - destruct (walkTextNodes canon ex k r) as [f1 ra] eqn:H1.
    destruct (walkTextNodesList canon ex ks ra) as [f2 rb] eqn:H2.
    intros [= <- <-]. rewrite existsb_app.
    pose proof (walkTextNodes_literal _ _ _ _ _ _ H1) as Hlit.
    destruct (walkTextNodes_occurs _ _ _ _ _ _ H1) as [Hk1 Hk2].
    destruct (IH _ _ _ _ H2) as [Hs1 Hs2]. rewrite Hlit in Hs1, Hs2.
    change (eligibleTextsList ex (k :: ks))
      with (eligibleTexts ex k ++ eligibleTextsList ex ks). split.
    + intros [Ht|Ht]%orb_true_iff; apply Exists_app; [left; by apply Hk1|right; by apply Hs1].
    + intros Hz [Hf1 Hf2]%orb_false_iff. destruct (Hk2 Hz Hf1) as [Hza Ha].
      destruct (Hs2 Hza Hf2) as [Hzb Hb]. split; [done|]. apply Forall_app. by split.
Qed.

(** The replacement pass, fed the flags of the walk, consumes exactly the
    flags the walk produced for a node and makes of the node what [marked]
    says; the regex is left alone when no text node below was accepted and
    has [lastIndex = 0] otherwise. *)
Lemma highlight_aligned canon n : ∀ ex r f r1 rest r2,
  walkTextNodes canon ex n r = (f, r1) →
  literal r ≠ "" → literal r2 = literal r →
  ∃ ns r3, replaceTextNodes canon n (f ++ rest) r2 = Returns (ns, rest, r3) ∧
           literal r3 = literal r ∧
           marked canon (literal r) ex n (existsb id f) ns ∧
           (existsb id f = false → r3 = r2) ∧
           (existsb id f = true → lastIndex r3 = 0%nat).
Proof.
  induction n as [s|c d kids IH] using node_forall_ind; intros ex r f r1 rest r2.
  - simpl. destruct ex.
    + intros [= <- <-] Hne Hlit. simpl. eexists _, _. split; [done|].
      split; [done|]. split; [constructor|]. by split.
    + destruct (regexTest canon r s) as [ok r'] eqn:Ht. intros [= <- <-] Hne Hlit.
      destruct ok; simpl.
      * apply regexTest_true in Ht. rewrite <- Hlit in Ht, Hne.
        destruct (splitTextNode_occurs canon r2 s Hne Ht) as (ns & r3 & -> & Hl & Hz & Hfr & Htxt & Hh).
        simpl. eexists _, _. split; [done|]. split; [congruence|]. rewrite <- Hlit.
        split; [by constructor|]. by split.
      * eexists _, _. split; [done|]. split; [done|]. split; [constructor|]. by split.
  - rewrite walkTextNodes_elem. intros Hw Hne Hlit. rewrite replaceTextNodes_elem.
    assert (Hl : ∃ ks' r3,
      replaceTextNodesList canon kids (f ++ rest) r2 = Returns (ks', rest, r3) ∧
      literal r3 = literal r ∧
      markedList canon (literal r) (ex || matchesExcluded c) kids (existsb id f) ks' ∧
      (existsb id f = false → r3 = r2) ∧ (existsb id f = true → lastIndex r3 = 0%nat)).
    { revert Hw. generalize (ex || matchesExcluded c). intros b.
      revert r f r1 rest r2 Hne Hlit.
      induction IH as [|k ks Hk _ IHks]; intros r f r1 rest r2 Hne Hlit; simpl.
      - intros [= <- <-]. simpl. eexists _, _. split; [done|]. split; [done|].
        split; [constructor|]. by split.
      - destruct (walkTextNodes canon b k r) as [f1 ra] eqn:H1.
        destruct (walkTextNodesList canon b ks ra) as [f2 rb] eqn:H2.
        intros [= <- <-]. rewrite <- app_assoc.
        destruct (Hk _ _ _ _ (f2 ++ rest) r2 H1 Hne Hlit)
          as (ns & r3a & -> & Hla & Hma & Hfa & Hta).
        simpl. pose proof (walkTextNodes_literal _ _ _ _ _ _ H1) as Hlra.
        destruct (IHks ra f2 rb rest r3a) as (ks' & r3 & -> & Hlb & Hmb & Hfb & Htb);
          [congruence|congruence|done|].
        simpl. rewrite Hlra in Hlb, Hmb.
        eexists _, _. split; [done|]. split; [done|]. rewrite existsb_app.
        split; [by constructor|]. split.
        + intros [Hf1 Hf2]%orb_false_iff. rewrite (Hfb Hf2). by apply Hfa.
        + intros Ht. destruct (existsb id f2) eqn:Hf2; [by apply Htb|].
          rewrite orb_false_r in Ht. rewrite (Hfb eq_refl). by apply Hta. }
    destruct Hl as (ks' & r3 & -> & Hl3 & Hm & Hf & Ht). simpl.
    eexists _, _. split; [done|]. split; [done|]. split; [by constructor|]. by split.
Qed.

Lemma highlight_aligned_list canon ks : ∀ ex r f r1 rest r2,
  walkTextNodesList canon ex ks r = (f, r1) →
  literal r ≠ "" → literal r2 = literal r →
  ∃ ks' r3, replaceTextNodesList canon ks (f ++ rest) r2 = Returns (ks', rest, r3) ∧
            literal r3 = literal r ∧
            markedList canon (literal r) ex ks (existsb id f) ks' ∧
            (existsb id f = false → r3 = r2) ∧
            (existsb id f = true → lastIndex r3 = 0%nat).
Proof.
  induction ks as [|k ks IH]; intros ex r f r1 rest r2; simpl.
  - intros [= <- <-] Hne Hlit. simpl. eexists _, _. split; [done|]. split; [done|].
    split; [constructor|]. by split.
  - destruct (walkTextNodes canon ex k r) as [f1 ra] eqn:H1.
    destruct (walkTextNodesList canon ex ks ra) as [f2 rb] eqn:H2.
    intros [= <- <-] Hne Hlit. rewrite <- app_assoc.
    destruct (highlight_aligned canon k _ _ _ _ (f2 ++ rest) r2 H1 Hne Hlit)
      as (ns & r3a & -> & Hla & Hma & Hfa & Hta).
    simpl. pose proof (walkTextNodes_literal _ _ _ _ _ _ H1) as Hlra.
    destruct (IH ex ra f2 rb rest r3a) as (ks' & r3 & -> & Hlb & Hmb & Hfb & Htb);
      [done|congruence|congruence|].
    simpl. rewrite Hlra in Hlb, Hmb.
    eexists _, _. split; [done|]. split; [done|]. rewrite existsb_app.
    split; [by constructor|]. split.
    + intros [Hf1 Hf2]%orb_false_iff. rewrite (Hfb Hf2). by apply Hfa.
    + intros Ht. destruct (existsb id f2) eqn:Hf2; [by apply Htb|].
      rewrite orb_false_r in Ht. rewrite (Hfb eq_refl). by apply Hta.
Qed.

(** [highlightTextNodes] on one body, for a literal that is not empty. *)
Lemma highlightTextNodes_marked canon kids r :
  literal r ≠ "" →
  ∃ kids' r' acc,
    highlightTextNodes canon kids r = Returns (kids', r') ∧
    literal r' = literal r ∧
    markedList canon (literal r) false kids acc kids' ∧
    (acc = true →
     Exists (λ s, occursIn canon (literal r) s = true) (eligibleTextsList false kids)) ∧
    (lastIndex r = 0%nat →
     lastIndex r' = 0%nat ∧
     (acc = false →
      Forall (λ s, occursIn canon (literal r) s = false) (eligibleTextsList false kids))).
Proof.
  intros Hne. unfold highlightTextNodes.
  destruct (walkTextNodesList canon false kids r) as [f r1] eqn:Hw.
  pose proof (walkTextNodesList_literal _ _ _ _ _ _ Hw) as Hl1.
  destruct (highlight_aligned_list canon kids false r f r1 [] r1 Hw Hne Hl1)
    as (ks' & r3 & Hrep & Hl3 & Hm & Hf & Ht).
  rewrite app_nil_r in Hrep. rewrite Hrep. simpl.
  destruct (walkTextNodesList_occurs _ _ _ _ _ _ Hw) as [Ho1 Ho2].
  exists ks', r3, (existsb id f). split; [done|]. split; [done|]. split; [done|].
  split; [done|]. intros Hz. destruct (existsb id f) eqn:Hacc.
  - split; [by apply Ht|done].
  - destruct (Ho2 Hz eq_refl) as [Hz1 Hall]. rewrite (Hf eq_refl). by split.
Qed.

Lemma highlightBodies_marked canon c : ∀ r,
  literal r ≠ "" → lastIndex r = 0%nat →
  ∃ c' r', highlightBodies canon c r = Returns (c', r') ∧
           literal r' = literal r ∧ lastIndex r' = 0%nat ∧
           Forall2 (itemMarked canon (literal r)) c c'.
Proof.
  induction c as [|[t|b] c IH]; intros r Hne Hz; simpl.
  - eexists _, _. split; [done|]. do 2 (split; [done|]). constructor.
  - destruct (IH r Hne Hz) as (c' & r' & -> & Hl & Hz' & Hf). simpl.
    eexists _, _. split; [done|]. do 2 (split; [done|]). by constructor.
  - destruct (highlightTextNodes_marked canon (blockBody b) r Hne)
      as (kids' & r1 & acc & -> & Hl1 & Hm & Hocc & Hzero).
    destruct (Hzero Hz) as [Hz1 Hnone]. simpl.
    destruct (IH r1) as (c' & r' & -> & Hl & Hz' & Hf); [congruence|done|]. simpl.
    eexists _, _. split; [done|]. split; [congruence|]. split; [done|].
    constructor; [|by rewrite <- Hl1]. simpl. exists acc, kids'.
    split; [done|]. split; [done|]. split; [done|].
    intros Hex. destruct acc; [done|]. specialize (Hnone eq_refl).
    apply Exists_exists in Hex as (s & Hs & Ho). rewrite Forall_forall in Hnone.
    rewrite (Hnone s Hs) in Ho. done.
Qed.

Lemma performSearch_long_marked host term st :
  (2 ≤ strLength term)%nat →
  ∃ c', Forall2 (itemMarked (canonicalize host) term)
                (mapBodies clearBody (content (dom st))) c' ∧
        performSearch host term st = Returns (foundState term st c').
Proof.
  intros Hlen. unfold performSearch.
  destruct (Nat.ltb_spec (strLength term) 2); [lia|].
  assert (Hne : term ≠ "") by (intros ->; unfold strLength in Hlen; simpl in Hlen; lia).
  replace (strIsEmpty term) with false by (by destruct term). simpl orb. cbv iota.
  destruct (highlightBodies_marked (canonicalize host)
              (mapBodies clearBody (content (dom st))) (newRegExp term) Hne eq_refl)
    as (c' & r' & Hh & _ & _ & Hrep).
  exists c'. split; [done|].
  change (content (dom (withSearchMatches [] (withSearchTerm term (clearSearch st)))))
    with (mapBodies clearBody (content (dom st))).
  rewrite Hh. cbn [bindC fst]. unfold foundState. rewrite length_seq.
  destruct (Nat.ltb_spec 0 (length (pageHighlights c'))) as [Hpos|Hzero]; [|done].
  destruct (length (pageHighlights c')) as [|n] eqn:Hn; [lia|]. done.
Qed.

(** *** What marking leaves alone, and what it makes *)

Lemma highlightTextsList_app l1 l2 :
  highlightTextsList (l1 ++ l2) = highlightTextsList l1 ++ highlightTextsList l2.
Proof. unfold highlightTextsList. by rewrite map_app, concat_app. Qed.

Lemma excludedRegionsList_app l1 l2 :
  excludedRegionsList (l1 ++ l2) = excludedRegionsList l1 ++ excludedRegionsList l2.
Proof. unfold excludedRegionsList. by rewrite map_app, concat_app. Qed.

Lemma matchFragments_excluded canon pat ns :
  Forall (matchFragment canon pat) ns → excludedRegionsList ns = [].
Proof.
  induction 1 as [|f ns Hf _ IH]; [done|].
  change (excludedRegionsList (f :: ns)) with (excludedRegions f ++ excludedRegionsList ns).
  rewrite IH, app_nil_r. destruct Hf as [s|m _ _]; [done|].
  unfold highlightSpan, setTextContent. by destruct (strIsEmpty m).
Qed.

Lemma matchFragments_highlightTexts canon pat ns :
  Forall (matchFragment canon pat) ns → Forall (isMatchOf canon pat) (highlightTextsList ns).
Proof.
  induction 1 as [|f ns Hf _ IH]; [constructor|].
  change (highlightTextsList (f :: ns)) with (highlightTexts f ++ highlightTextsList ns).
  apply Forall_app. split; [|done]. destruct Hf as [s|m Hm Hl]; [constructor|].
  change (highlightTexts (highlightSpan m))
    with ([textContent (highlightSpan m)] ++ highlightTextsList (setTextContent m)).
  rewrite textContent_highlightSpan. unfold setTextContent.
  destruct (strIsEmpty m); repeat constructor; done.
Qed.

Lemma existsb_isHighlight_highlights ns :
  existsb isHighlight ns = true → highlightsOfList ns ≠ [].
Proof.
  induction ns as [|[s|c d kids] ns IH]; [done|apply IH|]. simpl.
  unfold highlightsOfList. simpl. destruct (contains c HIGHLIGHT); [done|]. simpl.
  intros Hex Hnil. apply app_eq_nil in Hnil as [_ Hnil]. by apply IH.
Qed.

(** Inside an excluded region nothing is accepted and nothing changes. *)
Lemma markedList_in_excluded canon pat ex l acc l' :
  markedList canon pat ex l acc l' → ex = true → acc = false ∧ l' = l.
Proof.
  apply (markedList_mut canon pat
    (λ ex n acc ns, ex = true → acc = false ∧ ns = [n])
    (λ ex l acc l', ex = true → acc = false ∧ l' = l)).
  - done.
  - done.
  - intros s ns _ _ _ [=].
  - intros ex0 c d kids acc0 kids' _ IH ->. destruct (IH eq_refl) as [-> ->]. done.
  - done.
  - intros ex0 n a ns k b k' _ IHn _ IHl Hex.
    destruct (IHn Hex) as [-> ->]. destruct (IHl Hex) as [-> ->]. done.
Qed.

(** The excluded regions are, as whole subtrees, what they were. *)
Lemma markedList_excluded canon pat ex l acc l' :
  markedList canon pat ex l acc l' → excludedRegionsList l' = excludedRegionsList l.
Proof.
  apply (markedList_mut canon pat
    (λ ex n acc ns, excludedRegionsList ns = excludedRegions n)
    (λ ex l acc l', excludedRegionsList l' = excludedRegionsList l)).
  - done.
  - done.
  - intros s ns Hfr _ _. by rewrite (matchFragments_excluded _ _ _ Hfr).
  - intros ex0 c d kids acc0 kids' Hm IH. unfold excludedRegionsList at 1. simpl.
    destruct (matchesExcluded c) eqn:Hc.
    + destruct (markedList_in_excluded _ _ _ _ _ _ Hm) as [_ ->]; [apply orb_true_r|done].
    + rewrite app_nil_r. apply IH.
  - done.
  - intros ex0 n a ns k b k' _ IHn _ IHl. rewrite excludedRegionsList_app, IHn, IHl. done.
Qed.

(** On a body without highlights, every highlight after the pass wraps a
    piece of text that is the literal up to case. *)
Lemma markedList_highlightTexts canon pat ex l acc l' :
  markedList canon pat ex l acc l' → highlightsOfList l = [] →
  Forall (isMatchOf canon pat) (highlightTextsList l').
Proof.
  apply (markedList_mut canon pat
    (λ ex n acc ns, highlightsOf n = [] → Forall (isMatchOf canon pat) (highlightTextsList ns))
    (λ ex l acc l', highlightsOfList l = [] → Forall (isMatchOf canon pat) (highlightTextsList l'))).
  - constructor.
  - constructor.
  - intros s ns Hfr _ _ _. by apply (matchFragments_highlightTexts canon pat).
  - intros ex0 c d kids acc0 kids' _ IH [Hc Hk]%highlightsOf_elem_nil.
    unfold highlightTextsList at 1. simpl. rewrite Hc, app_nil_r. simpl. by apply IH.
  - constructor.
  - intros ex0 n a ns k b k' _ IHn _ IHl Hnil.
    change (highlightsOfList (n :: k)) with (highlightsOf n ++ highlightsOfList k) in Hnil.
    apply app_eq_nil in Hnil as [Hn Hk].
    rewrite highlightTextsList_app. apply Forall_app. split; [by apply IHn|by apply IHl].
Qed.

(** Nothing accepted: the list of nodes is untouched; something accepted:
    there is a highlight afterwards. *)
Lemma markedList_accepted canon pat ex l acc l' :
  markedList canon pat ex l acc l' →
  (acc = false → l' = l) ∧ (acc = true → highlightsOfList l' ≠ []).
Proof.
  apply (markedList_mut canon pat
    (λ ex n acc ns, (acc = false → ns = [n]) ∧ (acc = true → highlightsOfList ns ≠ []))
    (λ ex l acc l', (acc = false → l' = l) ∧ (acc = true → highlightsOfList l' ≠ []))).
  - done.
  - done.
  - intros s ns _ _ Hex. split; [done|]. intros _. by apply existsb_isHighlight_highlights.
  - intros ex0 c d kids acc0 kids' _ [IH1 IH2]. split.
    + intros ->. by rewrite IH1.
    + intros ->. unfold highlightsOfList. simpl. rewrite app_nil_r.
      intros [_ Hnil]%app_eq_nil. by apply IH2.
  - done.
  - intros ex0 n a ns k b k' _ [IHn1 IHn2] _ [IHl1 IHl2]. split.
    + intros [-> ->]%orb_false_iff. by rewrite IHn1, IHl1.
    + intros Hor. rewrite highlightsOfList_app. intros [Hn Hk]%app_eq_nil.
      destruct a; [by apply IHn2|]. destruct b; [by apply IHl2|done].
Qed.

(** *** Marking a match as current changes class lists only *)

Lemma alterHighlight_none f n : highlightsOf n = [] → ∀ k, alterHighlight f k n = n.
Proof.
  induction n as [s|c d kids IH] using node_forall_ind; [done|].
  intros [Hc Hk]%highlightsOf_elem_nil k. rewrite alterHighlight_elem, Hc. f_equal.
  revert k. induction IH as [|x ks Hx _ IHks]; intros k; [done|].
  change (highlightsOfList (x :: ks)) with (highlightsOf x ++ highlightsOfList ks) in Hk.
  apply app_eq_nil in Hk as [Hx0 Hks]. simpl. rewrite Hx0. simpl.
  by rewrite IHks.
Qed.

Lemma highlightsOf_excludedRegions n :
  highlightsOf n = [] → Forall (λ r, highlightsOf r = []) (excludedRegions n).
Proof.
  induction n as [s|c d kids IH] using node_forall_ind; [constructor|].
  intros Hn. simpl. destruct (matchesExcluded c); [by repeat constructor|].
  apply highlightsOf_elem_nil in Hn as [_ Hk].
  induction IH as [|x ks Hx _ IHks]; [constructor|].
  change (highlightsOfList (x :: ks)) with (highlightsOf x ++ highlightsOfList ks) in Hk.
  apply app_eq_nil in Hk as [Hx0 Hks]. simpl. apply Forall_app. split; [by apply Hx|by apply IHks].
Qed.

Lemma matchesExcluded_classAdd_current c :
  matchesExcluded (classAdd CURRENT c) = matchesExcluded c.
Proof.
  unfold matchesExcluded, EXCLUDED. simpl. rewrite !contains_classAdd.
  repeat (rewrite (bool_decide_eq_false_2 (_ = CURRENT)) by done). by rewrite !orb_false_r.
Qed.

Lemma excludedRegions_alterHighlight f n :
  (∀ c, matchesExcluded (f c) = matchesExcluded c) →
  Forall (λ r, highlightsOf r = []) (excludedRegions n) →
  ∀ k, excludedRegions (alterHighlight f k n) = excludedRegions n.
Proof.
  intros Hf. induction n as [s|c d kids IH] using node_forall_ind; [done|].
  intros Hfree k. simpl in Hfree. destruct (matchesExcluded c) eqn:Hc.
  - apply Forall_inv in Hfree. by rewrite alterHighlight_none.
  - assert (Hl : ∀ j, excludedRegionsList (alterHighlightList f j kids)
                      = excludedRegionsList kids).
    { clear Hc. induction IH as [|x ks Hx _ IHks]; intros j; [done|]. simpl in Hfree.
      apply Forall_app in Hfree as [Hfx Hfks]. simpl.
      destruct (j <? length (highlightsOf x))%nat.
      - change (excludedRegionsList (alterHighlight f j x :: ks))
          with (excludedRegions (alterHighlight f j x) ++ excludedRegionsList ks).
        by rewrite Hx.
      - change (excludedRegionsList (x :: alterHighlightList f (j - length (highlightsOf x)) ks))
          with (excludedRegions x ++ excludedRegionsList (alterHighlightList f (j - length (highlightsOf x)) ks)).
        by rewrite IHks. }
    rewrite alterHighlight_elem. destruct (contains c HIGHLIGHT).
    + destruct k as [|k']; simpl.
      * by rewrite Hf, Hc.
      * rewrite Hc. apply Hl.
    + simpl. rewrite Hc. apply Hl.
Qed.

Lemma excludedRegionsList_alterHighlightList f l :
  (∀ c, matchesExcluded (f c) = matchesExcluded c) →
  Forall (λ r, highlightsOf r = []) (excludedRegionsList l) →
  ∀ k, excludedRegionsList (alterHighlightList f k l) = excludedRegionsList l.
Proof.
  intros Hf. induction l as [|x l IH]; intros Hfree k; [done|].
  change (excludedRegionsList (x :: l)) with (excludedRegions x ++ excludedRegionsList l) in Hfree.
  apply Forall_app in Hfree as [Hfx Hfl]. simpl.
  destruct (k <? length (highlightsOf x))%nat.
  - change (excludedRegionsList (alterHighlight f k x :: l))
      with (excludedRegions (alterHighlight f k x) ++ excludedRegionsList l).
    by rewrite excludedRegions_alterHighlight.
  - change (excludedRegionsList (x :: alterHighlightList f (k - length (highlightsOf x)) l))
      with (excludedRegions x ++ excludedRegionsList (alterHighlightList f (k - length (highlightsOf x)) l)).
    by rewrite IH.
Qed.

Lemma highlightTexts_alterHighlight f n :
  keepsHighlight f → ∀ k, highlightTexts (alterHighlight f k n) = highlightTexts n.
Proof.
  intros Hf. induction n as [s|c d kids IH] using node_forall_ind; intros k; [done|].
  assert (Hl : ∀ j, highlightTextsList (alterHighlightList f j kids) = highlightTextsList kids ∧
                    map textContent (alterHighlightList f j kids) = map textContent kids).
  { induction IH as [|x ks Hx _ IHks]; intros j; [done|]. simpl.
    destruct (j <? length (highlightsOf x))%nat.
    - change (highlightTextsList (alterHighlight f j x :: ks))
        with (highlightTexts (alterHighlight f j x) ++ highlightTextsList ks).
      rewrite Hx. simpl. by destruct (alterHighlight_invisible f x Hf j) as (_ & _ & ->).
    - change (highlightTextsList (x :: alterHighlightList f (j - length (highlightsOf x)) ks))
        with (highlightTexts x ++ highlightTextsList (alterHighlightList f (j - length (highlightsOf x)) ks)).
      destruct (IHks (j - length (highlightsOf x))%nat) as [-> Ht]. simpl. by rewrite Ht. }
  rewrite alterHighlight_elem. destruct (contains c HIGHLIGHT) eqn:Hc.
  - destruct k as [|k']; simpl.
    + by rewrite (Hf c Hc), Hc.
    + rewrite Hc. destruct (Hl k') as [Hh ->]. f_equal. apply Hh.
  - simpl. rewrite Hc. simpl. apply Hl.
Qed.

Lemma highlightTextsList_alterHighlightList f l :
  keepsHighlight f → ∀ k, highlightTextsList (alterHighlightList f k l) = highlightTextsList l.
Proof.
  intros Hf. induction l as [|x l IH]; intros k; [done|]. simpl.
  destruct (k <? length (highlightsOf x))%nat.
  - change (highlightTextsList (alterHighlight f k x :: l))
      with (highlightTexts (alterHighlight f k x) ++ highlightTextsList l).
    by rewrite highlightTexts_alterHighlight.
  - change (highlightTextsList (x :: alterHighlightList f (k - length (highlightsOf x)) l))
      with (highlightTexts x ++ highlightTextsList (alterHighlightList f (k - length (highlightsOf x)) l)).
    by rewrite IH.
Qed.

(** *** The page after a search *)

Lemma highlightTexts_length n : length (highlightTexts n) = length (highlightsOf n).
Proof.
  induction n as [s|c d kids IH] using node_forall_ind; [done|]. simpl.
  rewrite !length_app. f_equal; [by destruct (contains c HIGHLIGHT)|].
  induction IH as [|x ks Hx _ IHks]; [done|]. simpl. rewrite !length_app. by f_equal.
Qed.

Lemma highlightTextsList_length l : length (highlightTextsList l) = length (highlightsOfList l).
Proof.
  induction l as [|x l IH]; [done|]. unfold highlightTextsList, highlightsOfList. simpl.
  rewrite !length_app. f_equal; [apply highlightTexts_length|apply IH].
Qed.

Lemma pageHighlightTexts_length c : length (pageHighlightTexts c) = length (pageHighlights c).
Proof.
  unfold pageHighlightTexts, pageHighlights.
  induction (bodiesOf c) as [|kids L IH]; [done|]. simpl.
  rewrite !length_app. f_equal; [apply highlightTextsList_length|apply IH].
Qed.

Lemma pageExcludedRegions_unit b c :
  pageExcludedRegions (Unit b :: c) = excludedRegionsList (blockBody b) ++ pageExcludedRegions c.
Proof. done. Qed.

Lemma pageHighlightTexts_unit b c :
  pageHighlightTexts (Unit b :: c) = highlightTextsList (blockBody b) ++ pageHighlightTexts c.
Proof. done. Qed.

Lemma pageEligibleTexts_unit b c :
  pageEligibleTexts (Unit b :: c) = eligibleTextsList false (blockBody b) ++ pageEligibleTexts c.
Proof. done. Qed.

Lemma pageExcludedRegions_updateMatch f g c :
  (∀ cl, matchesExcluded (f cl) = matchesExcluded cl) → keepsBody g →
  Forall (λ r, highlightsOf r = []) (pageExcludedRegions c) →
  ∀ k, pageExcludedRegions (updateMatch f g k c) = pageExcludedRegions c.
Proof.
  intros Hf Hg. induction c as [|[t|b] c IH]; intros Hfree k; [done|by apply IH|]. simpl.
  rewrite pageExcludedRegions_unit in Hfree. apply Forall_app in Hfree as [Hb Hc].
  destruct (k <? length (highlightsOfList (blockBody b)))%nat.
  - rewrite !pageExcludedRegions_unit, Hg. simpl.
    by rewrite excludedRegionsList_alterHighlightList.
  - rewrite !pageExcludedRegions_unit. by rewrite IH.
Qed.

Lemma pageHighlightTexts_updateMatch f g c :
  keepsHighlight f → keepsBody g →
  ∀ k, pageHighlightTexts (updateMatch f g k c) = pageHighlightTexts c.
Proof.
  intros Hf Hg. induction c as [|[t|b] c IH]; intros k; [done|by apply IH|]. simpl.
  destruct (k <? length (highlightsOfList (blockBody b)))%nat.
  - rewrite !pageHighlightTexts_unit, Hg. simpl.
    by rewrite highlightTextsList_alterHighlightList.
  - rewrite !pageHighlightTexts_unit. by rewrite IH.
Qed.

Lemma pageExcludedRegions_clear_free c :
  Forall (λ r, highlightsOf r = []) (pageExcludedRegions (mapBodies clearBody c)).
Proof.
  unfold pageExcludedRegions. rewrite bodiesOf_mapBodies, map_map.
  induction (bodiesOf c) as [|kids L IH]; [constructor|]. simpl.
  apply Forall_app. split; [|done].
  pose proof (highlightsOfList_clearBody kids) as Hnil.
  induction (clearBody kids) as [|x l IHl]; [constructor|].
  change (highlightsOfList (x :: l)) with (highlightsOf x ++ highlightsOfList l) in Hnil.
  apply app_eq_nil in Hnil as [Hx Hl].
  change (excludedRegionsList (x :: l)) with (excludedRegions x ++ excludedRegionsList l).
  apply Forall_app. split; [by apply highlightsOf_excludedRegions|by apply IHl].
Qed.

Lemma itemMarked_page canon pat c c' :
  Forall2 (itemMarked canon pat) c c' →
  pageExcludedRegions c' = pageExcludedRegions c ∧
  (pageHighlights c = [] →
   Forall (isMatchOf canon pat) (pageHighlightTexts c') ∧
   Forall2 (λ kids kids',
              highlightsOfList kids' ≠ [] ↔
              Exists (λ s, occursIn canon pat s = true) (eligibleTextsList false kids))
           (bodiesOf c) (bodiesOf c') ∧
   (pageHighlights c' = [] ↔
    Forall (λ s, occursIn canon pat s = false) (pageEligibleTexts c))).
Proof.
  induction 1 as [|it it' c c' Hit _ IH].
  - split; [done|]. intros _. split; [constructor|]. split; [constructor|]. done.
  - destruct IH as [IHx IHh].
    destruct it as [t|b], it' as [t'|b']; simpl in Hit; try done.
    destruct Hit as (acc & kids' & -> & Hm & Hacc).
    rewrite !pageExcludedRegions_unit, !pageHighlights_unit, !pageHighlightTexts_unit,
      !pageEligibleTexts_unit, !bodiesOf_unit.
    change (blockBody (withBody kids' b)) with kids'.
    split; [by rewrite IHx, (markedList_excluded _ _ _ _ _ _ Hm)|].
    intros [Hb Hc]%app_eq_nil. destruct (IHh Hc) as (IH1 & IH2 & IH3).
    destruct (markedList_accepted _ _ _ _ _ _ Hm) as [Hno Hyes].
    assert (Hbody : highlightsOfList kids' ≠ [] ↔
                    Exists (λ s, occursIn canon pat s = true) (eligibleTextsList false (blockBody b))).
    { rewrite <- Hacc. destruct acc.
      - split; [done|]. intros _. by apply Hyes.
      - rewrite (Hno eq_refl). split; [done|done]. }
    split; [|split].
    + apply Forall_app. split; [|done]. by apply (markedList_highlightTexts _ _ _ _ _ _ Hm).
    + by constructor.
    + rewrite Forall_app, <- IH3. split.
      * intros [Hk' Hc']%app_eq_nil. split; [|done].
        apply Forall_forall. intros s Hs. destruct (occursIn canon pat s) eqn:Ho; [|done].
        exfalso. apply Hbody; [|done]. apply Exists_exists. eauto.
      * intros [Hall Hc']. rewrite Hc', app_nil_r.
        destruct (highlightsOfList kids') eqn:Hk'; [done|]. exfalso.
        assert (Hex : Exists (λ s, occursIn canon pat s = true)
                             (eligibleTextsList false (blockBody b))) by (apply Hbody; done).
        apply Exists_exists in Hex as (s & Hs & Ho). rewrite Forall_forall in Hall.
        by rewrite (Hall s Hs) in Ho.
Qed.

Lemma bodiesOf_updateMatch_count f g c :
  keepsHighlight f → keepsBody g →
  ∀ k, Forall2 (λ kids kids', length (highlightsOfList kids') = length (highlightsOfList kids))
               (bodiesOf c) (bodiesOf (updateMatch f g k c)).
Proof.
  intros Hf Hg. induction c as [|[t|b] c IH]; intros k; [constructor|apply IH|]. simpl.
  destruct (k <? length (highlightsOfList (blockBody b)))%nat.
  - rewrite !bodiesOf_unit, Hg. simpl. constructor.
    + by rewrite highlightsOfList_alterHighlightList, length_alter.
    + by apply Forall_Forall2_diag, Forall_forall.
  - rewrite !bodiesOf_unit. constructor; [done|apply IH].
Qed.

Lemma foundState_content term st c' :
  content (dom (foundState term st c')) =
  if (0 <? length (pageHighlights c'))%nat
  then updateMatch (classAdd CURRENT) expandBlock 0 c' else c'.
Proof. unfold foundState. by destruct (0 <? length (pageHighlights c'))%nat. Qed.

Lemma foundState_searchMatches term st c' :
  searchMatches (foundState term st c') = seq 0 (length (pageHighlights c')).
Proof. unfold foundState. by destruct (0 <? length (pageHighlights c'))%nat. Qed.

Lemma foundState_resultsCount term st c' :
  resultsCount (dom (foundState term st c')) = foundText (length (pageHighlights c')).
Proof. unfold foundState. by destruct (0 <? length (pageHighlights c'))%nat. Qed.

Lemma keepsBody_expandBlock : keepsBody expandBlock.
Proof. by intros b. Qed.

Lemma foundText_no_matches n : foundText n = "No matches" ↔ n = 0%nat.
Proof.
  split; [|by intros ->]. destruct n as [|n]; [done|]. unfold foundText.
  change (0 <? S n)%nat with true. cbv iota. intros Heq. apply (f_equal strLength) in Heq.
  rewrite !strLength_app in Heq. unfold strLength in Heq. simpl in Heq. lia.
Qed.

(** Excluded regions: whatever the query, the regions matching the excluded
    selector are after [performSearch] exactly the subtrees [clearSearch]
    leaves, and no highlight element lies in one of them. *)
Theorem performSearch_spares_excluded (host : Host) (term : string) (st : App) :
  ∃ st', performSearch host term st = Returns st' ∧
         pageExcludedRegions (content (dom st'))
           = pageExcludedRegions (content (dom (clearSearch st))) ∧
         Forall (λ r, highlightsOf r = []) (pageExcludedRegions (content (dom st'))).
Proof.
  pose proof (pageExcludedRegions_clear_free (content (dom st))) as Hfree.
  change (content (dom (clearSearch st))) with (mapBodies clearBody (content (dom st))).
  destruct (Nat.lt_ge_cases (strLength term) 2) as [Hshort|Hlong].
  - rewrite (performSearch_short host term st Hshort). eexists. split; [done|]. by split.
  - destruct (performSearch_long_marked host term st Hlong) as (c' & Hm & ->).
    eexists. split; [done|]. rewrite foundState_content.
    destruct (itemMarked_page _ _ _ _ Hm) as [Hx _]. rewrite <- Hx in Hfree |- *.
    destruct (0 <? length (pageHighlights c'))%nat; [|by split].
    rewrite pageExcludedRegions_updateMatch;
      [by split|apply matchesExcluded_classAdd_current|apply keepsBody_expandBlock|done].
Qed.

(** Soundness of the highlights: after [performSearch], whatever the query,
    the match list has one entry per highlight element of the document, and
    every highlight element wraps a piece of text of the query's length that
    equals the query up to case. *)
Theorem performSearch_highlights_match (host : Host) (term : string) (st : App) :
  ∃ st', performSearch host term st = Returns st' ∧
         searchMatches st' = seq 0 (length (pageHighlightTexts (content (dom st')))) ∧
         Forall (isMatchOf (canonicalize host) term) (pageHighlightTexts (content (dom st'))).
Proof.
  destruct (Nat.lt_ge_cases (strLength term) 2) as [Hshort|Hlong].
  - rewrite (performSearch_short host term st Hshort). eexists. split; [done|].
    cbn -[mapBodies pageHighlightTexts].
    pose proof (pageHighlightTexts_length (mapBodies clearBody (content (dom st)))) as Hlen.
    rewrite pageHighlights_mapBodies_clear in Hlen.
    destruct (pageHighlightTexts (mapBodies clearBody (content (dom st)))); [|done].
    split; [done|constructor].
  - destruct (performSearch_long_marked host term st Hlong) as (c' & Hm & ->).
    eexists. split; [done|]. rewrite foundState_content, foundState_searchMatches.
    destruct (itemMarked_page _ _ _ _ Hm) as [_ Hh].
    destruct (Hh (pageHighlights_mapBodies_clear _)) as (Hall & _ & _).
    assert (Heq : pageHighlightTexts
                    (if (0 <? length (pageHighlights c'))%nat
                     then updateMatch (classAdd CURRENT) expandBlock 0 c' else c')
                  = pageHighlightTexts c').
    { destruct (0 <? length (pageHighlights c'))%nat; [|done].
      apply pageHighlightTexts_updateMatch;
        [apply keepsHighlight_classAdd|apply keepsBody_expandBlock]. }
    rewrite Heq, pageHighlightTexts_length. by split.
Qed.

(** Completeness at the level of a body: for a query of two or more
    characters, a body holds a highlight after [performSearch] exactly when
    the query occurs, up to case, in one of its text nodes outside the
    excluded regions (text nodes as [clearSearch] leaves them); and the
    result text is "No matches", with an empty match list, exactly when the
    query occurs in no such text node of the document. *)
Theorem performSearch_finds_bodies (host : Host) (term : string) (st : App) :
  (2 ≤ strLength term)%nat →
  let occurs := λ s, occursIn (canonicalize host) term s = true in
  let before := content (dom (clearSearch st)) in
  ∃ st', performSearch host term st = Returns st' ∧
         Forall2 (λ kids kids', highlightsOfList kids' ≠ [] ↔
                                Exists occurs (eligibleTextsList false kids))
                 (bodiesOf before) (bodiesOf (content (dom st'))) ∧
         (resultsCount (dom st') = "No matches" ↔ ¬ Exists occurs (pageEligibleTexts before)) ∧
         (searchMatches st' = [] ↔ ¬ Exists occurs (pageEligibleTexts before)).
Proof.
  intros Hlong occurs before. subst occurs before.
  change (content (dom (clearSearch st))) with (mapBodies clearBody (content (dom st))).
  destruct (performSearch_long_marked host term st Hlong) as (c' & Hm & ->).
  eexists. split; [done|].
  rewrite foundState_content, foundState_searchMatches, foundState_resultsCount.
  destruct (itemMarked_page _ _ _ _ Hm) as [_ Hh].
  destruct (Hh (pageHighlights_mapBodies_clear _)) as (_ & Hbodies & Hnone).
  assert (Hiff : length (pageHighlights c') = 0%nat ↔
                 ¬ Exists (λ s, occursIn (canonicalize host) term s = true)
                     (pageEligibleTexts (mapBodies clearBody (content (dom st))))).
  { rewrite length_zero_iff_nil, Hnone, <- Forall_Exists_neg.
    apply Forall_iff. intros s. by destruct (occursIn (canonicalize host) term s). }
  split; [|split].
  - destruct (0 <? length (pageHighlights c'))%nat; [|done].
    eapply Forall2_trans;
      [|exact Hbodies
       |exact (bodiesOf_updateMatch_count _ _ c' keepsHighlight_classAdd keepsBody_expandBlock 0)].
    intros kids kids1 kids2 Hk Hlen. cbv beta in Hlen. rewrite <- Hk.
    destruct (highlightsOfList kids1), (highlightsOfList kids2); done.
  - by rewrite foundText_no_matches.
  - rewrite <- Hiff. destruct (length (pageHighlights c')); [done|]. done.
Qed.

(** An instance: the query "rate" on the two-paragraph body. *)
Lemma performSearch_finds_bodies_witness :
  let occurs := λ s, occursIn (canonicalize stackHost) "rate" s = true in
  let before := content (dom (clearSearch (loadedApp rateDoc 0))) in
  ∃ st', performSearch stackHost "rate" (loadedApp rateDoc 0) = Returns st' ∧
         Forall2 (λ kids kids', highlightsOfList kids' ≠ [] ↔
                                Exists occurs (eligibleTextsList false kids))
                 (bodiesOf before) (bodiesOf (content (dom st'))) ∧
         (resultsCount (dom st') = "No matches" ↔ ¬ Exists occurs (pageEligibleTexts before)) ∧
         (searchMatches st' = [] ↔ ¬ Exists occurs (pageEligibleTexts before)).
Proof.
  apply (performSearch_finds_bodies stackHost "rate" (loadedApp rateDoc 0)).
  vm_compute. lia.
Defined.

(** *** The search leaves the filter alone *)

Lemma unitsOf_unit b c : unitsOf (Unit b :: c) = b :: unitsOf c.
Proof. done. Qed.

Lemma filterView_withBody kids b : filterView (withBody kids b) = filterView b.
Proof. done. Qed.

Lemma filterView_expandBlock b : filterView (expandBlock b) = filterView b.
Proof.
  unfold filterView, blockShown, expandBlock. simpl. destruct (blockKind b); [|done].
  rewrite contains_classRemove, bool_decide_eq_false_2 by done. by rewrite andb_true_r.
Qed.

Lemma unitsOf_mapBodies_view h c :
  map filterView (unitsOf (mapBodies h c)) = map filterView (unitsOf c).
Proof.
  induction c as [|[t|b] c IH]; [done|apply IH|].
  change (mapBodies h (Unit b :: c)) with (Unit (withBody (h (blockBody b)) b) :: mapBodies h c).
  rewrite !unitsOf_unit. simpl. by rewrite IH.
Qed.

Lemma unitsOf_updateMatch_view f g c :
  (∀ b, filterView (g b) = filterView b) →
  ∀ k, map filterView (unitsOf (updateMatch f g k c)) = map filterView (unitsOf c).
Proof.
  intros Hg. induction c as [|[t|b] c IH]; intros k; [done|apply IH|]. simpl.
  destruct (k <? length (highlightsOfList (blockBody b)))%nat.
  - rewrite !unitsOf_unit. simpl. by rewrite Hg.
  - rewrite !unitsOf_unit. simpl. by rewrite IH.
Qed.

Lemma itemMarked_view canon pat c c' :
  Forall2 (itemMarked canon pat) c c' →
  map filterView (unitsOf c') = map filterView (unitsOf c).
Proof.
  induction 1 as [|it it' c c' Hit _ IH]; [done|].
  destruct it as [t|b], it' as [t'|b']; simpl in Hit; try done.
  destruct Hit as (acc & kids' & -> & _). rewrite !unitsOf_unit. simpl. by rewrite IH.
Qed.

Lemma unmarkedContent_view st :
  map filterView (unitsOf (unmarkedContent st)) = map filterView (unitsOf (content (dom st))).
Proof.
  unfold unmarkedContent.
  destruct ((0 <=? currentSearchIndex st) &&
            (currentSearchIndex st <? Z.of_nat (length (searchMatches st)))); [|done].
  destruct (arrayGet (searchMatches st) (currentSearchIndex st)); [|done].
  by apply unitsOf_updateMatch_view.
Qed.

Lemma markedList_replaced canon pat ex l acc l' :
  markedList canon pat ex l acc l' → replacedList l l'.
Proof.
  apply (markedList_mut canon pat (λ _ n _ ns, replaced n ns) (λ _ l _ l', replacedList l l')).
  - constructor.
  - constructor.
  - intros s ns Hfr Ht Hex. apply replaced_split; [|done|done].
    eapply Forall_impl; [exact Hfr|]. intros n [t|m _ _]; constructor.
  - intros _ c d kids _ kids' _ IH. by constructor.
  - constructor.
  - intros _ n _ ns k _ k' _ IHn _ IHl. by constructor.
Qed.

Lemma itemMarked_replaced canon pat c c' :
  Forall2 (itemMarked canon pat) c c' → Forall2 itemReplaced c c'.
Proof.
  intros H. eapply Forall2_impl; [exact H|]. intros [t|b] [t'|b']; simpl; try done.
  intros (acc & kids' & -> & Hm & _). exists kids'. split; [done|].
  by apply (markedList_replaced _ _ _ _ _ _ Hm).
Qed.

Lemma zonesOfList_app l1 l2 :
  concat (map zonesOf (l1 ++ l2)) = concat (map zonesOf l1) ++ concat (map zonesOf l2).
Proof. by rewrite map_app, concat_app. Qed.

Lemma replacedList_zones l l' :
  replacedList l l' → concat (map zonesOf l') = concat (map zonesOf l).
Proof.
  apply (replacedList_mut
    (λ n ns, concat (map zonesOf ns) = zonesOf n)
    (λ l l', concat (map zonesOf l') = concat (map zonesOf l))).
  - done.
  - intros s ns Hfr _ _. induction Hfr as [|f ns Hf _ IH]; [done|]. simpl. rewrite IH.
    destruct Hf as [t|m]; [done|]. unfold highlightSpan, setTextContent.
    by destruct (strIsEmpty m).
  - intros c d kids kids' _ IH. simpl. by rewrite IH, app_nil_r.
  - done.
  - intros n ns k k' _ IHn _ IHl. rewrite zonesOfList_app, IHn, IHl. done.
Qed.

Lemma zonesOf_alterHighlight f n :
  (∀ c, contains c "dac-zone" = false → contains (f c) "dac-zone" = false) →
  Forall (λ c, contains c "dac-zone" = false) (highlightsOf n) →
  ∀ k, zonesOf (alterHighlight f k n) = zonesOf n.
Proof.
  intros Hf. induction n as [s|c d kids IH] using node_forall_ind; [done|].
  intros Hhl k.
  assert (Hl : Forall (λ c, contains c "dac-zone" = false) (highlightsOfList kids) →
               ∀ j, concat (map zonesOf (alterHighlightList f j kids)) = concat (map zonesOf kids)).
  { clear Hhl. induction IH as [|x ks Hx _ IHks]; intros Hhl j; [done|].
    change (highlightsOfList (x :: ks)) with (highlightsOf x ++ highlightsOfList ks) in Hhl.
    apply Forall_app in Hhl as [Hhx Hhks]. simpl.
    destruct (j <? length (highlightsOf x))%nat; simpl.
    - by rewrite Hx.
    - by rewrite IHks. }
  rewrite alterHighlight_elem. simpl in Hhl. destruct (contains c HIGHLIGHT) eqn:Hc.
  - apply Forall_cons in Hhl as [Hz Hks]. destruct k as [|k']; simpl.
    + by rewrite Hz, (Hf c Hz).
    + f_equal. by apply Hl.
  - simpl. f_equal. by apply Hl.
Qed.

Lemma pageZones_unit b c :
  pageZones (Unit b :: c) = concat (map zonesOf (blockBody b)) ++ pageZones c.
Proof. done. Qed.

Lemma pageZones_updateMatch f g c :
  (∀ cl, contains cl "dac-zone" = false → contains (f cl) "dac-zone" = false) → keepsBody g →
  Forall (λ cl, contains cl "dac-zone" = false) (pageHighlights c) →
  ∀ k, pageZones (updateMatch f g k c) = pageZones c.
Proof.
  intros Hf Hg. induction c as [|[t|b] c IH]; intros Hhl k; [done|by apply IH|]. simpl.
  rewrite pageHighlights_unit in Hhl. apply Forall_app in Hhl as [Hb Hc].
  destruct (k <? length (highlightsOfList (blockBody b)))%nat.
  - rewrite !pageZones_unit, Hg. simpl. f_equal.
    revert k. induction (blockBody b) as [|x l IHl]; intros k; [done|].
    change (highlightsOfList (x :: l)) with (highlightsOf x ++ highlightsOfList l) in Hb.
    apply Forall_app in Hb as [Hx Hl]. simpl.
    destruct (k <? length (highlightsOf x))%nat; simpl.
    + by rewrite zonesOf_alterHighlight.
    + by rewrite IHl.
  - rewrite !pageZones_unit. by rewrite IH.
Qed.

Lemma itemReplaced_zones c c' : Forall2 itemReplaced c c' → pageZones c' = pageZones c.
Proof.
  induction 1 as [|it it' c c' Hit _ IH]; [done|].
  destruct it as [t|b], it' as [t'|b']; simpl in Hit; try done.
  destruct Hit as (kids' & -> & Hrep). rewrite !pageZones_unit, IH. simpl.
  by rewrite (replacedList_zones _ _ Hrep).
Qed.

Lemma navigateSearch_frame d st :
  searchMatches st ≠ [] →
  ∃ st' m,
    navigateSearch d st = Returns st' ∧
    arrayGet (searchMatches st) (nextIndex d st) = Some m ∧
    content (dom st') = updateMatch (classAdd CURRENT) expandBlock m (unmarkedContent st) ∧
    activeFilters st' = activeFilters st ∧
    norwayFilterActive st' = norwayFilterActive st ∧
    filterBtns (dom st') = filterBtns (dom st) ∧
    norwayBtnActive (dom st') = norwayBtnActive (dom st) ∧
    tocEntries (dom st') = tocEntries (dom st) ∧
    pageYOffset st' = pageYOffset st.
Proof.
  intros Hne. pose proof (nextIndex_range d st Hne) as Hr.
  destruct (arrayGet_in_range _ _ Hr) as (m & Hm & _).
  unfold navigateSearch.
  destruct (Z.eqb_spec (Z.of_nat (length (searchMatches st))) 0) as [Hz|_]; [lia|].
  assert (Hfirst : ∃ st1,
    (if (0 <=? currentSearchIndex st) &&
        (currentSearchIndex st <? Z.of_nat (length (searchMatches st)))
     then match arrayGet (searchMatches st) (currentSearchIndex st) with
          | None => Throws "TypeError"
          | Some m0 => Returns (withDom (withContent
                (updateMatch (classRemove CURRENT) id m0 (content (dom st))) (dom st)) st)
          end
     else Returns st) = Returns st1 ∧
    st1 = withDom (withContent (unmarkedContent st) (dom st)) st).
  { unfold unmarkedContent.
    destruct (Z.leb_spec 0 (currentSearchIndex st)); simpl.
    - destruct (Z.ltb_spec (currentSearchIndex st) (Z.of_nat (length (searchMatches st)))).
      + destruct (arrayGet_in_range (searchMatches st) (currentSearchIndex st)) as (m0 & -> & _);
          [lia|]. eauto.
      + eexists. split; [done|]. by destruct st as [[]].
    - eexists. split; [done|]. by destruct st as [[]]. }
  destruct Hfirst as (st1 & -> & ->). cbn [bindC].
  fold (nextIndex d st).
  change (searchMatches (withCurrentSearchIndex (nextIndex d st)
            (withDom (withContent (unmarkedContent st) (dom st)) st)))
    with (searchMatches st).
  rewrite Hm. eexists _, m. split; [done|]. done.
Qed.

Lemma search_frame (host : Host) (term : string) (d : Z) (st : App) :
  sameFilterState st (clearSearch st) ∧
  (∃ st1, performSearch host term st = Returns st1 ∧ sameFilterState st st1 ∧
          pageZones (content (dom st1)) = pageZones (content (dom (clearSearch st)))) ∧
  (∃ st2, navigateSearch d st = Returns st2 ∧ sameFilterState st st2).
Proof.
  assert (Hclear : map filterView (unitsOf (mapBodies clearBody (content (dom st))))
                   = map filterView (unitsOf (content (dom st))))
    by apply unitsOf_mapBodies_view.
  split; [|split].
  - unfold sameFilterState. by do 5 (split; [done|]).
  - destruct (Nat.lt_ge_cases (strLength term) 2) as [Hshort|Hlong].
    + rewrite (performSearch_short host term st Hshort). eexists. split; [done|].
      split; [|done]. unfold sameFilterState. by do 5 (split; [done|]).
    + destruct (performSearch_long_marked host term st Hlong) as (c' & Hm & ->).
      eexists. split; [done|]. split.
      * unfold sameFilterState. rewrite foundState_content. unfold foundState.
        split; [by destruct (0 <? length (pageHighlights c'))%nat|].
        split; [by destruct (0 <? length (pageHighlights c'))%nat|].
        split; [by destruct (0 <? length (pageHighlights c'))%nat|].
        split; [by destruct (0 <? length (pageHighlights c'))%nat|].
        split; [by destruct (0 <? length (pageHighlights c'))%nat|].
        rewrite <- Hclear, <- (itemMarked_view _ _ _ _ Hm).
        destruct (0 <? length (pageHighlights c'))%nat; [|done].
        apply unitsOf_updateMatch_view, filterView_expandBlock.
      * apply itemMarked_replaced in Hm.
        change (content (dom (clearSearch st))) with (mapBodies clearBody (content (dom st))).
        rewrite foundState_content, <- (itemReplaced_zones _ _ Hm).
        destruct (0 <? length (pageHighlights c'))%nat; [|done].
        apply pageZones_updateMatch; [|apply keepsBody_expandBlock|].
        -- intros cl Hcl. by rewrite contains_classAdd, Hcl, bool_decide_eq_false_2.
        -- eapply Forall_impl;
             [exact (replacedBodies_fresh _ _ (itemReplaced_bodies _ _ Hm)
                       (pageHighlights_mapBodies_clear _))|].
           by intros cl ->.
  - destruct (searchMatches st) as [|m0 ms] eqn:Hms.
    + rewrite (navigateSearch_empty d st Hms). eexists. split; [done|].
      unfold sameFilterState. by do 5 (split; [done|]).
    + destruct (navigateSearch_frame d st) as (st2 & m & -> & _ & Hc & H1 & H2 & H3 & H4 & H5 & _);
        [by rewrite Hms|].
      eexists. split; [done|]. unfold sameFilterState. do 5 (split; [done|]).
      rewrite Hc, <- (unmarkedContent_view st).
      apply unitsOf_updateMatch_view, filterView_expandBlock.
Qed.

(** The search never touches what the filter owns.  Whatever the query and
    the direction, [performSearch] and [navigateSearch] return, and after
    each of them and after [clearSearch] the active set, the buttons and the
    table of contents are what they were and every unit is shown or hidden
    as before; the zones after [performSearch], with their class lists, are
    the zones [clearSearch] leaves. *)
Theorem search_keeps_filter (host : Host) (term : string) (d : Z) (st : App) :
  sameFilterState st (clearSearch st) ∧
  (∃ st1, performSearch host term st = Returns st1 ∧ sameFilterState st st1 ∧
          pageZones (content (dom st1)) = pageZones (content (dom (clearSearch st)))) ∧
  (∃ st2, navigateSearch d st = Returns st2 ∧ sameFilterState st st2).
Proof. apply search_frame. Qed.

(** *** The block around the current match *)

Lemma matchBlock_updateMatch f g c :
  keepsHighlight f → keepsBody g →
  ∀ k, (k < length (pageHighlights c))%nat →
       ∃ b0, matchBlock k (updateMatch f g k c) = Some (g b0).
Proof.
  intros Hf Hg. induction c as [|[t|b] c IH]; intros k Hk.
  - simpl in Hk. lia.
  - by apply IH.
  - rewrite pageHighlights_unit, length_app in Hk. simpl.
    destruct (Nat.ltb_spec k (length (highlightsOfList (blockBody b)))) as [Hlt|Hge].
    + eexists. simpl. rewrite Hg. simpl.
      rewrite highlightsOfList_alterHighlightList, length_alter by done.
      destruct (Nat.ltb_spec k (length (highlightsOfList (blockBody b)))); [done|lia].
    + simpl. destruct (Nat.ltb_spec k (length (highlightsOfList (blockBody b)))); [lia|].
      apply IH. lia.
Qed.

Lemma isCollapsed_expandBlock b : isCollapsed (expandBlock b) = false.
Proof.
  unfold isCollapsed, expandBlock. simpl.
  rewrite contains_classRemove, bool_decide_eq_true_2 by done. apply andb_false_r.
Qed.

(** The current match is never left inside a collapsed unit: when
    [performSearch] finds a match, the unit around the first match is not
    collapsed afterwards; and in a consistent search state with matches,
    [navigateSearch] leaves the unit around the match it moved to not
    collapsed. *)
Theorem current_match_unit_expanded (host : Host) (term : string) (d : Z) (st : App) :
  (∃ st1, performSearch host term st = Returns st1 ∧
          (searchMatches st1 ≠ [] →
           ∃ b, matchBlock 0 (content (dom st1)) = Some b ∧ isCollapsed b = false)) ∧
  (searchInv st → searchMatches st ≠ [] →
   ∃ st2 m b, navigateSearch d st = Returns st2 ∧
              arrayGet (searchMatches st2) (currentSearchIndex st2) = Some m ∧
              matchBlock m (content (dom st2)) = Some b ∧ isCollapsed b = false).
Proof.
  split.
  - destruct (Nat.lt_ge_cases (strLength term) 2) as [Hshort|Hlong].
    + rewrite (performSearch_short host term st Hshort). eexists. split; [done|]. done.
    + destruct (performSearch_long_marked host term st Hlong) as (c' & _ & ->).
      eexists. split; [done|].
      rewrite foundState_content, foundState_searchMatches.
      destruct (Nat.ltb_spec 0 (length (pageHighlights c'))) as [Hpos|Hzero].
      * intros _.
        destruct (matchBlock_updateMatch (classAdd CURRENT) expandBlock c'
                    keepsHighlight_classAdd keepsBody_expandBlock 0 Hpos) as [b0 Hb0].
        exists (expandBlock b0). split; [done|apply isCollapsed_expandBlock].
      * replace (length (pageHighlights c')) with 0%nat by lia. done.
  - intros Hinv Hne.
    destruct (searchInv_cases st Hinv) as [[Hm _]|(Hm & Hr & _)]; [done|].
    destruct (navigateSearch_spec d st Hne) as (st2 & m & Hnav & Hget & Hi' & Hm' & _ & Hc & _).
    pose proof (nextIndex_range d st Hne) as Hr'. rewrite Hm, length_seq in Hr'.
    assert (Hmn : (m < length (pageHighlights (content (dom st))))%nat).
    { unfold arrayGet in Hget. destruct (Z.ltb_spec (nextIndex d st) 0); [lia|].
      rewrite Hm in Hget. apply lookup_seq in Hget as [-> _]. lia. }
    assert (Hlen : length (pageHighlights (unmarkedContent st))
                   = length (pageHighlights (content (dom st)))).
    { unfold unmarkedContent.
      destruct ((0 <=? currentSearchIndex st) &&
                (currentSearchIndex st <? Z.of_nat (length (searchMatches st)))); [|done].
      destruct (arrayGet (searchMatches st) (currentSearchIndex st)); [|done].
      rewrite pageHighlights_updateMatch by (first [apply keepsHighlight_classRemove | by intros b]).
      apply length_alter. }
    destruct (matchBlock_updateMatch (classAdd CURRENT) expandBlock (unmarkedContent st)
                keepsHighlight_classAdd keepsBody_expandBlock m) as [b0 Hb0]; [lia|].
    exists st2, m, (expandBlock b0). split; [done|]. rewrite Hi', Hm', Hc.
    split; [done|]. split; [done|apply isCollapsed_expandBlock].
Qed.

(** An instance: two matches found, a step forward. *)
Lemma current_match_unit_expanded_witness :
  (∃ st1, performSearch stackHost "rate" twoRatesFound = Returns st1 ∧
          (searchMatches st1 ≠ [] →
           ∃ b, matchBlock 0 (content (dom st1)) = Some b ∧ isCollapsed b = false)) ∧
  ∃ st2 m b, navigateSearch 1 twoRatesFound = Returns st2 ∧
             arrayGet (searchMatches st2) (currentSearchIndex st2) = Some m ∧
             matchBlock m (content (dom st2)) = Some b ∧ isCollapsed b = false.
Proof.
  destruct (current_match_unit_expanded stackHost "rate" 1 twoRatesFound) as [Hs Hn].
  split; [exact Hs|]. apply Hn.
  - unfold twoRatesFound.
    destruct (searchInv_performSearch stackHost "rate" (loadedApp twoRatesDoc 0))
      as (st' & Hs' & Hinv).
    rewrite Hs'. exact Hinv.
  - vm_compute. discriminate.
Defined.

(** *** Expand all, collapse all *)

Lemma filterView_collapseBlock b : filterView (collapseBlock b) = filterView b.
Proof.
  unfold filterView, blockShown, collapseBlock. simpl. destruct (blockKind b); [|done].
  rewrite contains_classAdd, bool_decide_eq_false_2 by done. by rewrite orb_false_r.
Qed.

Lemma isCollapsed_collapseBlock b : isCollapsed (collapseBlock b) = true.
Proof.
  unfold isCollapsed, collapseBlock. simpl.
  rewrite contains_classAdd, bool_decide_eq_true_2 by done. apply orb_true_r.
Qed.

Lemma unitsOf_mapUnits g c : unitsOf (mapUnits g c) = map g (unitsOf c).
Proof.
  induction c as [|[t|b] c IH]; [done|apply IH|].
  change (mapUnits g (Unit b :: c)) with (Unit (g b) :: mapUnits g c).
  rewrite !unitsOf_unit, IH. done.
Qed.

Lemma bodiesOf_mapUnits g c : keepsBody g → bodiesOf (mapUnits g c) = bodiesOf c.
Proof.
  intros Hg. induction c as [|[t|b] c IH]; [done|apply IH|].
  change (mapUnits g (Unit b :: c)) with (Unit (g b) :: mapUnits g c).
  rewrite !bodiesOf_unit, IH, Hg. done.
Qed.

Lemma mapUnits_keeps_searchInv g st :
  keepsBody g → searchInv st →
  searchInv (withDom (withContent (mapUnits g (content (dom st))) (dom st)) st).
Proof.
  intros Hg Hinv. unfold searchInv in *. cbn -[pageHighlights mapUnits].
  unfold pageHighlights in *. by rewrite bodiesOf_mapUnits.
Qed.

Lemma expandAllClick_frame st : sameFilterState st (expandAllClick st).
Proof.
  unfold sameFilterState, expandAllClick. cbn -[mapUnits unitsOf]. do 5 (split; [done|]).
  rewrite unitsOf_mapUnits, map_map. apply map_ext. apply filterView_expandBlock.
Qed.

Lemma collapseAllClick_frame st : sameFilterState st (collapseAllClick st).
Proof.
  unfold sameFilterState, collapseAllClick. cbn -[mapUnits unitsOf]. do 5 (split; [done|]).
  rewrite unitsOf_mapUnits, map_map. apply map_ext. apply filterView_collapseBlock.
Qed.

(** "Expand all" leaves no unit collapsed and "Collapse all" leaves every
    unit collapsed; neither changes anything else: the filter state and
    what is shown, the bodies with their highlights, the match list and the
    current index are what they were, and a consistent search state stays
    consistent. *)
Theorem expand_collapse_all_only_collapse (st : App) :
  searchInv st →
  let ex := expandAllClick st in
  let co := collapseAllClick st in
  Forall (λ b, isCollapsed b = false) (unitsOf (content (dom ex))) ∧
  Forall (λ b, isCollapsed b = true) (unitsOf (content (dom co))) ∧
  sameFilterState st ex ∧ sameFilterState st co ∧
  bodiesOf (content (dom ex)) = bodiesOf (content (dom st)) ∧
  bodiesOf (content (dom co)) = bodiesOf (content (dom st)) ∧
  searchMatches ex = searchMatches st ∧ currentSearchIndex ex = currentSearchIndex st ∧
  searchMatches co = searchMatches st ∧ currentSearchIndex co = currentSearchIndex st ∧
  searchInv ex ∧ searchInv co.
Proof.
  intros Hinv ex co. subst ex co. unfold expandAllClick, collapseAllClick.
  cbn -[mapUnits unitsOf bodiesOf searchInv sameFilterState].
  rewrite !unitsOf_mapUnits.
  rewrite !bodiesOf_mapUnits by (by intros b).
  split; [apply Forall_map, Forall_forall; intros b _; apply isCollapsed_expandBlock|].
  split; [apply Forall_map, Forall_forall; intros b _; apply isCollapsed_collapseBlock|].
  split.
  { unfold sameFilterState. cbn -[mapUnits unitsOf]. do 5 (split; [done|]).
    rewrite unitsOf_mapUnits, map_map. apply map_ext. apply filterView_expandBlock. }
  split.
  { unfold sameFilterState. cbn -[mapUnits unitsOf]. do 5 (split; [done|]).
    rewrite unitsOf_mapUnits, map_map. apply map_ext. apply filterView_collapseBlock. }
  do 6 (split; [done|]).
  split; apply mapUnits_keeps_searchInv; done.
Qed.

(** An instance: the state with two matches found. *)
Lemma expand_collapse_all_only_collapse_witness :
  let ex := expandAllClick twoRatesFound in
  let co := collapseAllClick twoRatesFound in
  Forall (λ b, isCollapsed b = false) (unitsOf (content (dom ex))) ∧
  Forall (λ b, isCollapsed b = true) (unitsOf (content (dom co))) ∧
  sameFilterState twoRatesFound ex ∧ sameFilterState twoRatesFound co ∧
  bodiesOf (content (dom ex)) = bodiesOf (content (dom twoRatesFound)) ∧
  bodiesOf (content (dom co)) = bodiesOf (content (dom twoRatesFound)) ∧
  searchMatches ex = searchMatches twoRatesFound ∧
  currentSearchIndex ex = currentSearchIndex twoRatesFound ∧
  searchMatches co = searchMatches twoRatesFound ∧
  currentSearchIndex co = currentSearchIndex twoRatesFound ∧
  searchInv ex ∧ searchInv co.
Proof.
  apply (expand_collapse_all_only_collapse twoRatesFound).
  unfold twoRatesFound.
  destruct (searchInv_performSearch stackHost "rate" (loadedApp twoRatesDoc 0))
    as (st' & Hs & Hinv).
  rewrite Hs. exact Hinv.
Defined.

(** *** A click on a filter button *)

Lemma toggleBtn_involutive b : toggleBtn (toggleBtn b) = b.
Proof. destruct b as [t a]. unfold toggleBtn. simpl. by rewrite negb_involutive. Qed.

Lemma alter_toggleBtn_twice (i : nat) (l : list button) :
  alter toggleBtn i (alter toggleBtn i l) = l.
Proof.
  revert i. induction l as [|b l IH]; intros [|i]; [done|done| |].
  - change (alter toggleBtn 0%nat (alter toggleBtn 0%nat (b :: l))) with (toggleBtn (toggleBtn b) :: l).
    by rewrite toggleBtn_involutive.
  - change (alter toggleBtn (S i) (alter toggleBtn (S i) (b :: l)))
      with (b :: alter toggleBtn i (alter toggleBtn i l)).
    by rewrite IH.
Qed.

Lemma readActiveFilters_toggle p i b t :
  NoDup (map btnDac (filterBtns p)) →
  filterBtns p !! i = Some b →
  t ∈ readActiveFilters (withFilterBtns (alter toggleBtn i (filterBtns p)) p) ↔
  (t = btnDac b ∧ btnActive b = false) ∨ (t ≠ btnDac b ∧ t ∈ readActiveFilters p).
Proof.
  intros Hnd Hi. rewrite !readActiveFilters_spec. simpl.
  assert (Huniq : ∀ j b', filterBtns p !! j = Some b' → btnDac b' = btnDac b → j = i).
  { intros j b' Hj Hd. apply (NoDup_lookup _ j i (btnDac b) Hnd).
    - by rewrite list_lookup_fmap, Hj, <- Hd.
    - by rewrite list_lookup_fmap, Hi. }
  split.
  - intros (b' & [j Hj]%list_elem_of_lookup_1 & Ha & <-).
    destruct (decide (j = i)) as [->|Hne].
    + rewrite list_lookup_alter_eq, Hi in Hj. injection Hj as <-. left.
      split; [done|]. simpl in Ha. by apply negb_true_iff.
    + rewrite list_lookup_alter_ne in Hj by done. right. split.
      * intros Hd. by apply Hne, (Huniq j b').
      * exists b'. split; [by eapply list_elem_of_lookup_2|done].
  - intros [[-> Ha]|[Hne (b' & [j Hj]%list_elem_of_lookup_1 & Ha & <-)]].
    + exists (toggleBtn b). split; [|by rewrite <- negb_true_iff in Ha].
      apply (list_elem_of_lookup_2 _ i). by rewrite list_lookup_alter_eq, Hi.
    + exists b'. split; [|done]. apply (list_elem_of_lookup_2 _ j).
      rewrite list_lookup_alter_ne; [done|]. intros ->. rewrite Hi in Hj. by injection Hj as <-.
Qed.

Lemma filterItem_view a af b :
  ∃ b', filterItem a af (Unit b) = Unit b' ∧
        blockKind b' = blockKind b ∧ blockId b' = blockId b ∧
        blockSources b' = blockSources b ∧
        blockShown b' = unitVisible a af (blockSources b) ∧
        blockDisplay b' = match blockKind b with
                          | Article => blockDisplay b
                          | Annex => if unitVisible a af (blockSources b) then "" else "none"
                          end.
Proof.
  unfold filterItem. destruct (blockKind b) eqn:Hk; eexists; (split; [done|]);
    unfold blockShown; simpl; rewrite Hk; (do 3 (split; [done|])).
  - split; [|done]. by rewrite contains_classToggleForce, negb_involutive.
  - split; [|done]. by destruct (unitVisible a af (blockSources b)).
Qed.

(** The filter's verdict on a unit depends on the active set only, not on
    what an earlier filter made of the unit. *)
Lemma filterItem_last_wins a af a1 af1 c :
  map filterView (unitsOf (map (filterItem a af) (map (filterItem a1 af1) c))) =
  map filterView (unitsOf (map (filterItem a af) c)).
Proof.
  induction c as [|[t|b] c IH]; [done|apply IH|].
  destruct (filterItem_view a1 af1 b) as (b1 & E1 & K1 & I1 & S1 & _ & D1).
  destruct (filterItem_view a af b1) as (b2 & E2 & K2 & I2 & S2 & V2 & D2).
  destruct (filterItem_view a af b) as (b3 & E3 & K3 & I3 & S3 & V3 & D3).
  change (map (filterItem a af) (map (filterItem a1 af1) (Unit b :: c)))
    with (filterItem a af (filterItem a1 af1 (Unit b))
          :: map (filterItem a af) (map (filterItem a1 af1) c)).
  change (map (filterItem a af) (Unit b :: c))
    with (filterItem a af (Unit b) :: map (filterItem a af) c).
  rewrite E1, E2, E3, !unitsOf_unit. simpl. rewrite IH. f_equal.
  unfold filterView. rewrite K2, I2, S2, V2, D2, K3, I3, S3, V3, D3, K1, S1.
  rewrite D1, I1. by destruct (blockKind b).
Qed.

Lemma filterToc_last_wins a af a1 af1 l :
  map (λ e, (tocSources e, tocShown e)) (map (filterToc a af) (map (filterToc a1 af1) l)) =
  map (λ e, (tocSources e, tocShown e)) (map (filterToc a af) l).
Proof.
  rewrite !map_map. apply map_ext. intros e. unfold tocShown, filterToc. simpl.
  by rewrite !contains_classToggleForce.
Qed.

Lemma zoneView_filtered v c d :
  zoneView (d, classToggleForce "dac-zone-hidden" (negb v) c) = (d, v).
Proof.
  unfold zoneView, zoneShown. simpl. by rewrite contains_classToggleForce, negb_involutive.
Qed.

Lemma pageZones_last_wins a af a1 af1 c :
  map zoneView (pageZones (map (filterItem a af) (map (filterItem a1 af1) c))) =
  map zoneView (pageZones (map (filterItem a af) c)).
Proof.
  rewrite !pageZones_filterItem, !map_map. apply map_ext. intros [d cl]. simpl.
  by rewrite !zoneView_filtered.
Qed.

(** A click on the button at position [i] of the filter bar, whose tags are
    pairwise distinct: the tag of that button becomes active if it was not
    and stops being active if it was, every other tag stays as it is, and
    the Norway preset flag is not touched.  A second click on the same
    button brings back the buttons, the active set and, for every unit,
    table-of-contents entry and zone, what [updateFilters] shows for the
    buttons as they were. *)
Theorem filterClick_toggles_one (host : Host) (i : nat) (b : button) (st : App) :
  NoDup (map btnDac (filterBtns (dom st))) →
  filterBtns (dom st) !! i = Some b →
  let st1 := filterClick host i st in
  let st2 := filterClick host i st1 in
  let st0 := updateFilters host st in
  (∀ t, t ∈ activeFilters st1 ↔
        (t = btnDac b ∧ btnActive b = false) ∨
        (t ≠ btnDac b ∧ t ∈ readActiveFilters (dom st))) ∧
  norwayFilterActive st1 = norwayFilterActive st ∧
  filterBtns (dom st2) = filterBtns (dom st) ∧
  activeFilters st2 = activeFilters st0 ∧
  map filterView (unitsOf (content (dom st2))) = map filterView (unitsOf (content (dom st0))) ∧
  map (λ e, (tocSources e, tocShown e)) (tocEntries (dom st2))
    = map (λ e, (tocSources e, tocShown e)) (tocEntries (dom st0)) ∧
  map zoneView (pageZones (content (dom st2))) = map zoneView (pageZones (content (dom st0))).
Proof.
  intros Hnd Hi st1 st2 st0. subst st1 st2 st0. unfold filterClick.
  split.
  { intros t. rewrite updateFilters_activeFilters. cbn [dom withDom].
    by apply readActiveFilters_toggle. }
  split; [by rewrite updateFilters_norwayFilterActive|].
  set (p1 := withFilterBtns (alter toggleBtn i (filterBtns (dom st))) (dom st)).
  set (stA := updateFilters host (withDom p1 st)).
  assert (Hbtn : alter toggleBtn i (filterBtns (dom stA)) = filterBtns (dom st)).
  { unfold stA. rewrite updateFilters_filterBtns. cbn [dom withDom]. unfold p1.
    cbn [filterBtns withFilterBtns]. apply alter_toggleBtn_twice. }
  assert (Haf : readActiveFilters (withFilterBtns (alter toggleBtn i (filterBtns (dom stA))) (dom stA))
                = readActiveFilters (dom st)).
  { unfold readActiveFilters. cbn [filterBtns withFilterBtns]. by rewrite Hbtn. }
  split; [by rewrite updateFilters_filterBtns|].
  split; [rewrite !updateFilters_activeFilters; cbn [dom withDom]; exact Haf|].
  rewrite (updateFilters_dom host (withDom _ stA)), (updateFilters_dom host st).
  cbn zeta. cbn [dom withDom]. rewrite Haf.
  change (content (withTocEntries ?t (withContent ?c ?p))) with c.
  change (tocEntries (withTocEntries ?t ?p)) with t.
  change (content (withFilterBtns ?bs ?p)) with (content p).
  change (tocEntries (withFilterBtns ?bs ?p)) with (tocEntries p).
  unfold stA. rewrite (updateFilters_dom host (withDom p1 st)). cbn zeta. cbn [dom withDom].
  change (content (withTocEntries ?t (withContent ?c ?p))) with c.
  change (tocEntries (withTocEntries ?t ?p)) with t.
  change (content p1) with (content (dom st)).
  change (tocEntries (withContent ?c p1)) with (tocEntries (dom st)).
  split; [apply filterItem_last_wins|].
  split; [apply filterToc_last_wins|apply pageZones_last_wins].
Qed.

(** An instance: the button of DAC7 in the freshly rendered bar. *)
Lemma filterClick_toggles_one_witness :
  let st := loadedApp hidingDoc 0 in
  let b := Button "DAC7" true in
  let st1 := filterClick stackHost 6 st in
  let st2 := filterClick stackHost 6 st1 in
  let st0 := updateFilters stackHost st in
  (∀ t, t ∈ activeFilters st1 ↔
        (t = btnDac b ∧ btnActive b = false) ∨
        (t ≠ btnDac b ∧ t ∈ readActiveFilters (dom st))) ∧
  norwayFilterActive st1 = norwayFilterActive st ∧
  filterBtns (dom st2) = filterBtns (dom st) ∧
  activeFilters st2 = activeFilters st0 ∧
  map filterView (unitsOf (content (dom st2))) = map filterView (unitsOf (content (dom st0))) ∧
  map (λ e, (tocSources e, tocShown e)) (tocEntries (dom st2))
    = map (λ e, (tocSources e, tocShown e)) (tocEntries (dom st0)) ∧
  map zoneView (pageZones (content (dom st2))) = map zoneView (pageZones (content (dom st0))).
Proof.
  apply (filterClick_toggles_one stackHost 6 (Button "DAC7" true) (loadedApp hidingDoc 0)).
  - apply (bool_decide_unpack _). vm_compute. exact I.
  - reflexivity.
Defined.

(** *** escapeRegex *)

Lemma backslash_special : isRegexSpecial BACKSLASH = true.
Proof. by vm_compute. Qed.

Lemma escapeRegex_read str : literalOfPattern (escapeRegex str) = Some str.
Proof.
  induction str as [|c rest IH]; [done|]. simpl.
  destruct (isRegexSpecial c) eqn:Hc.
  - cbn [literalOfPattern]. rewrite bool_decide_eq_true_2 by done. rewrite Hc.
    fold literalOfPattern. by rewrite IH.
  - cbn [literalOfPattern]. rewrite bool_decide_eq_false_2.
    + rewrite Hc. fold literalOfPattern. by rewrite IH.
    + intros ->. by rewrite backslash_special in Hc.
Qed.

Lemma escapeRegex_plain str :
  existsb isRegexSpecial (list_ascii_of_string str) = false → escapeRegex str = str.
Proof.
  induction str as [|c rest IH]; [done|]. simpl.
  intros [Hc Hrest]%orb_false_iff. by rewrite Hc, IH.
Qed.

(** The pattern [escapeRegex] makes of a string is read back by the engine
    as that string, so the regular expression of [performSearch] searches
    for the query itself, whatever characters it holds; the escaping is
    therefore injective, and it leaves a string without syntax characters
    as it is. *)
Theorem escapeRegex_denotes_literal (str : string) :
  literalOfPattern (escapeRegex str) = Some str ∧
  compileRegExp (escapeRegex str) = Some (newRegExp str) ∧
  (∀ str', escapeRegex str' = escapeRegex str → str' = str) ∧
  (existsb isRegexSpecial (list_ascii_of_string str) = false → escapeRegex str = str).
Proof.
  split; [apply escapeRegex_read|].
  split; [unfold compileRegExp; by rewrite escapeRegex_read|].
  split; [|apply escapeRegex_plain].
  intros str' Heq. apply (f_equal literalOfPattern) in Heq.
  rewrite !escapeRegex_read in Heq. by injection Heq.
Qed.

(** An instance: a query with syntax characters, and one without. *)
Lemma escapeRegex_denotes_literal_witness :
  escapeRegex "Art. 8(3a)" = "Art\. 8\(3a\)" ∧
  literalOfPattern (escapeRegex "rate") = Some "rate" ∧
  compileRegExp (escapeRegex "rate") = Some (newRegExp "rate") ∧
  (∀ str', escapeRegex str' = escapeRegex "rate" → str' = "rate") ∧
  escapeRegex "rate" = "rate".
Proof.
  split; [reflexivity|].
  destruct (escapeRegex_denotes_literal "rate") as (H1 & H2 & H3 & H4).
  split; [exact H1|]. split; [exact H2|]. split; [exact H3|]. apply H4. reflexivity.
Defined.

(** *** render: the table of contents and the content column *)

Lemma unitsOf_app c1 c2 : unitsOf (c1 ++ c2) = unitsOf c1 ++ unitsOf c2.
Proof. unfold unitsOf. apply omap_app. Qed.

Lemma unitsOf_map_Unit {A} (g : A → block) (l : list A) :
  unitsOf (map (λ x, Unit (g x)) l) = map g l.
Proof. induction l as [|x l IH]; [done|]. cbn [map]. by rewrite unitsOf_unit, IH. Qed.

Lemma unitsOf_heading t c : unitsOf (ChapterHeading t :: c) = unitsOf c.
Proof. done. Qed.

Lemma unitsOf_renderContent parse data :
  unitsOf (renderContent parse data) =
  concat (map (λ chapter,
                 concat (map (λ section, map (createArticleBlock parse) (secArticles section))
                             (chSections chapter))
                 ++ map (createArticleBlock parse) (chArticles chapter))
              (dataChapters data))
  ++ map (createAnnexBlock parse) (dataAnnexes data).
Proof.
  unfold renderContent. rewrite unitsOf_app, unitsOf_map_Unit. f_equal.
  induction (dataChapters data) as [|ch chs IH]; [done|]. cbn [map concat].
  rewrite unitsOf_app, unitsOf_heading, unitsOf_app, IH, unitsOf_map_Unit.
  f_equal. f_equal.
  induction (chSections ch) as [|sec secs IHs]; [done|]. cbn [map concat].
  by rewrite unitsOf_app, IHs, unitsOf_map_Unit.
Qed.

Lemma renderTOC_annexes data :
  renderTOC data =
  concat (map (λ chapter,
                 concat (map (λ section, map createTocArticle (secArticles section))
                             (chSections chapter))
                 ++ map createTocArticle (chArticles chapter))
              (dataChapters data))
  ++ map (λ annex, TocEntry (anxSources annex) ["toc-annex"]) (dataAnnexes data).
Proof. unfold renderTOC. by destruct (dataAnnexes data). Qed.

Lemma Forall2_map_both {A B C} (R : B → C → Prop) (f : A → B) (g : A → C) (l : list A) :
  (∀ x, R (f x) (g x)) → Forall2 R (map f l) (map g l).
Proof. intros H. induction l; constructor; auto. Qed.

(** What [render] builds: the links of the table of contents correspond one
    by one, in document order, to the units of the content column, an
    article link to an article block and an annex link to an annex block,
    with the same sources; nothing is hidden; every article block starts
    expanded and every annex block collapsed; and the filter bar has one
    active button per catalog tag. *)
Theorem render_toc_matches_content (parse : string → list node) (data : docData) (y : Z) :
  let st := render parse data y in
  Forall2 (λ e b, tocSources e = blockSources b ∧
                  tocClasses e = match blockKind b with
                                 | Article => ["toc-article"]
                                 | Annex => ["toc-annex"]
                                 end ∧
                  tocShown e = true ∧ blockShown b = true ∧
                  isCollapsed b = match blockKind b with Article => false | Annex => true end)
          (tocEntries (dom st)) (unitsOf (content (dom st))) ∧
  tocMirrors st ∧
  map btnDac (filterBtns (dom st)) = ALL_DACS ∧
  Forall (λ b, btnActive b = true) (filterBtns (dom st)).
Proof.
  intros st. subst st.
  assert (Hmain : Forall2 (λ e b, tocSources e = blockSources b ∧
                  tocClasses e = match blockKind b with
                                 | Article => ["toc-article"]
                                 | Annex => ["toc-annex"]
                                 end ∧
                  tocShown e = true ∧ blockShown b = true ∧
                  isCollapsed b = match blockKind b with Article => false | Annex => true end)
          (renderTOC data) (unitsOf (renderContent parse data))).
  { rewrite unitsOf_renderContent, renderTOC_annexes. apply Forall2_app.
    - induction (dataChapters data) as [|ch chs IH]; [constructor|]. simpl.
      apply Forall2_app; [|done]. apply Forall2_app.
      + induction (chSections ch) as [|sec secs IHs]; [constructor|]. simpl.
        apply Forall2_app; [|done]. by apply Forall2_map_both.
      + by apply Forall2_map_both.
    - by apply Forall2_map_both. }
  split; [exact Hmain|]. split.
  - unfold tocMirrors. eapply Forall2_impl; [exact Hmain|].
    intros e b (Hs & _ & He & Hb & _). by rewrite He, Hb.
  - split; [apply renderFilters_tags|]. unfold render. simpl. by repeat constructor.
Qed.

(** *** The table of contents stays in step *)

Lemma tocMirrors_same st st' : sameFilterState st st' → tocMirrors st → tocMirrors st'.
Proof.
  intros (_ & _ & _ & _ & Ht & Hu). unfold tocMirrors. rewrite Ht.
  generalize (tocEntries (dom st)). revert Hu.
  generalize (unitsOf (content (dom st'))) (unitsOf (content (dom st))).
  intros u' u Hu. revert u' Hu. induction u as [|b u IH]; intros [|b' u'] Hu; try done.
  intros toc Hm. inversion Hm as [|e b0 toc0 u0 [Hs Hv] Hrest]; subst.
  injection Hu as _ _ Hsrc _ Hshown Hu. constructor; [|by apply IH].
  by rewrite Hsrc, Hshown.
Qed.

Lemma updateFilters_tocMirrors host st :
  Forall2 (λ e b, tocSources e = blockSources b)
          (tocEntries (dom st)) (unitsOf (content (dom st))) →
  tocMirrors (updateFilters host st).
Proof.
  intros Hsrc. unfold tocMirrors. rewrite updateFilters_dom. cbn zeta.
  change (tocEntries (withTocEntries ?t ?p)) with t.
  change (content (withTocEntries ?t (withContent ?c ?p))) with c.
  apply Forall2_fmap_l.
  eapply Forall2_trans; [|exact Hsrc|apply unitsOf_filterItem].
  intros e b b' He (Hs & _ & Hshown). cbv beta in He. simpl.
  split; [by rewrite Hs|]. rewrite Hshown, <- He. unfold tocShown, filterToc. simpl.
  by rewrite contains_classToggleForce, negb_involutive.
Qed.

Lemma tocMirrors_sources st :
  tocMirrors st →
  Forall2 (λ e b, tocSources e = blockSources b)
          (tocEntries (dom st)) (unitsOf (content (dom st))).
Proof. intros H. eapply Forall2_impl; [exact H|]. by intros e b [? _]. Qed.

(** Once the table of contents is in step with the content column (as
    [render] leaves it), every operation keeps it so: [updateFilters], a
    click on a filter button, on "Show all", on "Norway relevant", on
    "Expand all" or "Collapse all", [clearSearch], [performSearch] and
    [navigateSearch] (which both return).  A link of the table of contents
    is therefore shown exactly when its unit is. *)
Theorem toc_stays_in_step (host : Host) (term : string) (d : Z) (i : nat) (st : App) :
  tocMirrors st →
  tocMirrors (updateFilters host st) ∧
  tocMirrors (filterClick host i st) ∧
  tocMirrors (showAllClick host st) ∧
  tocMirrors (norwayClick host st) ∧
  tocMirrors (expandAllClick st) ∧
  tocMirrors (collapseAllClick st) ∧
  tocMirrors (clearSearch st) ∧
  (∃ st1, performSearch host term st = Returns st1 ∧ tocMirrors st1) ∧
  (∃ st2, navigateSearch d st = Returns st2 ∧ tocMirrors st2).
Proof.
  intros Hm. pose proof (tocMirrors_sources st Hm) as Hsrc.
  destruct (search_frame host term d st) as (Hclear & (st1 & Hs1 & Hf1 & _) & (st2 & Hs2 & Hf2)).
  split; [by apply updateFilters_tocMirrors|].
  split; [by apply updateFilters_tocMirrors|].
  split; [by apply updateFilters_tocMirrors|].
  split.
  { unfold norwayClick. destruct (norwayFilterActive st); by apply updateFilters_tocMirrors. }
  split; [exact (tocMirrors_same _ _ (expandAllClick_frame st) Hm)|].
  split; [exact (tocMirrors_same _ _ (collapseAllClick_frame st) Hm)|].
  split; [exact (tocMirrors_same _ _ Hclear Hm)|].
  split; [exists st1|exists st2]; (split; [done|]); by eapply tocMirrors_same.
Qed.

(** An instance: the sample document as rendered. *)
Lemma toc_stays_in_step_witness :
  let st := render plainParse sampleData 0 in
  tocMirrors (updateFilters stackHost st) ∧
  tocMirrors (filterClick stackHost 6 st) ∧
  tocMirrors (showAllClick stackHost st) ∧
  tocMirrors (norwayClick stackHost st) ∧
  tocMirrors (expandAllClick st) ∧
  tocMirrors (collapseAllClick st) ∧
  tocMirrors (clearSearch st) ∧
  (∃ st1, performSearch stackHost "rate" st = Returns st1 ∧ tocMirrors st1) ∧
  (∃ st2, navigateSearch 1 st = Returns st2 ∧ tocMirrors st2).
Proof.
  apply (toc_stays_in_step stackHost "rate" 1 6 (render plainParse sampleData 0)).
  unfold tocMirrors. vm_compute. repeat constructor.
Defined.

(** *** A search does not depend on the search before it *)

Lemma sameBodyItem_bodies c1 c2 : Forall2 sameBodyItem c1 c2 → bodiesOf c1 = bodiesOf c2.
Proof.
  induction 1 as [|it it' c1 c2 Hit _ IH]; [done|].
  destruct it as [t|b], it' as [t'|b']; simpl in Hit; try done.
  rewrite !bodiesOf_unit. by rewrite Hit, IH.
Qed.

Lemma sameBodyItem_highlights c1 c2 :
  Forall2 sameBodyItem c1 c2 → pageHighlights c1 = pageHighlights c2.
Proof. intros H. unfold pageHighlights. by rewrite (sameBodyItem_bodies _ _ H). Qed.

Lemma highlightBodies_same canon c1 c2 :
  Forall2 sameBodyItem c1 c2 →
  ∀ r c1' r1, highlightBodies canon c1 r = Returns (c1', r1) →
  ∃ c2', highlightBodies canon c2 r = Returns (c2', r1) ∧ Forall2 sameBodyItem c1' c2'.
Proof.
  induction 1 as [|it it' c1 c2 Hit _ IH]; intros r c1' r1.
  - simpl. intros [= <- <-]. by exists [].
  - destruct it as [t|b], it' as [t'|b']; simpl in Hit; try done.
    + simpl. destruct (highlightBodies canon c1 r) as [[c1r r1r]| |] eqn:Hrun; try done.
      simpl. intros [= <- <-]. destruct (IH _ _ _ Hrun) as (c2' & -> & Hsame). simpl.
      eexists. split; [done|]. by constructor.
    + simpl. rewrite <- Hit.
      destruct (highlightTextNodes canon (blockBody b) r) as [[kids' ra]| |]; try done. simpl.
      destruct (highlightBodies canon c1 ra) as [[c1r r1r]| |] eqn:Hrun; try done.
      simpl. intros [= <- <-]. destruct (IH _ _ _ Hrun) as (c2' & -> & Hsame). simpl.
      eexists. split; [done|]. by constructor.
Qed.

Lemma updateMatch_same f g c1 c2 :
  keepsBody g → Forall2 sameBodyItem c1 c2 →
  ∀ k, Forall2 sameBodyItem (updateMatch f g k c1) (updateMatch f g k c2).
Proof.
  intros Hg. induction 1 as [|it it' c1 c2 Hit Hrest IH]; intros k; [constructor|].
  destruct it as [t|b], it' as [t'|b']; simpl in Hit; try done.
  - simpl. by constructor.
  - simpl. rewrite <- Hit.
    destruct (k <? length (highlightsOfList (blockBody b)))%nat.
    + constructor; [|done]. simpl. by rewrite !Hg.
    + constructor; [done|apply IH].
Qed.

Lemma mapBodies_updateMatch_clear f g c :
  keepsHighlight f → keepsBody g →
  ∀ k, Forall2 sameBodyItem (mapBodies clearBody (updateMatch f g k c)) (mapBodies clearBody c).
Proof.
  intros Hf Hg. induction c as [|[t|b] c IH]; intros k; [constructor| |].
  - simpl. constructor; [done|apply IH].
  - simpl. destruct (k <? length (highlightsOfList (blockBody b)))%nat.
    + simpl. constructor.
      * simpl. rewrite Hg. simpl. by destruct (alterHighlightList_invisible f (blockBody b) Hf k).
      * apply Forall_Forall2_diag, Forall_forall. by intros [t|b0] _.
    + simpl. constructor; [done|apply IH].
Qed.

Lemma itemReplaced_clear c c' :
  Forall2 itemReplaced c c' → Forall cleanBody (bodiesOf c) →
  Forall2 sameBodyItem (mapBodies clearBody c') c.
Proof.
  induction 1 as [|it it' c c' Hit _ IH]; [constructor|].
  destruct it as [t|b], it' as [t'|b']; simpl in Hit; try done.
  - intros Hc. simpl. constructor; [done|by apply IH].
  - rewrite bodiesOf_unit. intros [Hb Hc]%Forall_cons. destruct Hit as (kids' & -> & Hrep).
    simpl. constructor; [|by apply IH]. simpl. by apply replacedList_clearBody.
Qed.

Lemma mapBodies_clear_clean c :
  Forall cleanBody (bodiesOf c) → Forall2 sameBodyItem (mapBodies clearBody c) c.
Proof.
  induction c as [|[t|b] c IH]; [constructor| |].
  - intros Hc. simpl. constructor; [done|by apply IH].
  - rewrite bodiesOf_unit. intros [[_ Hb] Hc]%Forall_cons. simpl.
    constructor; [|by apply IH]. simpl. by apply clearBody_clean.
Qed.

Lemma sameBodyItem_trans c1 c2 c3 :
  Forall2 sameBodyItem c1 c2 → Forall2 sameBodyItem c2 c3 → Forall2 sameBodyItem c1 c3.
Proof.
  apply Forall2_trans. intros [t1|b1] [t2|b2] [t3|b3]; simpl; try done. congruence.
Qed.

Lemma sameBodyItem_sym c1 c2 : Forall2 sameBodyItem c1 c2 → Forall2 sameBodyItem c2 c1.
Proof.
  intros H. apply Forall2_flip. eapply Forall2_impl; [exact H|].
  intros [t1|b1] [t2|b2]; simpl; done.
Qed.

Lemma performSearch_long_run host term st c' r' :
  (2 ≤ strLength term)%nat →
  highlightBodies (canonicalize host) (mapBodies clearBody (content (dom st))) (newRegExp term)
    = Returns (c', r') →
  performSearch host term st = Returns (foundState term st c').
Proof.
  intros Hlen Hh. unfold performSearch.
  destruct (Nat.ltb_spec (strLength term) 2); [lia|].
  replace (strIsEmpty term) with false
    by (destruct term; [unfold strLength in Hlen; simpl in Hlen; lia|done]).
  simpl orb. cbv iota.
  change (content (dom (withSearchMatches [] (withSearchTerm term (clearSearch st)))))
    with (mapBodies clearBody (content (dom st))).
  rewrite Hh. cbn [bindC fst]. unfold foundState. rewrite length_seq.
  destruct (Nat.ltb_spec 0 (length (pageHighlights c'))) as [Hpos|Hzero]; [|done].
  destruct (length (pageHighlights c')) as [|n] eqn:Hn; [lia|]. done.
Qed.

(** [performSearch] reads of the document the cleared bodies only: on two
    states whose cleared bodies agree it gives the same bodies, the same
    match list, the same index and the same result text. *)
Lemma performSearch_same host term st st' :
  Forall2 sameBodyItem (mapBodies clearBody (content (dom st)))
                       (mapBodies clearBody (content (dom st'))) →
  ∃ s s', performSearch host term st = Returns s ∧
          performSearch host term st' = Returns s' ∧
          Forall2 sameBodyItem (content (dom s)) (content (dom s')) ∧
          searchMatches s = searchMatches s' ∧
          currentSearchIndex s = currentSearchIndex s' ∧
          resultsCount (dom s) = resultsCount (dom s').
Proof.
  intros Hsame. destruct (Nat.lt_ge_cases (strLength term) 2) as [Hshort|Hlong].
  - rewrite !(performSearch_short host term _ Hshort). eexists _, _.
    split; [done|]. split; [done|]. split; [exact Hsame|]. done.
  - assert (Hne : term ≠ "") by (intros ->; unfold strLength in Hlong; simpl in Hlong; lia).
    destruct (highlightBodies_replaced (canonicalize host)
                (mapBodies clearBody (content (dom st))) (newRegExp term) Hne)
      as (c1 & r1 & Hrun1 & _ & _).
    destruct (highlightBodies_same _ _ _ Hsame _ _ _ Hrun1) as (c2 & Hrun2 & Hc).
    rewrite (performSearch_long_run host term st c1 r1 Hlong Hrun1).
    rewrite (performSearch_long_run host term st' c2 r1 Hlong Hrun2).
    eexists _, _. split; [done|]. split; [done|].
    rewrite !foundState_content, !foundState_searchMatches, !foundState_resultsCount.
    unfold foundState. rewrite <- !(sameBodyItem_highlights _ _ Hc).
    destruct (0 <? length (pageHighlights c1))%nat.
    + split; [by apply updateMatch_same|]. done.
    + by split.
Qed.

(** The result of a search does not depend on the search made before it.
    On a document whose bodies are as the HTML parser builds them, searching
    for [term1] and then for [term2] leaves the same bodies (highlights
    included), the same match list, the same current index and the same
    result text as searching for [term2] right away. *)
Theorem performSearch_forgets_previous (host : Host) (term1 term2 : string) (st : App) :
  Forall cleanBody (bodiesOf (content (dom st))) →
  ∃ st1 st2 st2',
    performSearch host term1 st = Returns st1 ∧
    performSearch host term2 st1 = Returns st2 ∧
    performSearch host term2 st = Returns st2' ∧
    bodiesOf (content (dom st2)) = bodiesOf (content (dom st2')) ∧
    searchMatches st2 = searchMatches st2' ∧
    currentSearchIndex st2 = currentSearchIndex st2' ∧
    resultsCount (dom st2) = resultsCount (dom st2').
Proof.
  intros Hclean.
  pose proof (mapBodies_clear_clean _ Hclean) as Hcc.
  assert (Hclean' : Forall cleanBody (bodiesOf (mapBodies clearBody (content (dom st))))).
  { by rewrite (sameBodyItem_bodies _ _ Hcc). }
  assert (H1 : ∃ st1, performSearch host term1 st = Returns st1 ∧
                      Forall2 sameBodyItem (mapBodies clearBody (content (dom st1)))
                                           (mapBodies clearBody (content (dom st)))).
  { destruct (Nat.lt_ge_cases (strLength term1) 2) as [Hshort|Hlong].
    - rewrite (performSearch_short host term1 st Hshort). eexists. split; [done|].
      apply mapBodies_clear_clean. exact Hclean'.
    - destruct (performSearch_long host term1 st Hlong) as (c' & Hrep & ->).
      eexists. split; [done|]. rewrite foundState_content.
      pose proof (itemReplaced_clear _ _ Hrep Hclean') as Hback.
      destruct (0 <? length (pageHighlights c'))%nat; [|done].
      eapply sameBodyItem_trans; [|exact Hback].
      apply mapBodies_updateMatch_clear; [apply keepsHighlight_classAdd|apply keepsBody_expandBlock]. }
  destruct H1 as (st1 & Hs1 & Hsame).
  destruct (performSearch_same host term2 st1 st Hsame) as (st2 & st2' & Hs2 & Hs2' & Hc & Hm & Hi & Hr).
  exists st1, st2, st2'. do 3 (split; [done|]).
  split; [by apply sameBodyItem_bodies|]. done.
Qed.

(** An instance: "rate", then "shall", on the parsed sample body. *)
Lemma performSearch_forgets_previous_witness :
  ∃ st1 st2 st2',
    performSearch stackHost "rate" (loadedApp twoRatesDoc 0) = Returns st1 ∧
    performSearch stackHost "shall" st1 = Returns st2 ∧
    performSearch stackHost "shall" (loadedApp twoRatesDoc 0) = Returns st2' ∧
    bodiesOf (content (dom st2)) = bodiesOf (content (dom st2')) ∧
    searchMatches st2 = searchMatches st2' ∧
    currentSearchIndex st2 = currentSearchIndex st2' ∧
    resultsCount (dom st2) = resultsCount (dom st2').
Proof.
  apply (performSearch_forgets_previous stackHost "rate" "shall" (loadedApp twoRatesDoc 0)).
  repeat constructor.
Defined.

(** *** updateActiveTocItem *)

Lemma currentArticle_loop (line : Z) (articles : list (string * Z)) : ∀ cur,
  match foldl (λ (currentId : option string) (art : string * Z),
                 if snd art <=? line then Some (fst art) else currentId)
              cur articles with
  | Some id =>
      (∃ pre top post, articles = pre ++ (id, top) :: post ∧ top ≤ line ∧
                       Forall (λ a, line < snd a) post) ∨
      (cur = Some id ∧ Forall (λ a, line < snd a) articles)
  | None => cur = None ∧ Forall (λ a, line < snd a) articles
  end.
Proof.
  induction articles as [|[id0 top0] l IH]; intros cur.
  - simpl. destruct cur; [right|]; by split.
  - simpl. specialize (IH (if top0 <=? line then Some id0 else cur)).
    destruct (foldl _ _ l) as [id|].
    + destruct IH as [(pre & top & post & -> & Ht & Hp)|[Hc Hl]].
      * left. exists ((id0, top0) :: pre), top, post. by split.
      * destruct (Z.leb_spec top0 line) as [Hle|Hgt].
        -- injection Hc as <-. left. exists [], top0, l. by split.
        -- right. split; [done|]. by constructor.
    + destruct IH as [Hc Hl]. destruct (Z.leb_spec top0 line); [done|].
      split; [done|]. by constructor.
Qed.

(** The link marked active in the table of contents.  The current article
    is the last article block, in document order, whose [offsetTop] is at
    most [scrollY + 100], and there is none exactly when every article
    block lies below that line; after [updateActiveTocItem] a link carries
    the class [active] exactly when its [href] is [#] followed by the id of
    the current article (by [null] when there is none); hrefs, order and
    the other classes of the links are unchanged. *)
Theorem updateActiveTocItem_marks_current (articles : list (string * Z)) (scrollY : Z)
  (links : list tocLink) :
  let links' := updateActiveTocItem articles scrollY links in
  let currentId := currentArticleId articles scrollY in
  match currentId with
  | Some id => ∃ pre top post, articles = pre ++ (id, top) :: post ∧
                               top ≤ scrollY + 100 ∧
                               Forall (λ a, scrollY + 100 < snd a) post
  | None => Forall (λ a, scrollY + 100 < snd a) articles
  end ∧
  Forall2 (λ a a', linkHref a' = linkHref a ∧
                   (contains (linkClasses a') "active" = true ↔
                    linkHref a = currentHref currentId) ∧
                   sameClassesBut "active" (linkClasses a) (linkClasses a'))
          links links'.
Proof.
  intros links' currentId. subst links' currentId. split.
  - unfold currentArticleId. cbn zeta.
    pose proof (currentArticle_loop (scrollY + 100) articles None) as H.
    destruct (foldl _ _ articles) as [id|].
    + destruct H as [H|[[=] _]]. exact H.
    + by destruct H.
  - unfold updateActiveTocItem. cbn zeta. apply Forall2_fmap_r, Forall_Forall2_diag, Forall_forall.
    intros a _. unfold compose. cbn [linkHref linkClasses]. split; [done|]. split.
    + rewrite contains_classToggleForce. apply bool_decide_eq_true.
    + intros x Hx. by apply contains_classToggleForce_other.
Qed.

(** *** Nothing is left over in a text node that is split *)

Lemma searchFrom_first canon pat s : ∀ i idx,
  searchFrom canon pat s i = Some idx →
  ∀ j, (j < idx - i)%nat → matchHere canon pat (strDrop j s) = false.
Proof.
  induction s as [|c s IH]; intros i idx; simpl.
  - destruct (matchHere canon pat "") eqn:Hm; [|done]. intros [= <-] j Hj. lia.
  - destruct (matchHere canon pat (String c s)) eqn:Hm.
    + intros [= <-] j Hj. lia.
    + intros Hs j Hj. destruct j as [|j]; [done|]. simpl.
      apply (IH _ _ Hs). pose proof (searchFrom_bounds _ _ _ _ _ Hs). lia.
Qed.

Lemma searchFrom_none canon pat s : ∀ i,
  searchFrom canon pat s i = None → ∀ j, matchHere canon pat (strDrop j s) = false.
Proof.
  induction s as [|c s IH]; intros i; simpl.
  - destruct (matchHere canon pat "") eqn:Hm; [done|]. intros _ j. by rewrite strDrop_empty.
  - destruct (matchHere canon pat (String c s)) eqn:Hm; [done|].
    intros Hs [|j]; [done|]. simpl. by apply (IH _ Hs).
Qed.

Lemma matchHere_of_take canon pat : ∀ k s,
  matchHere canon pat (strTake k s) = true → matchHere canon pat s = true.
Proof.
  induction pat as [|p pat IH]; intros k s; [done|].
  destruct k as [|k], s as [|c s]; simpl; try done.
  intros [Hc Hm]%andb_true_iff. rewrite Hc. simpl. by apply (IH k).
Qed.

Lemma strDrop_take j k s : strDrop j (strTake k s) = strTake (k - j) (strDrop j s).
Proof.
  revert k s. induction j as [|j IH]; intros k s; [by rewrite Nat.sub_0_r|].
  destruct k as [|k], s as [|c s]; simpl; try done.
  by destruct (k - j)%nat.
Qed.

Lemma strLength_take k s : (strLength (strTake k s) ≤ k)%nat.
Proof.
  unfold strLength. revert s. induction k as [|k IH]; intros [|c s]; simpl; try lia.
  specialize (IH s). lia.
Qed.

Lemma occursIn_none canon pat s :
  (∀ j, matchHere canon pat (strDrop j s) = false) → occursIn canon pat s = false.
Proof.
  intros Hno. unfold occursIn. destruct (searchFrom canon pat s 0) as [idx|] eqn:Hs; [|done].
  apply searchFrom_sound in Hs. by rewrite Hno in Hs.
Qed.

Lemma occursIn_gap canon pat k s :
  pat ≠ "" →
  (∀ j, (j < k)%nat → matchHere canon pat (strDrop j s) = false) →
  occursIn canon pat (strTake k s) = false.
Proof.
  intros Hne Hno. apply occursIn_none. intros j.
  destruct (matchHere canon pat (strDrop j (strTake k s))) eqn:Hm; [|done]. exfalso.
  pose proof (matchHere_length _ _ _ Hm) as Hlen.
  rewrite strLength_drop in Hlen. pose proof (strLength_take k s) as Hk.
  assert (0 < strLength pat)%nat.
  { unfold strLength. destruct pat; [done|simpl; lia]. }
  rewrite strDrop_take in Hm. apply matchHere_of_take in Hm.
  rewrite Hno in Hm by lia. done.
Qed.

Lemma execLoop_exact canon fuel : ∀ r text frs frs' li' r',
  literal r ≠ "" →
  execLoop canon fuel r text (lastIndex r) frs = Returns (frs', li', r') →
  Forall (exactFragment canon (literal r)) frs →
  Forall (exactFragment canon (literal r)) frs' ∧
  ((li' < strLength text)%nat → occursIn canon (literal r) (strDrop li' text) = false).
Proof.
  induction fuel as [|fuel IH]; intros r text frs frs' li' r' Hne; simpl; [done|].
  destruct (regexExec canon r text) as [[[idx m]|] r1] eqn:He.
  - intros Hrun Hfr.
    destruct (regexExec_match _ _ _ _ _ _ He) as (Hm & Hlen & _).
    pose proof (regexExec_some _ _ _ _ _ _ He) as (Hle & _ & _ & _ & Hlit).
    rewrite <- Hlit. eapply IH; [congruence|exact Hrun|]. rewrite Hlit.
    apply Forall_app. split; [|by repeat constructor].
    destruct (Nat.ltb_spec (lastIndex r) idx) as [Hlt|Hge]; [|done].
    apply Forall_app. split; [done|]. constructor; [|constructor]. constructor.
    unfold slice. apply occursIn_gap; [done|]. intros j Hj.
    unfold regexExec in He. destruct (strLength text <? lastIndex r)%nat; [done|].
    destruct (searchFrom _ _ _ _) as [j0|] eqn:Hs; [|done]. injection He as -> _ _.
    apply (searchFrom_first _ _ _ _ _ Hs). lia.
  - intros [= <- <- <-] Hfr. split; [done|]. intros Hlt.
    unfold regexExec in He. destruct (Nat.ltb_spec (strLength text) (lastIndex r)); [lia|].
    destruct (searchFrom _ _ _ _) as [j0|] eqn:Hs; [done|].
    apply occursIn_none. by apply (searchFrom_none _ _ _ _ Hs).
Qed.

(** The body of [textNodes.forEach], for a query that is not empty: the
    loop ends; the nodes put in place of the text node spell its text; every
    highlight among them wraps a piece that is the query up to case; and no
    text node among them still contains the query.  So every occurrence in
    a text node that is split is highlighted (overlapping ones apart, of
    which the leftmost counts), and a text node without occurrence is left
    as it is. *)
Theorem splitTextNode_wraps_all (canon : ascii → ascii) (r : RegExp) (text : string) :
  literal r ≠ "" →
  ∃ ns r', splitTextNode canon r text = Returns (ns, r') ∧
           strConcat (map textContent ns) = text ∧
           Forall (exactFragment canon (literal r)) ns ∧
           (occursIn canon (literal r) text = true → existsb isHighlight ns = true) ∧
           (occursIn canon (literal r) text = false → ns = [Text text]).
Proof.
  intros Hne. unfold splitTextNode.
  destruct (execLoop_returns canon (S (strLength text)) (MkRegExp (literal r) 0) text 0 [])
    as [[[frs li] r1] Hrun]; [done|simpl; lia|].
  rewrite Hrun. cbn [bindC].
  destruct (execLoop_spec canon _ (MkRegExp (literal r) 0) text [] frs li r1 Hrun)
    as (_ & Htxt & _ & Hhl); [done|done|].
  destruct (execLoop_exact canon _ (MkRegExp (literal r) 0) text [] frs li r1 Hne Hrun)
    as [Hex Htail]; [done|]. cbn [literal] in Hex, Htail.
  assert (Hocc : occursIn canon (literal r) text = true → (0 < length frs)%nat).
  { intros Hocc.
    pose proof (execLoop_grows canon _ (MkRegExp (literal r) 0) text 0 [] frs li r1
                  eq_refl Hocc Hrun) as Hpos. simpl in Hpos. lia. }
  assert (Hnone : occursIn canon (literal r) text = false → frs = []).
  { intros Hno. simpl in Hrun. unfold regexExec in Hrun. simpl in Hrun.
    unfold occursIn in Hno. destruct (searchFrom canon (literal r) text 0); [done|].
    by injection Hrun as <- _ _. }
  destruct (Nat.ltb_spec 0 (length frs)) as [Hpos|Hzero].
  - assert (Hhl' : existsb isHighlight frs = true).
    { destruct Hhl as [->|?]; [simpl in Hpos; lia|done]. }
    eexists _, _. split; [done|].
    destruct (Nat.ltb_spec li (strLength text)) as [Hlt|Hge].
    + split; [|split; [|split]].
      * rewrite map_app, strConcat_app, Htxt. simpl. rewrite strApp_nil_r. apply strTake_drop.
      * apply Forall_app. split; [done|]. constructor; [|constructor].
        constructor. by apply Htail.
      * intros _. by rewrite existsb_app, Hhl'.
      * intros Hno. rewrite (Hnone Hno) in Hpos. simpl in Hpos. lia.
    + split; [|split; [|split]]; [|done|done|].
      * rewrite Htxt. by apply strTake_all.
      * intros Hno. rewrite (Hnone Hno) in Hpos. simpl in Hpos. lia.
  - eexists _, _. split; [done|]. split; [by simpl; rewrite strApp_nil_r|].
    destruct (occursIn canon (literal r) text) eqn:Ho; [specialize (Hocc eq_refl); lia|].
    split; [by repeat constructor|]. by split.
Qed.

(** An instance: two occurrences in one text node. *)
Lemma splitTextNode_wraps_all_witness :
  ∃ ns r', splitTextNode asciiCanonicalize (newRegExp "rate") "The Rate and the rates"
             = Returns (ns, r') ∧
           strConcat (map textContent ns) = "The Rate and the rates" ∧
           Forall (exactFragment asciiCanonicalize "rate") ns ∧
           (occursIn asciiCanonicalize "rate" "The Rate and the rates" = true →
            existsb isHighlight ns = true) ∧
           (occursIn asciiCanonicalize "rate" "The Rate and the rates" = false →
            ns = [Text "The Rate and the rates"]).
Proof.
  apply (splitTextNode_wraps_all asciiCanonicalize (newRegExp "rate") "The Rate and the rates").
  simpl. discriminate.
Defined.

(** *** The footnote lookup *)

Lemma buildFnMap_loop (fns : list (string * string)) : ∀ (m : gmap string string) k t,
  foldl (λ fnMap fn, <[fst fn := snd fn]> fnMap) m fns !! k = Some t ↔
  (∃ pre post, fns = pre ++ (k, t) :: post ∧ k ∉ map fst post) ∨
  (m !! k = Some t ∧ k ∉ map fst fns).
Proof.
  induction fns as [|[id0 t0] fns IH]; intros m k t.
  - simpl. split.
    + intros Hm. right. split; [done|]. by intros ?%elem_of_nil.
    + intros [(pre & post & Heq & _)|[Hm _]]; [by destruct pre|done].
  - cbn [foldl fst snd]. rewrite IH. split.
    + intros [(pre & post & -> & Hk)|[Hm Hk]].
      * left. by exists ((id0, t0) :: pre), post.
      * destruct (decide (k = id0)) as [->|Hne].
        -- rewrite lookup_insert_eq in Hm. injection Hm as ->. left. by exists [], fns.
        -- rewrite lookup_insert_ne in Hm by done. right. split; [done|].
           cbn [map fst]. intros [?|?]%elem_of_cons; done.
    + intros [(pre & post & Heq & Hk)|[Hm Hk]].
      * destruct pre as [|p pre].
        -- simpl in Heq. simplify_eq. right. by rewrite lookup_insert_eq.
        -- simpl in Heq. simplify_eq. left. by exists pre, post.
      * cbn [map fst] in Hk. apply not_elem_of_cons in Hk as [Hne Hk].
        right. by rewrite lookup_insert_ne.
Qed.

Lemma replaceFirstHash_hash id : replaceFirstHash ("#" +:+ id) = id.
Proof. done. Qed.

(** The tooltip of a footnote reference.  A link gets a tooltip exactly
    when its [href] starts with [#E] and the last footnote of
    [data.footnotes] whose id is the [href] without its [#] has a text that
    is not empty, and the tooltip shows that text; when the same id occurs
    twice the later footnote wins.  With pairwise distinct ids, every
    footnote with an id that starts with [E] and a text that is not empty is
    shown on the links to it. *)
Theorem footnoteTooltip_last_wins (fns : list (string * string)) (href t : string) :
  (footnoteTooltip (Some fns) href = Some t ↔
   startsWith "#E" href = true ∧ t ≠ "" ∧
   ∃ pre post, fns = pre ++ (replaceFirstHash href, t) :: post ∧
               replaceFirstHash href ∉ map fst post) ∧
  footnoteTooltip None href = None ∧
  (∀ id, NoDup (map fst fns) → (id, t) ∈ fns → startsWith "E" id = true → t ≠ "" →
         footnoteTooltip (Some fns) ("#" +:+ id) = Some t).
Proof.
  assert (Hiff : footnoteTooltip (Some fns) href = Some t ↔
                 startsWith "#E" href = true ∧ t ≠ "" ∧
                 buildFnMap fns !! replaceFirstHash href = Some t).
  { unfold footnoteTooltip. destruct (startsWith "#E" href); [|by split; [|intros [? _]]].
    destruct (buildFnMap fns !! replaceFirstHash href) as [t0|]; [|by split; [|intros (_ & _ & ?)]].
    destruct t0 as [|c t0]; simpl.
    - split; [done|]. by intros (_ & Hne & [= <-]).
    - split; [by intros [= <-]|by intros (_ & _ & ?)]. }
  split; [|split; [done|]].
  - rewrite Hiff. unfold buildFnMap. rewrite buildFnMap_loop.
    split; intros (Hp & Hne & H); (split; [done|]; split; [done|]).
    + by destruct H as [H|[[=] _]].
    + by left.
  - intros id Hnd Hin Hpre Hne. 
    assert (Hgen : ∀ h, h = "#" +:+ id → footnoteTooltip (Some fns) h = Some t).
    { intros h ->. unfold footnoteTooltip.
      change (startsWith "#E" ("#" +:+ id))
        with (bool_decide ("#"%char = "#"%char) && startsWith "E" id).
      rewrite Hpre, bool_decide_eq_true_2 by done. cbn [andb].
      rewrite replaceFirstHash_hash.
      assert (Hl : buildFnMap fns !! id = Some t).
      { unfold buildFnMap. apply buildFnMap_loop. left.
        apply list_elem_of_split in Hin as (pre & post & ->). exists pre, post. split; [done|].
        rewrite map_app in Hnd. apply NoDup_app in Hnd as (_ & _ & Hpost).
        cbn [map fst] in Hpost. by apply NoDup_cons in Hpost as [? _]. }
      rewrite Hl. destruct t; [done|done]. }
    by apply Hgen.
Qed.

(** An instance: an id that occurs twice, and one that occurs once. *)
Lemma footnoteTooltip_last_wins_witness :
  footnoteTooltip (Some [("E0001", "first"); ("E0002", "second"); ("E0001", "third")]) "#E0001"
    = Some "third" ∧
  footnoteTooltip (Some [("E0001", "first"); ("E0002", "second")]) ("#" +:+ "E0002")
    = Some "second".
Proof.
  split; [reflexivity|].
  destruct (footnoteTooltip_last_wins [("E0001", "first"); ("E0002", "second")] "#E0002" "second")
    as (_ & _ & H).
  apply (H "E0002").
  - apply (bool_decide_unpack _). vm_compute. exact I.
  - apply (bool_decide_unpack _). vm_compute. exact I.
  - reflexivity.
  - discriminate.
Defined.

(** *** Where the tooltip is put *)

(** The tooltip of a footnote stays on screen sideways whenever it fits: if
    the viewport is at least 16 pixels wider than the tooltip, the tooltip
    lies between the margins of 8 pixels left and right, and it is centred
    on the link when that position respects the margins.  A tooltip that
    does not fit is aligned with the right margin.  It sits 8 pixels above
    the link when that leaves 8 pixels above it, and otherwise 8 pixels
    below the link. *)
Theorem tooltipPosition_on_screen (rl rt rw rb tw th iw : Q) :
  let p := tooltipPosition rl rt rw rb tw th iw in
  let centred := (rl + rw / 2 - tw / 2)%Q in
  ((tw + 16 <= iw)%Q → (8 <= fst p)%Q ∧ (fst p + tw <= iw - 8)%Q) ∧
  ((8 <= centred)%Q → (centred + tw <= iw - 8)%Q → (fst p == centred)%Q) ∧
  ((iw < tw + 16)%Q → (fst p + tw == iw - 8)%Q) ∧
  ((8 <= rt - th - 8)%Q → (snd p + th == rt - 8)%Q) ∧
  ((rt - th - 8 < 8)%Q → (snd p == rb + 8)%Q).
Proof.
  intros p centred. subst p centred. unfold tooltipPosition. cbn zeta.
  destruct (Qlt_le_dec (rl + rw / 2 - tw / 2) 8);
    destruct (Qlt_le_dec _ _); destruct (Qlt_le_dec (rt - th - 8) 8);
    cbn [fst snd]; repeat split; intros; lra.
Qed.

(** An instance: a link near the left edge of a viewport of 1024 pixels. *)
Lemma tooltipPosition_on_screen_witness :
  let p := tooltipPosition 10 200 40 216 120 30 1024 in
  ((8 <= fst p)%Q ∧ (fst p + 120 <= 1024 - 8)%Q) ∧
  (snd p + 30 == 200 - 8)%Q.
Proof.
  destruct (tooltipPosition_on_screen 10 200 40 216 120 30 1024) as (Hfit & _ & _ & Habove & _).
  split; [apply Hfit|apply Habove]; vm_compute; discriminate.
Defined.

(** *** Which occurrences the walk can pass over *)

Lemma verdicts_app canon pat prev run1 run2 :
  verdicts canon pat prev run1 →
  verdicts canon pat (lastVerdict prev run1) run2 →
  verdicts canon pat prev (run1 ++ run2).
Proof.
  intros H1. revert run2. induction H1 as [prev|prev s run _ IH|prev s run Ho _ IH|prev s run Ho _ IH];
    intros run2 H2; simpl.
  - done.
  - constructor. by apply IH.
  - constructor; [done|]. by apply IH.
  - constructor; [done|]. by apply IH.
Qed.

Lemma lastVerdict_app prev run1 run2 :
  lastVerdict prev (run1 ++ run2) = lastVerdict (lastVerdict prev run1) run2.
Proof. unfold lastVerdict. apply foldl_app. Qed.

Lemma regexTest_accept canon r s r' :
  regexTest canon r s = (false, r') → occursIn canon (literal r) s = true →
  lastIndex r ≠ 0%nat.
Proof.
  intros Ht Ho Hz. apply regexTest_false in Ht as [_ Hno]. rewrite (Hno Hz) in Ho. done.
Qed.

(** The walk over one node, started with a regex whose [lastIndex] is 0
    unless the text node tested last was accepted. *)
Lemma walkTextNodes_verdicts canon n : ∀ ex r f r1 prev,
  walkTextNodes canon ex n r = (f, r1) →
  (lastIndex r ≠ 0%nat → prev = true) →
  length f = length (textNodesOf ex n) ∧
  verdicts canon (literal r) prev (zip (textNodesOf ex n) f) ∧
  (lastIndex r1 ≠ 0%nat → lastVerdict prev (zip (textNodesOf ex n) f) = true).
Proof.
  induction n as [s|c d kids IH] using node_forall_ind; intros ex r f r1 prev.
  - simpl. destruct ex.
    + intros [= <- <-] Hp. simpl. split; [done|]. split; [repeat constructor|done].
    + destruct (regexTest canon r s) as [ok r'] eqn:Ht. intros [= <- <-] Hp. simpl.
      split; [done|]. destruct ok.
      * split; [|done]. constructor; [by apply regexTest_true in Ht|constructor].
      * split.
        -- constructor; [|constructor]. intros Ho. apply Hp. by eapply regexTest_accept.
        -- intros Hnz. by apply regexTest_false in Ht as [Hz _].
  - rewrite walkTextNodes_elem. simpl textNodesOf.
    generalize (ex || matchesExcluded c). intros b. revert r f r1 prev.
    induction IH as [|k ks Hk _ IHks]; intros r f r1 prev; simpl.
    + intros [= <- <-] Hp. split; [done|]. split; [constructor|done].
    + destruct (walkTextNodes canon b k r) as [f1 ra] eqn:H1.
      destruct (walkTextNodesList canon b ks ra) as [f2 rb] eqn:H2.
      intros [= <- <-] Hp.
      pose proof (walkTextNodes_literal _ _ _ _ _ _ H1) as Hlit.
      destruct (Hk _ _ _ _ prev H1 Hp) as (Hl1 & Hv1 & Hn1).
      destruct (IHks _ _ _ _ H2 Hn1) as (Hl2 & Hv2 & Hn2). rewrite Hlit in Hv2.
      rewrite zip_with_app by done. rewrite !length_app, lastVerdict_app.
      split; [lia|]. split; [by apply verdicts_app|done].
Qed.

Lemma walkTextNodesList_verdicts canon ks : ∀ ex r f r1 prev,
  walkTextNodesList canon ex ks r = (f, r1) →
  (lastIndex r ≠ 0%nat → prev = true) →
  length f = length (textNodesOfList ex ks) ∧
  verdicts canon (literal r) prev (zip (textNodesOfList ex ks) f) ∧
  (lastIndex r1 ≠ 0%nat → lastVerdict prev (zip (textNodesOfList ex ks) f) = true).
Proof.
  induction ks as [|k ks IH]; intros ex r f r1 prev; simpl.
  - intros [= <- <-] Hp. split; [done|]. split; [constructor|done].
  - destruct (walkTextNodes canon ex k r) as [f1 ra] eqn:H1.
    destruct (walkTextNodesList canon ex ks ra) as [f2 rb] eqn:H2.
    intros [= <- <-] Hp.
    pose proof (walkTextNodes_literal _ _ _ _ _ _ H1) as Hlit.
    destruct (walkTextNodes_verdicts _ _ _ _ _ _ prev H1 Hp) as (Hl1 & Hv1 & Hn1).
    destruct (IH _ _ _ _ _ H2 Hn1) as (Hl2 & Hv2 & Hn2). rewrite Hlit in Hv2.
    change (textNodesOfList ex (k :: ks)) with (textNodesOf ex k ++ textNodesOfList ex ks).
    rewrite zip_with_app by done. rewrite !length_app, lastVerdict_app.
    split; [lia|]. split; [by apply verdicts_app|done].
Qed.

(** What the tree walker of [highlightTextNodes] accepts in a body, with
    the regex as [performSearch] creates it: it gives one verdict per text
    node; a text node inside an excluded region is rejected; an accepted
    text node contains the query; and a text node that contains the query
    is rejected only when the text node tested just before it was accepted.
    In particular the first text node of a body that contains the query
    outside the excluded regions is accepted. *)
Theorem walk_rejects_only_after_accept (canon : ascii → ascii) (term : string)
  (kids : list node) :
  let flags := fst (walkTextNodesList canon false kids (newRegExp term)) in
  length flags = length (textNodesOfList false kids) ∧
  verdicts canon term false (zip (textNodesOfList false kids) flags).
Proof.
  intros flags. subst flags.
  destruct (walkTextNodesList canon false kids (newRegExp term)) as [f r1] eqn:Hw.
  destruct (walkTextNodesList_verdicts canon kids false (newRegExp term) f r1 false Hw)
    as (Hlen & Hv & _); [done|]. by split.
Qed.

(** *** Scrolling to the current match *)

Lemma navigateSearch_window d st :
  searchMatches st ≠ [] →
  ∃ st' m,
    navigateSearch d st = Returns st' ∧
    arrayGet (searchMatches st') (currentSearchIndex st') = Some m ∧
    pageYOffset st' = pageYOffset st ∧
    rootScrollBehavior st' = rootScrollBehavior st ∧
    scrollLog st' = scrollLog st ++ [ScrollIntoView m "smooth" "center"].
Proof.
  intros Hne. pose proof (nextIndex_range d st Hne) as Hr.
  destruct (arrayGet_in_range _ _ Hr) as (m & Hm & _).
  unfold navigateSearch.
  destruct (Z.eqb_spec (Z.of_nat (length (searchMatches st))) 0) as [Hz|_]; [lia|].
  assert (Hfirst : ∃ st1,
    (if (0 <=? currentSearchIndex st) &&
        (currentSearchIndex st <? Z.of_nat (length (searchMatches st)))
     then match arrayGet (searchMatches st) (currentSearchIndex st) with
          | None => Throws "TypeError"
          | Some m0 => Returns (withDom (withContent
                (updateMatch (classRemove CURRENT) id m0 (content (dom st))) (dom st)) st)
          end
     else Returns st) = Returns st1 ∧
    st1 = withDom (withContent (unmarkedContent st) (dom st)) st).
  { unfold unmarkedContent.
    destruct (Z.leb_spec 0 (currentSearchIndex st)); simpl.
    - destruct (Z.ltb_spec (currentSearchIndex st) (Z.of_nat (length (searchMatches st)))).
      + destruct (arrayGet_in_range (searchMatches st) (currentSearchIndex st)) as (m0 & -> & _);
          [lia|]. eauto.
      + eexists. split; [done|]. by destruct st as [[]].
    - eexists. split; [done|]. by destruct st as [[]]. }
  destruct Hfirst as (st1 & -> & ->). cbn [bindC].
  fold (nextIndex d st).
  change (searchMatches (withCurrentSearchIndex (nextIndex d st)
            (withDom (withContent (unmarkedContent st) (dom st)) st)))
    with (searchMatches st).
  rewrite Hm. eexists _, m. split; [done|]. split; [exact Hm|]. done.
Qed.

(** The search scrolls to the current match and does nothing else to the
    window.  [performSearch] asks for exactly one smooth, centred
    [scrollIntoView], of the first match, when it finds a match and for no
    scrolling when it finds none; [navigateSearch] asks for exactly one, of
    the match it moved to, and for none when there is no match.  Neither
    moves the window itself nor touches the root's scroll behaviour. *)
Theorem search_scrolls_to_current (host : Host) (term : string) (d : Z) (st : App) :
  (∃ st1, performSearch host term st = Returns st1 ∧
          pageYOffset st1 = pageYOffset st ∧
          rootScrollBehavior st1 = rootScrollBehavior st ∧
          scrollLog st1 = scrollLog st ++
            (if bool_decide (searchMatches st1 = []) then []
             else [ScrollIntoView 0 "smooth" "center"])) ∧
  (∃ st2, navigateSearch d st = Returns st2 ∧
          pageYOffset st2 = pageYOffset st ∧
          rootScrollBehavior st2 = rootScrollBehavior st ∧
          scrollLog st2 = scrollLog st ++
            match arrayGet (searchMatches st2) (currentSearchIndex st2) with
            | Some m => [ScrollIntoView m "smooth" "center"]
            | None => []
            end ∧
          (searchMatches st = [] → st2 = st) ∧
          (searchMatches st ≠ [] →
           is_Some (arrayGet (searchMatches st2) (currentSearchIndex st2)))).
Proof.
  split.
  - destruct (Nat.lt_ge_cases (strLength term) 2) as [Hshort|Hlong].
    + rewrite (performSearch_short host term st Hshort). eexists. split; [done|].
      simpl. by rewrite app_nil_r.
    + destruct (performSearch_long host term st Hlong) as (c' & _ & ->).
      eexists. split; [done|]. rewrite foundState_searchMatches. unfold foundState.
      destruct (length (pageHighlights c')) as [|n]; simpl; [by rewrite app_nil_r|done].
  - destruct (decide (searchMatches st = [])) as [He|Hne].
    + rewrite (navigateSearch_empty d st He). exists st. split; [done|].
      do 2 (split; [done|]). rewrite He. unfold arrayGet.
      destruct (currentSearchIndex st <? 0); simpl; rewrite app_nil_r; done.
    + destruct (navigateSearch_window d st Hne) as (st2 & m & -> & Hm & Hy & Hb & Hl).
      exists st2. split; [done|]. do 2 (split; [done|]). rewrite Hm.
      split; [done|]. split; [done|]. intros _. by exists m.
Qed.

(** An instance: a step forward with two matches found. *)
Lemma search_scrolls_to_current_witness :
  ∃ st2, navigateSearch 1 twoRatesFound = Returns st2 ∧
         pageYOffset st2 = pageYOffset twoRatesFound ∧
         rootScrollBehavior st2 = rootScrollBehavior twoRatesFound ∧
         scrollLog st2 = scrollLog twoRatesFound ++
           match arrayGet (searchMatches st2) (currentSearchIndex st2) with
           | Some m => [ScrollIntoView m "smooth" "center"]
           | None => []
           end ∧
         is_Some (arrayGet (searchMatches st2) (currentSearchIndex st2)).
Proof.
  destruct (search_scrolls_to_current stackHost "rate" 1 twoRatesFound)
    as (_ & st2 & Hn & Hy & Hb & Hl & _ & Hsome).
  exists st2. do 4 (split; [assumption|]). apply Hsome. vm_compute. discriminate.
Defined.

(** *** A hidden header as scroll anchor *)

(** A header without a box measures as the zero rectangle and so counts as
    lying at the viewport top.  As soon as one candidate header has no box,
    the anchor recorded is therefore one at distance 0; and when the
    recorded anchor has no box before and after the filter, the restore step
    asks for the offset the window already has: nothing is corrected, and
    the displayed headers go where the new layout puts them. *)
Theorem updateFilters_hidden_anchor (host : Host) (st : App) (a : Anchor) :
  pickAnchor host (dom st) (pageYOffset st) (candidates (content (dom st))) None None = Some a →
  let st' := updateFilters host st in
  let y1 := reflowScroll host (dom st') (pageYOffset st) in
  (∀ el, el ∈ candidates (content (dom st)) → boxTop host (dom st) el = None →
         anchorViewportY a = 0) ∧
  (boxTop host (dom st) (anchorEl a) = None →
   boxTop host (dom st') (anchorEl a) = None →
   scrollLog st' = scrollLog st ++ [ScrollTo y1 "auto"] ∧
   pageYOffset st' = clampScroll host (dom st') y1).
Proof.
  intros Hp st' y1.
  pose proof (pickAnchor_closestFirst _ _ _ _ _ Hp) as Hcf. split.
  - intros el Hel Hb. pose proof (closestFirst_le _ _ _ _ _ _ Hcf Hel) as Hle.
    unfold rectTop in Hle. rewrite Hb in Hle. lia.
  - intros Hb Hb'. destruct (updateFilters_restore host st a Hp) as (Hy & Hlog & _).
    fold st' y1 in Hy, Hlog.
    assert (Ht : restoreTarget host (dom st') y1 a = y1).
    { destruct Hcf as (_ & _ & _ & Hvp & _). unfold restoreTarget, rectTop in *.
      rewrite Hb in Hvp. rewrite Hb', Hvp. lia. }
    rewrite Ht in Hy, Hlog. by split.
Qed.

(** An instance: [a2] is filtered out and the window stands at offset 320,
    the header of [a3] 20 above the viewport top; switching DAC2 off hides
    [a1].  The hidden header of [a2] is recorded as anchor, the window is
    asked to scroll to 320, where it is, and the header of [a3] ends 220
    above the viewport top. *)
Lemma updateFilters_hidden_anchor_witness :
  let st := afterToggleOff "DAC2"
              (withPageYOffset 320
                 (updateFilters stackHost (afterToggleOff "DAC7" (loadedApp staleDoc 0)))) in
  let st' := updateFilters stackHost st in
  pickAnchor stackHost (dom st) (pageYOffset st) (candidates (content (dom st))) None None
    = Some (MkAnchor 2 320 0) ∧
  scrollLog st' = scrollLog st ++ [ScrollTo 320 "auto"] ∧
  pageYOffset st' = 320 ∧
  rectTop stackHost (dom st) (pageYOffset st) 3 = -20 ∧
  rectTop stackHost (dom st') (pageYOffset st') 3 = -220.
Proof.
  split; [vm_compute; reflexivity|].
  destruct (updateFilters_hidden_anchor stackHost
              (afterToggleOff "DAC2"
                 (withPageYOffset 320
                    (updateFilters stackHost (afterToggleOff "DAC7" (loadedApp staleDoc 0)))))
              (MkAnchor 2 320 0)) as [_ Hno].
  - vm_compute. reflexivity.
  - destruct Hno as [Hlog Hy].
    + vm_compute. reflexivity.
    + vm_compute. reflexivity.
    + split; [exact Hlog|]. split; [vm_compute; reflexivity|].
      split; vm_compute; reflexivity.
Defined.
